(** * The htc lexer (lexer/lexer.go), embedded and verified

    A shallow embedding of the hand-written scanner of [hculpan/htc]:
    the [Lexer] cursor, [readChar], the scanning loops and [NextToken],
    followed by the properties of the scanner.

    Conventions of the embedding.
    - A Go [string] is a sequence of bytes: [string] of [ascii].
    - A Go [int] is a 64-bit two's complement integer: a [Z] kept in range
      by [wrap] at every increment.
    - Indexing and slicing outside the string panic in Go: [Panic].
    - A Go [for] loop is a [Fixpoint] on a step budget; [Timeout] is the
      budget running out, so that a loop which never leaves is one that
      answers [Timeout] (or [Panic]) for every budget. *)

From Stdlib Require Import ZArith NArith List String Ascii Bool Lia DecimalString.
Import ListNotations.

Local Open Scope string_scope.
Local Open Scope Z_scope.

(** ** Outcomes of a Go computation *)

Inductive outcome (A : Type) : Type :=
| Ret (a : A)
| Panic
| Timeout.

Arguments Ret {A} a.
Arguments Panic {A}.
Arguments Timeout {A}.

Definition bind {A B : Type} (m : outcome A) (k : A -> outcome B) : outcome B :=
  match m with
  | Ret a => k a
  | Panic => Panic
  | Timeout => Timeout
  end.

Notation "x <- m ;; k" := (bind m (fun x => k))
  (at level 61, m at next level, right associativity).
Notation "' p <- m ;; k" := (bind m (fun x => match x with p => k end))
  (at level 61, p pattern, m at next level, right associativity).

Definition returns {A : Type} (m : outcome A) : bool :=
  match m with
  | Ret _ => true
  | _ => false
  end.

(** ** Go's [int] and [string] primitives *)

Definition int_max : Z := 2 ^ 63 - 1.
Definition int_min : Z := - 2 ^ 63.

(** Two's complement wrap-around of a 64-bit signed integer. *)
Definition wrap (z : Z) : Z := (z + 2 ^ 63) mod 2 ^ 64 - 2 ^ 63.

(** [len(s)]. *)
Definition len (s : string) : Z := Z.of_nat (String.length s).

(** [s[i]]: panics outside [0 <= i < len(s)]. *)
Definition index (s : string) (i : Z) : outcome ascii :=
  if i <? 0 then Panic
  else match String.get (Z.to_nat i) s with
       | Some c => Ret c
       | None => Panic
       end.

(** [s[a:b]]: panics unless [0 <= a <= b <= len(s)]. *)
Definition slice (s : string) (a b : Z) : outcome string :=
  if (0 <=? a) && (a <=? b) && (b <=? len s)
  then Ret (substring (Z.to_nat a) (Z.to_nat (b - a)) s)
  else Panic.

(** [string(ch)] for a [byte]: the conversion of an integer to a string is
    the UTF-8 encoding of the code point of that value, which takes two
    bytes from 0x80 on. *)
Definition string_of_byte (c : ascii) : string :=
  let n := N_of_ascii c in
  if (n <? 128)%N then String c ""
  else String (ascii_of_N (192 + n / 64)) (String (ascii_of_N (128 + n mod 64)) "").

(** The [%d] verb of [fmt.Sprintf]. *)
Definition itoa (z : Z) : string := NilZero.string_of_int (Z.to_int z).

(** [unicode.IsLetter] of Go's standard library on the code points a byte
    can hold (U+0000 to U+00FF): the categories Lu, Ll and Lo of Latin-1. *)
Definition unicode_IsLetter (r : N) : bool :=
  ((65 <=? r) && (r <=? 90)
   || (97 <=? r) && (r <=? 122)
   || (r =? 170) || (r =? 181) || (r =? 186)
   || (192 <=? r) && (r <=? 214)
   || (216 <=? r) && (r <=? 246)
   || (248 <=? r) && (r <=? 255))%N.

(** ** Bytes the scanner names *)

Definition NUL : ascii := "000"%char.
Definition TAB : ascii := "009"%char.
Definition LF : ascii := "010"%char.
Definition CR : ascii := "013"%char.
Definition SP : ascii := " "%char.
Definition DQUOTE : ascii := "034"%char.

(** ** Tokens *)

Definition TokenType := string.

Record Token := mkToken {
  Type_ : TokenType;
  Literal : string;
  Line : Z;
  Position : Z
}.

Definition EOF : TokenType := "EOF".
Definition ILLEGAL : TokenType := "ILLEGAL".
Definition IDENT : TokenType := "IDENT".
Definition INT : TokenType := "INT".
Definition STRING : TokenType := "STRING".
Definition ASSIGN : TokenType := "=".
Definition INCREMENT : TokenType := "++".
Definition DECREMENT : TokenType := "--".
Definition PLUS_EQUALS : TokenType := "+=".
Definition MINUS_EQUALS : TokenType := "-=".
Definition PLUS : TokenType := "+".
Definition MINUS : TokenType := "-".
Definition ASTERISK : TokenType := "*".
Definition SLASH : TokenType := "/".
Definition PERCENT : TokenType := "%".
Definition BANG : TokenType := "!".
Definition EQ : TokenType := "==".
Definition NEQ : TokenType := "!=".
Definition LT : TokenType := "<".
Definition GT : TokenType := ">".
Definition LE : TokenType := "<=".
Definition GE : TokenType := ">=".
Definition LPAREN : TokenType := "(".
Definition RPAREN : TokenType := ")".
Definition LBRACKET : TokenType := "[".
Definition RBRACKET : TokenType := "]".
Definition LBRACE : TokenType := "{".
Definition RBRACE : TokenType := "}".
Definition COMMA : TokenType := ",".
Definition PERIOD : TokenType := ".".
Definition SEMICOLON : TokenType := ";".
Definition IF : TokenType := "if".
Definition ELSE : TokenType := "else".
Definition WHILE : TokenType := "while".
Definition RETURN : TokenType := "return".
Definition INT_TYPE : TokenType := "int".
Definition VOID_TYPE : TokenType := "void".
Definition FOR : TokenType := "for".
Definition PRINTF : TokenType := "printf".
Definition COMMENT : TokenType := "COMMENT".

(** The zero value of [var tok Token]. *)
Definition zeroToken : Token := mkToken "" "" 0 0.

(** ** The scanner state *)

Record Lexer := mkLexer {
  input : string;
  position : Z;
  readPosition : Z;
  ch : ascii;
  line : Z;
  tokenPosition : Z;
  errors : list string
}.

Definition set_line (l : Lexer) (n : Z) : Lexer :=
  mkLexer (input l) (position l) (readPosition l) (ch l) n (tokenPosition l) (errors l).

Definition set_tokenPosition (l : Lexer) (n : Z) : Lexer :=
  mkLexer (input l) (position l) (readPosition l) (ch l) (line l) n (errors l).

Definition set_errors (l : Lexer) (es : list string) : Lexer :=
  mkLexer (input l) (position l) (readPosition l) (ch l) (line l) (tokenPosition l) es.

(** [peekChar]: the next byte, without advancing. *)
Definition peekChar (l : Lexer) : outcome ascii :=
  if len (input l) <=? readPosition l then Ret NUL
  else index (input l) (readPosition l).

(** [readChar]: reads the next byte and advances the positions. *)
Definition readChar (l : Lexer) : outcome Lexer :=
  c <- (if len (input l) <=? readPosition l then Ret NUL
        else index (input l) (readPosition l)) ;;
  Ret (mkLexer (input l) (readPosition l) (wrap (readPosition l + 1)) c
               (line l) (wrap (tokenPosition l + 1)) (errors l)).

(** [NewLexer]. *)
Definition NewLexer (s : string) : outcome Lexer :=
  l <- readChar (mkLexer s 0 0 NUL 1 0 []) ;;
  Ret (set_errors l []).

(** [addError]. *)
Definition addError (l : Lexer) (msg : string) : Lexer :=
  let localMsg := "[" ++ itoa (line l) ++ ":" ++ itoa (tokenPosition l) ++ "] " in
  let localMsg := localMsg ++ msg in
  set_errors l (errors l ++ [localMsg])%list.

Definition Errors (l : Lexer) : list string := errors l.

Definition HasErrors (l : Lexer) : bool :=
  negb (Nat.eqb (List.length (errors l)) 0).

(** [newToken]. *)
Definition newToken (tokenType : TokenType) (c : ascii) (line position : Z) : Token :=
  mkToken tokenType (string_of_byte c) line position.

(** [isLetter] and [isDigit]. *)
Definition isLetter (c : ascii) : bool :=
  unicode_IsLetter (N_of_ascii c) || (c =? "_")%char.

Definition isDigit (c : ascii) : bool :=
  ((N_of_ascii "0" <=? N_of_ascii c) && (N_of_ascii c <=? N_of_ascii "9"))%N.

(** [lookupIdent]. *)
Definition lookupIdent (ident : string) : TokenType :=
  if (ident =? "if")%string then IF
  else if (ident =? "else")%string then ELSE
  else if (ident =? "while")%string then WHILE
  else if (ident =? "return")%string then RETURN
  else if (ident =? "int")%string then INT_TYPE
  else if (ident =? "void")%string then VOID_TYPE
  else if (ident =? "for")%string then FOR
  else if (ident =? "printf")%string then PRINTF
  else IDENT.

(** ** Loops *)

(** [for cond(l.ch) { l.readChar() }]: the loop shared by [skipWhitespace],
    [readLineComment], [readIdentifier] and [readNumber], whose conditions
    all test the current byte only. *)
Fixpoint for_readChar (fuel : nat) (cond : ascii -> bool) (l : Lexer) : outcome Lexer :=
  match fuel with
  | O => Timeout
  | S fuel' =>
      if cond (ch l) then l' <- readChar l ;; for_readChar fuel' cond l'
      else Ret l
  end.

(** [skipWhitespace]. *)
Definition isSpace (c : ascii) : bool :=
  (c =? SP)%char || (c =? TAB)%char || (c =? CR)%char.

Definition skipWhitespace (fuel : nat) (l : Lexer) : outcome Lexer :=
  for_readChar fuel isSpace l.

(** [readLineComment]. *)
Definition inLineComment (c : ascii) : bool :=
  negb (c =? CR)%char && negb (c =? LF)%char.

Definition readLineComment (fuel : nat) (l : Lexer) : outcome (string * Lexer) :=
  let position0 := position l in
  l' <- for_readChar fuel inLineComment l ;;
  s <- slice (input l') position0 (position l') ;;
  Ret (s, l').

(** [readBlockComment]. *)
Fixpoint readBlockComment_for (fuel : nat) (l : Lexer) : outcome Lexer :=
  match fuel with
  | O => Timeout
  | S fuel' =>
      stop <- (if (ch l =? "*")%char
               then p <- peekChar l ;; Ret (p =? "/")%char
               else Ret false) ;;
      if stop : bool then Ret l
      else
        let l1 := if (ch l =? LF)%char then set_line l (wrap (line l + 1)) else l in
        l2 <- readChar l1 ;;
        readBlockComment_for fuel' l2
  end.

Definition readBlockComment (fuel : nat) (l : Lexer) : outcome (string * Lexer) :=
  let position0 := position l in
  l1 <- readBlockComment_for fuel l ;;
  l2 <- readChar l1 ;;
  l3 <- readChar l2 ;;
  s <- slice (input l3) position0 (position l3) ;;
  Ret (s, l3).

(** [readString]: the literal, the error if any, and the state. *)
Fixpoint readString_for (fuel : nat) (position0 : Z) (l : Lexer)
  : outcome (string * option string * Lexer) :=
  match fuel with
  | O => Timeout
  | S fuel' =>
      if negb (ch l =? DQUOTE)%char then
        if (ch l =? LF)%char then
          s <- slice (input l) (wrap (position0 + 1)) (position l) ;;
          Ret (s, Some "non-terminated string", l)
        else
          l' <- readChar l ;;
          readString_for fuel' position0 l'
      else
        s <- slice (input l) (wrap (position0 + 1)) (position l) ;;
        Ret (s, None, l)
  end.

Definition readString (fuel : nat) (l : Lexer) : outcome (string * option string * Lexer) :=
  let position0 := position l in
  l' <- readChar l ;;
  readString_for fuel position0 l'.

(** [readIdentifier] and [readNumber]. *)
Definition readIdentifier (fuel : nat) (l : Lexer) : outcome (string * Lexer) :=
  let position0 := position l in
  l' <- for_readChar fuel isLetter l ;;
  s <- slice (input l') position0 (position l') ;;
  Ret (s, l').

Definition readNumber (fuel : nat) (l : Lexer) : outcome (string * Lexer) :=
  let position0 := position l in
  l' <- for_readChar fuel isDigit l ;;
  s <- slice (input l') position0 (position l') ;;
  Ret (s, l').

(** ** [NextToken] *)

(** How one pass through the body of the [for] loop of [NextToken] ends:
    [repeat = true], falling out of the [switch] to the [break], or one of
    the two [return tok] of the [default] case. *)
Inductive flow : Type :=
| Repeat
| Break (tok : Token)
| Return (tok : Token).

(** The two-byte operator branch: [ch := l.ch; l.readChar(); tok = Token{...}]. *)
Definition twoChar (tokenType : TokenType) (l : Lexer) : outcome (flow * Lexer) :=
  let c := ch l in
  l' <- readChar l ;;
  Ret (Break (mkToken tokenType (string_of_byte c ++ string_of_byte (ch l'))
                      (line l') (tokenPosition l')), l').

(** The one-byte branch: [tok = newToken(T, l.ch, l.line, l.position)]. *)
Definition oneChar (tokenType : TokenType) (l : Lexer) : outcome (flow * Lexer) :=
  Ret (Break (newToken tokenType (ch l) (line l) (position l)), l).

(** The [switch l.ch] of [NextToken]. *)
Definition NextToken_switch (fuel : nat) (l : Lexer) : outcome (flow * Lexer) :=
  let c := ch l in
  if (c =? LF)%char then
    let l1 := set_line l (wrap (line l + 1)) in
    l2 <- readChar l1 ;;
    l3 <- skipWhitespace fuel l2 ;;
    Ret (Repeat, set_tokenPosition l3 0)
  else if (c =? "=")%char then
    p <- peekChar l ;;
    if (p =? "=")%char then twoChar EQ l else oneChar ASSIGN l
  else if (c =? "+")%char then
    p <- peekChar l ;;
    if (p =? "+")%char then twoChar INCREMENT l
    else
      p <- peekChar l ;;
      if (p =? "=")%char then twoChar PLUS_EQUALS l else oneChar PLUS l
  else if (c =? "-")%char then
    p <- peekChar l ;;
    if (p =? "-")%char then twoChar DECREMENT l
    else
      p <- peekChar l ;;
      if (p =? "=")%char then twoChar MINUS_EQUALS l else oneChar MINUS l
  else if (c =? "*")%char then oneChar ASTERISK l
  else if (c =? "/")%char then
    p <- peekChar l ;;
    if (p =? "/")%char then
      '(literal, l') <- readLineComment fuel l ;;
      Ret (Break (mkToken COMMENT literal (line l') (tokenPosition l')), l')
    else
      p <- peekChar l ;;
      if (p =? "*")%char then
        '(literal, l') <- readBlockComment fuel l ;;
        Ret (Break (mkToken COMMENT literal (line l') (tokenPosition l')), l')
      else oneChar SLASH l
  else if (c =? "%")%char then oneChar PERCENT l
  else if (c =? "!")%char then
    p <- peekChar l ;;
    if (p =? "=")%char then twoChar NEQ l else oneChar BANG l
  else if (c =? "<")%char then
    p <- peekChar l ;;
    if (p =? "=")%char then twoChar LE l else oneChar LT l
  else if (c =? ">")%char then
    p <- peekChar l ;;
    if (p =? "=")%char then twoChar GE l else oneChar GT l
  else if (c =? "(")%char then oneChar LPAREN l
  else if (c =? ")")%char then oneChar RPAREN l
  else if (c =? "{")%char then oneChar LBRACE l
  else if (c =? "}")%char then oneChar RBRACE l
  else if (c =? "[")%char then oneChar LBRACKET l
  else if (c =? "]")%char then oneChar RBRACKET l
  else if (c =? ",")%char then oneChar COMMA l
  else if (c =? ".")%char then oneChar PERIOD l
  else if (c =? ";")%char then oneChar SEMICOLON l
  else if (c =? NUL)%char then
    Ret (Break (mkToken EOF "" (Line zeroToken) (Position zeroToken)), l)
  else if (c =? DQUOTE)%char then
    '(literal, err, l') <- readString fuel l ;;
    let l'' := match err with
               | Some msg => addError l' msg
               | None => l'
               end in
    Ret (Break (mkToken STRING literal (line l'') (tokenPosition l'')), l'')
  else if isLetter c then
    '(literal, l') <- readIdentifier fuel l ;;
    Ret (Return (mkToken (lookupIdent literal) literal (line l') (tokenPosition l')), l')
  else if isDigit c then
    '(literal, l') <- readNumber fuel l ;;
    Ret (Return (mkToken INT literal (line l') (tokenPosition l')), l')
  else oneChar ILLEGAL l.

(** The [for] loop of [NextToken], and the [l.readChar(); return tok]
    that follows its [break]. *)
Fixpoint NextToken_for (fuel : nat) (l : Lexer) : outcome (Token * Lexer) :=
  match fuel with
  | O => Timeout
  | S fuel' =>
      '(fl, l1) <- NextToken_switch fuel' l ;;
      match fl with
      | Repeat => NextToken_for fuel' l1
      | Break tok => l2 <- readChar l1 ;; Ret (tok, l2)
      | Return tok => Ret (tok, l1)
      end
  end.

Definition NextToken (fuel : nat) (l : Lexer) : outcome (Token * Lexer) :=
  l1 <- skipWhitespace fuel l ;;
  NextToken_for fuel l1.

(** [Tokens]. *)
Fixpoint Tokens_for (fuel : nat) (result : list Token) (l : Lexer)
  : outcome (list Token * Lexer) :=
  match fuel with
  | O => Timeout
  | S fuel' =>
      '(tok, l1) <- NextToken fuel' l ;;
      let result := (result ++ [tok])%list in
      if (Type_ tok =? EOF)%string then Ret (result, l1)
      else Tokens_for fuel' result l1
  end.

Definition Tokens (fuel : nat) (l : Lexer) : outcome (list Token * Lexer) :=
  Tokens_for fuel [] l.

(** Scanning a source text from a fresh scanner: the (kind, literal) pairs
    that the repository's tests compare, and whole tokens. *)
Definition scan (fuel : nat) (s : string) : outcome (list Token * Lexer) :=
  l <- NewLexer s ;; Tokens fuel l.

Definition kinds (r : outcome (list Token * Lexer)) : outcome (list (TokenType * string)) :=
  '(ts, _) <- r ;; Ret (map (fun t => (Type_ t, Literal t)) ts).

(** * Vocabulary of the statements *)

(** ** Running to a result, and never returning *)

(** A computation runs to [r] when every large enough step budget gives
    [r]; it never returns when no budget gives a result. *)
Definition runs_to {A : Type} (m : nat -> outcome A) (r : A) : Prop :=
  exists n, forall fuel, (n <= fuel)%nat -> m fuel = Ret r.

Definition never_returns {A : Type} (m : nat -> outcome A) : Prop :=
  forall fuel, returns (m fuel) = false.

(** ** Bytes and cursors *)

(** The byte at offset [i], and the sentinel outside the text: what
    [readChar] leaves in [ch] when it moves to [i]. *)
Definition byte_at (s : string) (i : Z) : ascii :=
  if i <? 0 then NUL
  else match String.get (Z.to_nat i) s with
       | Some c => c
       | None => NUL
       end.

(** The cursor invariant of the scanner: [readPosition] is one past
    [position], and [ch] is the byte under [position] (the sentinel past
    the end). *)
Record wf (l : Lexer) : Prop := mk_wf {
  wf_pos : 0 <= position l;
  wf_read : readPosition l = position l + 1;
  wf_max : readPosition l <= int_max;
  wf_ch : ch l = byte_at (input l) (position l);
  wf_line : int_min <= line l <= int_max;
  wf_tp : int_min <= tokenPosition l <= int_max
}.

(** A cursor that ran off the text, or whose [readPosition] overflowed:
    the loops that do not stop on the sentinel cannot leave from here. *)
Definition stuck (l : Lexer) : Prop :=
  ch l = NUL /\
  (len (input l) <= readPosition l <= int_max \/ readPosition l < 0).

(** The cursor of [l] moved to offset [p], with column counter [tp]. *)
Definition moved (l : Lexer) (p tp : Z) : Lexer :=
  mkLexer (input l) p (p + 1) (byte_at (input l) p) (line l) tp (errors l).

(** The two-byte operators of the [switch] of [NextToken], the bytes of its
    one-byte operator and punctuation cases, and the two-byte openers of
    comments. *)
Definition twoCharOps : list (ascii * ascii) :=
  [("=", "="); ("!", "="); ("<", "="); (">", "=");
   ("+", "+"); ("-", "-"); ("+", "="); ("-", "=")]%char.

Definition oneCharOps : list ascii :=
  ["="; "+"; "-"; "*"; "/"; "%"; "!"; "<"; ">";
   "("; ")"; "{"; "}"; "["; "]"; ","; "."; ";"]%char.

Definition commentOpeners : list (ascii * ascii) :=
  [("/", "/"); ("/", "*")]%char.

(** The bytes with a case of their own in the [switch], or skipped before
    it: every other byte reaches the [default] case. *)
Definition recognized : list ascii :=
  [SP; TAB; CR; LF; NUL; DQUOTE] ++ oneCharOps.

(** The keyword table of [lookupIdent]. *)
Definition keywords : list string :=
  ["if"; "else"; "while"; "return"; "int"; "void"; "for"; "printf"].

(** ASCII letters. *)
Definition isAsciiAlpha (c : ascii) : bool :=
  let n := N_of_ascii c in
  ((65 <=? n) && (n <=? 90) || (97 <=? n) && (n <=? 122))%N.

(** The number of line-feeds among the [n] bytes from offset [a]. *)
Fixpoint count_LF (s : string) (a : Z) (n : nat) : Z :=
  match n with
  | O => 0
  | S n' => (if (byte_at s a =? LF)%char then 1 else 0) + count_LF s (a + 1) n'
  end.

(** The condition of the loop of [readString], as one test of a byte. *)
Definition inString (c : ascii) : bool :=
  negb (c =? DQUOTE)%char && negb (c =? LF)%char.

(** [s[a:a+n]] when it does not panic. *)
Definition sub (s : string) (a : Z) (n : nat) : string :=
  substring (Z.to_nat a) n s.

(** A cursor on offset [p] of the text [s], at line [ln] and column
    counter [tp]. [NewLexer s] is [cursor s 0 1 1 []]. *)
Definition cursor (s : string) (p ln tp : Z) (es : list string) : Lexer :=
  mkLexer s p (p + 1) (byte_at s p) ln tp es.

(** Source texts of the examples. *)
Definition newline : string := String LF "".
Definition quote : string := String DQUOTE "".

Definition text_unterminated : string :=
  quote ++ "a final test" ++ newline ++ quote ++ "test" ++ quote.

Definition text_assignments : string := "x = 1;" ++ newline ++ "y = 2;".

Definition text_line_comment : string := "// c" ++ newline ++ "x".

Definition text_blank_lines : string := newline ++ newline ++ "x".

(** The number of bytes of the text from the cursor on. *)
Definition remaining (l : Lexer) : nat := Z.to_nat (len (input l) - position l).

(** No quote and no comment opener from the cursor on. *)
Definition plain (l : Lexer) : Prop :=
  forall i, position l <= i ->
    byte_at (input l) i <> DQUOTE
    /\ ~ In (byte_at (input l) i, byte_at (input l) (i + 1)) commentOpeners.

(** The lexeme of [tok] is [n] bytes of the text of [l] from offset [a],
    between the cursor of [l] and offset [e]; [ILLEGAL] tokens apart, whose
    lexeme is [string(ch)]. *)
Definition lexeme_in (l : Lexer) (tok : Token) (e : Z) : Prop :=
  Type_ tok = ILLEGAL
  \/ exists a (n : nat),
       position l <= a /\ a + Z.of_nat n <= e
       /\ ((0 < n)%nat -> a + Z.of_nat n <= len (input l))
       /\ Literal tok = sub (input l) a n.

(** The kinds that name a class of tokens, and the kinds that are the
    spelling of the one token they name. *)
Definition classKinds : list TokenType :=
  [EOF; ILLEGAL; IDENT; INT; STRING; COMMENT].

Definition spelledKinds : list TokenType :=
  [ASSIGN; INCREMENT; DECREMENT; PLUS_EQUALS; MINUS_EQUALS; PLUS; MINUS;
   ASTERISK; SLASH; PERCENT; BANG; EQ; NEQ; LT; GT; LE; GE;
   LPAREN; RPAREN; LBRACKET; RBRACKET; LBRACE; RBRACE;
   COMMA; PERIOD; SEMICOLON;
   IF; ELSE; WHILE; RETURN; INT_TYPE; VOID_TYPE; FOR; PRINTF].

(** What [NextToken] guarantees of the kind and the line of a token, with
    [l1] the scanner after the token. *)
Definition kind_line_post (tok : Token) (l1 : Lexer) : Prop :=
  (In (Type_ tok) classKinds \/ (In (Type_ tok) spelledKinds /\ Literal tok = Type_ tok))
  /\ (Line tok = line l1 \/ tok = mkToken EOF "" 0 0).

(** From [l] to [l1] the line counter has grown by some [c], at most the
    number of line-feeds among the bytes between the two cursors. *)
Definition line_post (l l1 : Lexer) : Prop :=
  exists c,
    0 <= c <= count_LF (input l) (position l) (Z.to_nat (position l1 - position l))
    /\ line l1 = wrap (line l + c).

(** The entry that [NextToken] logs for a string token cut short:
    [[line:column] non-terminated string]. *)
Definition string_error (tok : Token) : string :=
  (("[" ++ itoa (Line tok) ++ ":" ++ itoa (Position tok) ++ "] ")
   ++ "non-terminated string")%string.

(** The string tokens of a list. *)
Definition isString (t : Token) : bool := (Type_ t =? STRING)%string.

(** Room left in the 64-bit counters for one more call of [NextToken]. *)
Definition room (l : Lexer) : Prop :=
  readPosition l < int_max /\ len (input l) + 2 < int_max.

(** What one pass through the [switch] of [NextToken] guarantees. *)
Definition switch_post (l : Lexer) (fl : flow) (l1 : Lexer) : Prop :=
  wf l1 /\ input l1 = input l /\ readPosition l1 < int_max /\
  match fl with
  | Break _ => position l <= position l1
  | _ => position l < position l1
  end.

(** * Properties *)

(** ** Arithmetic of [int] *)

Lemma wrap_small z : int_min <= z <= int_max -> wrap z = z.
Proof.
  unfold wrap, int_min, int_max. intros H.
  rewrite Z.mod_small by lia. lia.
Qed.

Lemma wrap_overflow : wrap (int_max + 1) = int_min.
Proof. reflexivity. Qed.

Lemma wrap_range z : int_min <= wrap z <= int_max.
Proof.
  unfold wrap, int_min, int_max.
  pose proof (Z.mod_pos_bound (z + 2 ^ 63) (2 ^ 64) ltac:(lia)). lia.
Qed.

Lemma wrap_wrap_add a b : wrap (wrap a + b) = wrap (a + b).
Proof.
  unfold wrap.
  replace ((a + 2 ^ 63) mod 2 ^ 64 - 2 ^ 63 + b + 2 ^ 63)
    with ((a + 2 ^ 63) mod 2 ^ 64 + b) by lia.
  rewrite Zplus_mod_idemp_l. f_equal. f_equal. lia.
Qed.

(** ** Bytes of the input *)

Lemma get_Some_lt s : forall n, (n < String.length s)%nat -> exists c, String.get n s = Some c.
Proof.
  induction s as [|a s IH]; simpl; intros n Hn; [lia|].
  destruct n as [|n]; [eauto|]. apply IH. lia.
Qed.

Lemma get_None_ge s : forall n, (String.length s <= n)%nat -> String.get n s = None.
Proof.
  induction s as [|a s IH]; simpl; intros n Hn; [reflexivity|].
  destruct n as [|n]; [lia|]. apply IH. lia.
Qed.

Lemma byte_at_end s i : len s <= i -> byte_at s i = NUL.
Proof.
  unfold byte_at, len. intros H.
  destruct (i <? 0); [reflexivity|].
  rewrite get_None_ge by lia. reflexivity.
Qed.

Lemma byte_at_not_NUL s i : byte_at s i <> NUL -> 0 <= i < len s.
Proof.
  intros H. destruct (Z_lt_le_dec i 0) as [Hn|Hn].
  - exfalso. apply H. unfold byte_at.
    destruct (Z.ltb_spec i 0); [reflexivity|lia].
  - destruct (Z_lt_le_dec i (len s)); [lia|].
    exfalso. apply H. now apply byte_at_end.
Qed.

Lemma index_byte_at s i : 0 <= i < len s -> index s i = Ret (byte_at s i).
Proof.
  unfold index, byte_at, len. intros H.
  destruct (Z.ltb_spec i 0); [lia|].
  destruct (get_Some_lt s (Z.to_nat i)) as [c Hc]; [lia|].
  now rewrite Hc.
Qed.

Lemma slice_ok s a b :
  0 <= a <= b -> b <= len s ->
  slice s a b = Ret (substring (Z.to_nat a) (Z.to_nat (b - a)) s).
Proof.
  unfold slice. intros H1 H2.
  destruct (Z.leb_spec 0 a); [|lia].
  destruct (Z.leb_spec a b); [|lia].
  destruct (Z.leb_spec b (len s)); [|lia].
  reflexivity.
Qed.

(** ** Well-formed cursors *)

Lemma peekChar_wf l :
  wf l -> peekChar l = Ret (byte_at (input l) (position l + 1)).
Proof.
  intros [Hp Hr _ _ _ _]. unfold peekChar. rewrite Hr.
  destruct (Z.leb_spec (len (input l)) (position l + 1)).
  - now rewrite byte_at_end.
  - apply index_byte_at. lia.
Qed.

Lemma readChar_wf l :
  wf l -> readPosition l < int_max ->
  readChar l = Ret (moved l (position l + 1) (wrap (tokenPosition l + 1))).
Proof.
  intros Hwf Hlt. unfold readChar.
  fold (peekChar l). rewrite (peekChar_wf l Hwf). simpl.
  destruct Hwf as [Hp Hr _ _ _ _]. rewrite Hr.
  rewrite wrap_small by (unfold int_min, int_max in *; lia).
  reflexivity.
Qed.

Lemma moved_wf l p tp :
  wf l -> 0 <= p < int_max -> int_min <= tp <= int_max -> wf (moved l p tp).
Proof.
  intros Hwf H Htp. constructor; simpl; try lia; try reflexivity.
  apply (wf_line l Hwf).
Qed.

Lemma moved_moved l p tp p' tp' : moved (moved l p tp) p' tp' = moved l p' tp'.
Proof. reflexivity. Qed.

Lemma moved_self l : wf l -> moved l (position l) (tokenPosition l) = l.
Proof.
  intros [Hp Hr _ Hc _ _]. destruct l as [s p r c ln tp es]; simpl in *.
  unfold moved; simpl. now subst.
Qed.

Lemma wf_exhausted l : wf l -> len (input l) <= position l -> ch l = NUL.
Proof. intros Hwf H. rewrite (wf_ch l Hwf). now apply byte_at_end. Qed.

Lemma wf_inside l : wf l -> ch l <> NUL -> position l < len (input l).
Proof.
  intros Hwf H. rewrite (wf_ch l Hwf) in H.
  apply byte_at_not_NUL in H. lia.
Qed.

(** ** Step budgets are monotone *)

Lemma bind_Ret_inv {A B : Type} (m : outcome A) (k : A -> outcome B) r :
  bind m k = Ret r -> exists a, m = Ret a /\ k a = Ret r.
Proof. destruct m; simpl; intros H; try discriminate. eauto. Qed.

Ltac bind_inv H :=
  let a := fresh "a" in
  let Ha := fresh "Ha" in
  apply bind_Ret_inv in H; destruct H as (a & Ha & H).

Lemma for_readChar_mono cond :
  forall n l r, for_readChar n cond l = Ret r ->
  forall fuel, (n <= fuel)%nat -> for_readChar fuel cond l = Ret r.
Proof.
  induction n as [|n IH]; simpl; intros l r H fuel Hle; [discriminate|].
  destruct fuel as [|fuel]; [lia|]. simpl.
  destruct (cond (ch l)); [|assumption].
  bind_inv H. rewrite Ha. simpl. apply IH; [assumption|lia].
Qed.

Lemma readBlockComment_for_mono :
  forall n l r, readBlockComment_for n l = Ret r ->
  forall fuel, (n <= fuel)%nat -> readBlockComment_for fuel l = Ret r.
Proof.
  induction n as [|n IH]; simpl; intros l r H fuel Hle; [discriminate|].
  destruct fuel as [|fuel]; [lia|]. simpl.
  bind_inv H. rewrite Ha. simpl.
  destruct a; [assumption|].
  bind_inv H. rewrite Ha0. simpl. apply IH; [assumption|lia].
Qed.

Lemma readString_for_mono p0 :
  forall n l r, readString_for n p0 l = Ret r ->
  forall fuel, (n <= fuel)%nat -> readString_for fuel p0 l = Ret r.
Proof.
  induction n as [|n IH]; simpl; intros l r H fuel Hle; [discriminate|].
  destruct fuel as [|fuel]; [lia|]. simpl.
  destruct (negb (ch l =? DQUOTE)%char); [|assumption].
  destruct (ch l =? LF)%char; [assumption|].
  bind_inv H. rewrite Ha. simpl. apply IH; [assumption|lia].
Qed.

Lemma NextToken_switch_mono :
  forall n l r, NextToken_switch n l = Ret r ->
  forall fuel, (n <= fuel)%nat -> NextToken_switch fuel l = Ret r.
Proof.
  intros n l r H fuel Hle. unfold NextToken_switch in *.
  repeat match goal with
  | |- (if ?b then _ else _) = _ => destruct b
  end;
  try (lazymatch goal with
       | |- context [fuel] => fail
       | _ => assumption
       end).
  - bind_inv H. rewrite Ha. simpl. bind_inv H.
    unfold skipWhitespace in *.
    rewrite (for_readChar_mono _ _ _ _ Ha0 fuel Hle). assumption.
  - bind_inv H. rewrite Ha. simpl. destruct (a =? "/")%char.
    + bind_inv H. unfold readLineComment in *. bind_inv Ha0.
      rewrite (for_readChar_mono _ _ _ _ Ha1 fuel Hle). simpl.
      rewrite Ha0. assumption.
    + rewrite Ha in H. simpl in H.
      destruct (a =? "*")%char; [|assumption].
      bind_inv H. unfold readBlockComment in *. bind_inv Ha0.
      rewrite (readBlockComment_for_mono _ _ _ Ha1 fuel Hle). simpl.
      rewrite Ha0. assumption.
  - bind_inv H. unfold readString in *. bind_inv Ha. rewrite Ha0. simpl.
    rewrite (readString_for_mono _ _ _ _ Ha fuel Hle). assumption.
  - bind_inv H. unfold readIdentifier in *. bind_inv Ha.
    rewrite (for_readChar_mono _ _ _ _ Ha0 fuel Hle). simpl.
    rewrite Ha. assumption.
  - bind_inv H. unfold readNumber in *. bind_inv Ha.
    rewrite (for_readChar_mono _ _ _ _ Ha0 fuel Hle). simpl.
    rewrite Ha. assumption.
Qed.

Lemma NextToken_for_mono :
  forall n l r, NextToken_for n l = Ret r ->
  forall fuel, (n <= fuel)%nat -> NextToken_for fuel l = Ret r.
Proof.
  induction n as [|n IH]; simpl; intros l r H fuel Hle; [discriminate|].
  destruct fuel as [|fuel]; [lia|]. simpl.
  bind_inv H.
  rewrite (NextToken_switch_mono _ _ _ Ha fuel ltac:(lia)). simpl.
  destruct a as [[|tok|tok] l1]; try assumption.
  apply IH; [assumption|lia].
Qed.

Lemma NextToken_mono :
  forall n l r, NextToken n l = Ret r ->
  forall fuel, (n <= fuel)%nat -> NextToken fuel l = Ret r.
Proof.
  unfold NextToken, skipWhitespace. intros n l r H fuel Hle.
  bind_inv H.
  rewrite (for_readChar_mono _ _ _ _ Ha fuel Hle). simpl.
  now apply NextToken_for_mono with n.
Qed.

Lemma Tokens_for_mono :
  forall n acc l r, Tokens_for n acc l = Ret r ->
  forall fuel, (n <= fuel)%nat -> Tokens_for fuel acc l = Ret r.
Proof.
  induction n as [|n IH]; simpl; intros acc l r H fuel Hle; [discriminate|].
  destruct fuel as [|fuel]; [lia|]. simpl.
  bind_inv H.
  rewrite (NextToken_mono _ _ _ Ha fuel ltac:(lia)). simpl.
  destruct a as [tok l1].
  destruct (Type_ tok =? EOF)%string; [assumption|].
  apply IH; [assumption|lia].
Qed.

Lemma scan_mono s :
  forall n r, scan n s = Ret r ->
  forall fuel, (n <= fuel)%nat -> scan fuel s = Ret r.
Proof.
  unfold scan, Tokens. intros n r H fuel Hle.
  bind_inv H. rewrite Ha. simpl. now apply Tokens_for_mono with n.
Qed.

(** One evaluation with some budget settles the result of a scan. *)
Lemma scan_runs_to s n r : scan n s = Ret r -> runs_to (fun fuel => scan fuel s) r.
Proof. intros H. exists n. intros fuel Hle. now apply scan_mono with n. Qed.

Lemma kinds_runs_to s n ks :
  kinds (scan n s) = Ret ks -> runs_to (fun fuel => kinds (scan fuel s)) ks.
Proof.
  intros H. exists n. intros fuel Hle. unfold kinds in *.
  bind_inv H. now rewrite (scan_mono s n a Ha fuel Hle).
Qed.

Lemma NextToken_runs_to l n r :
  NextToken n l = Ret r -> runs_to (fun fuel => NextToken fuel l) r.
Proof. intros H. exists n. intros fuel Hle. now apply NextToken_mono with n. Qed.

(** A computation that runs to a result does not also never return, and
    its result is unique. *)
Lemma runs_to_not_never {A : Type} (m : nat -> outcome A) r :
  runs_to m r -> ~ never_returns m.
Proof.
  intros [n Hn] Hnever. specialize (Hn n (le_n n)). specialize (Hnever n).
  rewrite Hn in Hnever. discriminate.
Qed.

Lemma runs_to_unique {A : Type} (m : nat -> outcome A) r1 r2 :
  runs_to m r1 -> runs_to m r2 -> r1 = r2.
Proof.
  intros [n1 H1] [n2 H2].
  specialize (H1 (Nat.max n1 n2) (Nat.le_max_l _ _)).
  specialize (H2 (Nat.max n1 n2) (Nat.le_max_r _ _)).
  congruence.
Qed.

(** ** The scanning loops on a well-formed cursor *)

(** [for_readChar] walks over the bytes that satisfy [cond] and stops on
    the first that does not. *)
Lemma for_readChar_scan cond :
  forall (n : nat) l fuel,
    wf l ->
    (forall i, position l <= i < position l + Z.of_nat n ->
               cond (byte_at (input l) i) = true) ->
    cond (byte_at (input l) (position l + Z.of_nat n)) = false ->
    position l + Z.of_nat n < int_max ->
    (n < fuel)%nat ->
    for_readChar fuel cond l
    = Ret (moved l (position l + Z.of_nat n) (wrap (tokenPosition l + Z.of_nat n))).
Proof.
  induction n as [|n IH]; intros l fuel Hwf Hrun Hstop Hmax Hfuel;
    (destruct fuel as [|fuel]; [lia|]); simpl for_readChar.
  - rewrite (wf_ch l Hwf). simpl Z.of_nat in *. rewrite Z.add_0_r in Hstop.
    rewrite Hstop. rewrite !Z.add_0_r.
    rewrite wrap_small by apply (wf_tp l Hwf).
    now rewrite moved_self.
  - rewrite (wf_ch l Hwf), Hrun by lia.
    rewrite readChar_wf; [|assumption|rewrite (wf_read l Hwf); lia].
    simpl bind.
    assert (Hwf1 : wf (moved l (position l + 1) (wrap (tokenPosition l + 1)))).
    { apply moved_wf; [assumption| |apply wrap_range].
      pose proof (wf_pos l Hwf). lia. }
    rewrite (IH _ fuel Hwf1); simpl position; simpl input; simpl tokenPosition.
    + rewrite moved_moved, wrap_wrap_add. f_equal. f_equal; [lia|f_equal; lia].
    + intros i Hi. apply Hrun. lia.
    + replace (position l + 1 + Z.of_nat n) with (position l + Z.of_nat (S n)) by lia.
      exact Hstop.
    + lia.
    + lia.
Qed.

(** From a stuck cursor [readChar] panics or stays stuck. *)
Lemma readChar_stuck l :
  stuck l ->
  match readChar l with
  | Ret l' => stuck l' /\ input l' = input l
  | Panic => True
  | Timeout => False
  end.
Proof.
  intros [Hch [Hr|Hr]]; unfold readChar.
  - destruct (Z.leb_spec (len (input l)) (readPosition l)); [|lia].
    simpl. split; [|reflexivity]. split; [reflexivity|]. simpl.
    destruct (Z.eq_dec (readPosition l) int_max) as [->|Hne].
    + right. rewrite wrap_overflow. unfold int_min. lia.
    + left. rewrite wrap_small by (unfold int_min, int_max, len in *; lia). lia.
  - unfold len.
    destruct (Z.leb_spec (Z.of_nat (String.length (input l))) (readPosition l)); [lia|].
    unfold index. destruct (Z.ltb_spec (readPosition l) 0); [exact I|lia].
Qed.

Lemma for_readChar_stuck cond :
  cond NUL = true ->
  forall fuel l, stuck l -> returns (for_readChar fuel cond l) = false.
Proof.
  intros Hc. induction fuel as [|fuel IH]; intros l Hs; [reflexivity|].
  simpl. destruct Hs as [Hch Hr]. rewrite Hch, Hc.
  pose proof (readChar_stuck l (conj Hch Hr)) as H.
  destruct (readChar l) as [l'| |]; simpl; [|reflexivity|contradiction].
  apply IH, H.
Qed.

Lemma readBlockComment_for_stuck :
  forall fuel l, stuck l -> returns (readBlockComment_for fuel l) = false.
Proof.
  induction fuel as [|fuel IH]; intros l Hs; [reflexivity|].
  simpl. destruct Hs as [Hch Hr]. rewrite Hch. simpl.
  pose proof (readChar_stuck l (conj Hch Hr)) as H.
  destruct (readChar l) as [l'| |]; simpl; [|reflexivity|contradiction].
  apply IH, H.
Qed.

Lemma readString_for_stuck p0 :
  forall fuel l, stuck l -> returns (readString_for fuel p0 l) = false.
Proof.
  induction fuel as [|fuel IH]; intros l Hs; [reflexivity|].
  simpl. destruct Hs as [Hch Hr]. rewrite Hch. simpl.
  pose proof (readChar_stuck l (conj Hch Hr)) as H.
  destruct (readChar l) as [l'| |]; simpl; [|reflexivity|contradiction].
  apply IH, H.
Qed.

Lemma wf_stuck l : wf l -> len (input l) <= position l -> stuck l.
Proof.
  intros Hwf H. split; [now apply wf_exhausted|].
  left. pose proof (wf_read l Hwf). pose proof (wf_max l Hwf). lia.
Qed.

(** ** Loops that run off the end of the text *)

(** A loop whose condition holds on every remaining byte and on the
    sentinel never returns: it walks to the end of the text, then
    increments [readPosition] until it overflows, and panics. *)
Lemma for_readChar_never cond :
  cond NUL = true ->
  forall fuel l,
    wf l -> len (input l) < int_max ->
    (forall i, position l <= i < len (input l) -> cond (byte_at (input l) i) = true) ->
    returns (for_readChar fuel cond l) = false.
Proof.
  intros Hc. induction fuel as [|fuel IH]; intros l Hwf Hlen Hrun; [reflexivity|].
  destruct (Z_lt_le_dec (position l) (len (input l))) as [Hin|Hout].
  - simpl. rewrite (wf_ch l Hwf), Hrun by lia.
    rewrite readChar_wf; [|assumption|rewrite (wf_read l Hwf); lia].
    simpl bind. apply IH; simpl; try assumption.
    + apply moved_wf; [assumption| |apply wrap_range].
      pose proof (wf_pos l Hwf). lia.
    + intros i Hi. apply Hrun. lia.
  - apply for_readChar_stuck; [assumption|]. now apply wf_stuck.
Qed.

Lemma readBlockComment_for_never :
  forall fuel l,
    wf l -> len (input l) < int_max ->
    (forall i, position l <= i < len (input l) ->
               ~ (byte_at (input l) i = "*"%char /\ byte_at (input l) (i + 1) = "/"%char)) ->
    returns (readBlockComment_for fuel l) = false.
Proof.
  induction fuel as [|fuel IH]; intros l Hwf Hlen Hrun; [reflexivity|].
  destruct (Z_lt_le_dec (position l) (len (input l))) as [Hin|Hout].
  - simpl. rewrite (peekChar_wf l Hwf), (wf_ch l Hwf).
    assert (Hstop : (if (byte_at (input l) (position l) =? "*")%char
                     then p <- Ret (byte_at (input l) (position l + 1)) ;;
                          Ret (p =? "/")%char
                     else Ret false) = Ret false).
    { destruct (Ascii.eqb_spec (byte_at (input l) (position l)) "*") as [E1|E1];
        [|reflexivity].
      simpl. f_equal.
      destruct (Ascii.eqb_spec (byte_at (input l) (position l + 1)) "/") as [E2|E2];
        [|reflexivity].
      exfalso. apply (Hrun (position l)); [pose proof (wf_pos l Hwf); lia|].
      now split. }
    rewrite Hstop. simpl bind.
    set (l1 := if (byte_at (input l) (position l) =? LF)%char
               then set_line l (wrap (line l + 1)) else l).
    assert (Hwf1 : wf l1 /\ input l1 = input l /\ position l1 = position l).
    { subst l1. destruct (byte_at (input l) (position l) =? LF)%char; [|now auto].
      split; [|now auto].
      destruct Hwf; constructor; simpl; try assumption. apply wrap_range. }
    destruct Hwf1 as (Hwf1 & Hi1 & Hp1).
    rewrite readChar_wf; [|assumption|rewrite (wf_read l1 Hwf1); lia].
    simpl bind. apply IH; simpl; rewrite ?Hi1, ?Hp1; try assumption.
    + apply moved_wf; [assumption| |apply wrap_range].
      pose proof (wf_pos l Hwf). lia.
    + intros i Hi. apply Hrun. lia.
  - apply readBlockComment_for_stuck. now apply wf_stuck.
Qed.

Lemma readString_for_never p0 :
  forall fuel l,
    wf l -> len (input l) < int_max ->
    (forall i, position l <= i < len (input l) ->
               byte_at (input l) i <> DQUOTE /\ byte_at (input l) i <> LF) ->
    returns (readString_for fuel p0 l) = false.
Proof.
  induction fuel as [|fuel IH]; intros l Hwf Hlen Hrun; [reflexivity|].
  destruct (Z_lt_le_dec (position l) (len (input l))) as [Hin|Hout].
  - simpl. rewrite (wf_ch l Hwf).
    destruct (Hrun (position l)) as [Hq Hn]; [pose proof (wf_pos l Hwf); lia|].
    apply Ascii.eqb_neq in Hq, Hn. rewrite Hq, Hn. simpl negb. cbv iota.
    rewrite readChar_wf; [|assumption|rewrite (wf_read l Hwf); lia].
    simpl bind. apply IH; simpl; try assumption.
    + apply moved_wf; [assumption| |apply wrap_range].
      pose proof (wf_pos l Hwf). lia.
    + intros i Hi. apply Hrun. lia.
  - apply readString_for_stuck. now apply wf_stuck.
Qed.

(** ** [NextToken], branch by branch *)

Ltac switch_on H :=
  unfold NextToken_switch; rewrite H;
  cbn [Ascii.eqb Bool.eqb LF NUL DQUOTE SP TAB CR].

Lemma NextToken_for_S fuel l :
  NextToken_for (S fuel) l
  = ('(fl, l1) <- NextToken_switch fuel l ;;
     match fl with
     | Repeat => NextToken_for fuel l1
     | Break tok => l2 <- readChar l1 ;; Ret (tok, l2)
     | Return tok => Ret (tok, l1)
     end).
Proof. reflexivity. Qed.

(** Past the leading [skipWhitespace] when the current byte is not blank. *)
Lemma NextToken_unfold fuel l :
  isSpace (ch l) = false ->
  NextToken (S fuel) l = NextToken_for (S fuel) l.
Proof.
  intros H. unfold NextToken, skipWhitespace. simpl for_readChar.
  now rewrite H.
Qed.

Lemma returns_bind_false {A B : Type} (m : outcome A) (k : A -> outcome B) :
  returns m = false -> returns (bind m k) = false.
Proof. destruct m; simpl; intros H; [discriminate|reflexivity|reflexivity]. Qed.

(** An unterminated line comment: [NextToken] never returns. *)
Lemma NextToken_line_comment_never l :
  wf l -> len (input l) < int_max ->
  ch l = "/"%char -> byte_at (input l) (position l + 1) = "/"%char ->
  (forall i, position l <= i < len (input l) ->
             byte_at (input l) i <> CR /\ byte_at (input l) i <> LF) ->
  never_returns (fun fuel => NextToken fuel l).
Proof.
  intros Hwf Hlen Hch Hnext Hrun [|fuel]; [reflexivity|].
  rewrite NextToken_unfold by now rewrite Hch.
  simpl NextToken_for. apply returns_bind_false.
  switch_on Hch. rewrite (peekChar_wf l Hwf), Hnext. simpl.
  apply returns_bind_false. unfold readLineComment. apply returns_bind_false.
  apply for_readChar_never; try assumption; [reflexivity|].
  intros i Hi. destruct (Hrun i Hi) as [H1 H2].
  apply Ascii.eqb_neq in H1, H2. unfold inLineComment. now rewrite H1, H2.
Qed.

(** An unterminated block comment: [NextToken] never returns. *)
Lemma NextToken_block_comment_never l :
  wf l -> len (input l) < int_max ->
  ch l = "/"%char -> byte_at (input l) (position l + 1) = "*"%char ->
  (forall i, position l <= i < len (input l) ->
             ~ (byte_at (input l) i = "*"%char /\ byte_at (input l) (i + 1) = "/"%char)) ->
  never_returns (fun fuel => NextToken fuel l).
Proof.
  intros Hwf Hlen Hch Hnext Hrun [|fuel]; [reflexivity|].
  rewrite NextToken_unfold by now rewrite Hch.
  simpl NextToken_for. apply returns_bind_false.
  switch_on Hch. rewrite (peekChar_wf l Hwf), Hnext. simpl.
  apply returns_bind_false. unfold readBlockComment. apply returns_bind_false.
  now apply readBlockComment_for_never.
Qed.

(** A string with neither closing quote nor line-feed before the end of
    the text: [NextToken] never returns. *)
Lemma NextToken_string_never l :
  wf l -> len (input l) < int_max ->
  ch l = DQUOTE ->
  (forall i, position l + 1 <= i < len (input l) ->
             byte_at (input l) i <> DQUOTE /\ byte_at (input l) i <> LF) ->
  never_returns (fun fuel => NextToken fuel l).
Proof.
  intros Hwf Hlen Hch Hrun [|fuel]; [reflexivity|].
  rewrite NextToken_unfold by now rewrite Hch.
  simpl NextToken_for. apply returns_bind_false.
  switch_on Hch. apply returns_bind_false. unfold readString.
  assert (Hin : position l < len (input l)).
  { apply wf_inside; [assumption|]. rewrite Hch. discriminate. }
  rewrite readChar_wf; [|assumption|rewrite (wf_read l Hwf); lia].
  simpl bind. apply readString_for_never; simpl; try assumption.
  apply moved_wf; [assumption| |apply wrap_range].
  pose proof (wf_pos l Hwf). lia.
Qed.

(** [Tokens] does not return when its first [NextToken] does not. *)
Lemma Tokens_never l :
  never_returns (fun fuel => NextToken fuel l) ->
  never_returns (fun fuel => Tokens fuel l).
Proof.
  intros H [|fuel]; [reflexivity|].
  unfold Tokens. simpl. apply returns_bind_false, H.
Qed.

(** ** Totality of [Tokens] (C1) *)

(** Evaluates [NewLexer] on a concrete text and leaves a goal about the
    fresh cursor. *)
Ltac fresh_lexer :=
  intros fuel; unfold scan;
  match goal with
  | |- context [NewLexer ?s] =>
      let r := eval vm_compute in (NewLexer s) in
      change (NewLexer s) with r
  end;
  cbn [bind].

Ltac concrete_wf :=
  constructor; cbn [position readPosition ch line tokenPosition input];
  try (vm_compute; intuition congruence); try reflexivity.

(** Case analysis on an offset inside a short concrete text. *)
Ltac offsets i Hi :=
  cbn [position input] in Hi; vm_compute len in Hi;
  repeat match type of Hi with
  | ?a <= i < ?b =>
      first [ assert (a = b - 1) by lia; assert (i = a) by lia; subst i; clear Hi
            | destruct (Z.eq_dec i a) as [->|];
              [ clear Hi | assert (Hi' : a + 1 <= i < b) by lia; clear Hi;
                           rename Hi' into Hi; cbn [Z.add Pos.add Pos.succ] in Hi ] ]
  end.

(** C1 (refuted on the code). [Tokens] does not terminate on every finite
    input: on a text ending in a line comment with no newline after it, in
    a block comment with no closing delimiter, or in a string with neither
    closing quote nor newline, the scanning loop has no test for the end of
    the text and no step budget makes [Tokens] return. *)
Theorem Tokens_unterminated_never_returns :
  never_returns (fun fuel => scan fuel "// c")
  /\ never_returns (fun fuel => scan fuel "/* c")
  /\ never_returns (fun fuel => scan fuel (String DQUOTE "c")).
Proof.
  split; [|split]; fresh_lexer; apply Tokens_never.
  - apply NextToken_line_comment_never; try reflexivity; [concrete_wf|].
    intros i Hi. offsets i Hi; split; vm_compute; congruence.
  - apply NextToken_block_comment_never; try reflexivity; [concrete_wf|].
    intros i Hi. offsets i Hi; vm_compute; intuition congruence.
  - apply NextToken_string_never; try reflexivity; [concrete_wf|].
    intros i Hi. offsets i Hi; split; vm_compute; congruence.
Qed.

(** ** What a loop that returned has done *)

Lemma returns_Ret {A : Type} (m : outcome A) r : m = Ret r -> returns m = true.
Proof. now intros ->. Qed.

(** If [for_readChar] returns, it has walked over [n] bytes satisfying
    [cond], all inside the text, and stopped on one that does not. *)
Lemma for_readChar_inv cond :
  forall fuel l l',
    wf l -> len (input l) < int_max ->
    for_readChar fuel cond l = Ret l' ->
    exists n : nat,
      l' = moved l (position l + Z.of_nat n) (wrap (tokenPosition l + Z.of_nat n))
      /\ (n = 0%nat \/ position l + Z.of_nat n <= len (input l))
      /\ cond (byte_at (input l) (position l + Z.of_nat n)) = false
      /\ (forall i, position l <= i < position l + Z.of_nat n ->
                    cond (byte_at (input l) i) = true).
Proof.
  induction fuel as [|fuel IH]; intros l l' Hwf Hlen H; [discriminate|].
  pose proof (returns_Ret _ _ H) as Hret.
  simpl in H. destruct (cond (ch l)) eqn:Hc.
  - destruct (Z_lt_le_dec (position l) (len (input l))) as [Hin|Hout].
    + rewrite readChar_wf in H; [|assumption|rewrite (wf_read l Hwf); lia].
      simpl bind in H. apply IH in H; simpl input; try assumption.
      * destruct H as (n & -> & Hn & Hstop & Hrun). simpl in *.
        exists (S n). rewrite moved_moved, wrap_wrap_add.
        replace (position l + Z.of_nat (S n)) with (position l + 1 + Z.of_nat n) by lia.
        replace (tokenPosition l + Z.of_nat (S n))
          with (tokenPosition l + 1 + Z.of_nat n) by lia.
        repeat split; try assumption; [right; lia|].
        intros i Hi. destruct (Z.eq_dec i (position l)) as [->|Hne].
        -- now rewrite <- (wf_ch l Hwf).
        -- apply Hrun. lia.
      * apply moved_wf; [assumption| |apply wrap_range].
        pose proof (wf_pos l Hwf). lia.
    + exfalso. rewrite (wf_exhausted l Hwf Hout) in Hc.
      rewrite (for_readChar_stuck cond Hc (S fuel) l) in Hret; [discriminate|].
      now apply wf_stuck.
  - inversion H; subst l'. exists 0%nat. simpl Z.of_nat. rewrite !Z.add_0_r.
    rewrite wrap_small by apply (wf_tp l Hwf).
    rewrite moved_self by assumption.
    repeat split; [now left|now rewrite <- (wf_ch l Hwf)|intros i Hi; lia].
Qed.

(** The same, as an invariant. *)
Lemma for_readChar_wf cond fuel l l' :
  wf l -> len (input l) < int_max ->
  for_readChar fuel cond l = Ret l' ->
  wf l' /\ input l' = input l /\ line l' = line l /\ errors l' = errors l
  /\ position l <= position l'
  /\ (position l' = position l \/ position l' <= len (input l))
  /\ cond (ch l') = false.
Proof.
  intros Hwf Hlen H.
  destruct (for_readChar_inv cond fuel l l' Hwf Hlen H) as (n & -> & Hn & Hstop & _).
  pose proof (wf_pos l Hwf). pose proof (wf_read l Hwf). pose proof (wf_max l Hwf).
  simpl.
  split; [|split; [reflexivity|split; [reflexivity|split; [reflexivity|
    split; [lia|split; [|exact Hstop]]]]]].
  - apply moved_wf; [assumption| |apply wrap_range].
    destruct Hn as [->|Hn]; simpl; lia.
  - destruct Hn as [->|Hn]; [left; simpl; lia|now right].
Qed.

Lemma set_line_wf l n : wf l -> wf (set_line l (wrap n)).
Proof. intros []; constructor; simpl; try assumption. apply wrap_range. Qed.

Lemma readBlockComment_for_wf :
  forall fuel l l',
    wf l -> len (input l) < int_max ->
    readBlockComment_for fuel l = Ret l' ->
    wf l' /\ input l' = input l /\ errors l' = errors l
    /\ position l <= position l'
    /\ ch l' = "*"%char /\ byte_at (input l) (position l' + 1) = "/"%char.
Proof.
  induction fuel as [|fuel IH]; intros l l' Hwf Hlen H; [discriminate|].
  pose proof (returns_Ret _ _ H) as Hret.
  simpl in H. rewrite (peekChar_wf l Hwf) in H.
  destruct (Ascii.eqb_spec (ch l) "*") as [E1|E1].
  - simpl bind in H.
    destruct (Ascii.eqb_spec (byte_at (input l) (position l + 1)) "/") as [E2|E2].
    + inversion H; subst l'.
      split; [assumption|]. split; [reflexivity|]. split; [reflexivity|].
      split; [lia|]. split; assumption.
    + assert (Hne : (ch l =? LF)%char = false) by now rewrite E1.
      rewrite Hne in H.
      destruct (Z_lt_le_dec (position l) (len (input l))) as [Hin|Hout].
      * rewrite readChar_wf in H; [|assumption|rewrite (wf_read l Hwf); lia].
        simpl bind in H. apply IH in H; simpl input; try assumption.
        -- simpl in H. intuition lia.
        -- apply moved_wf; [assumption| |apply wrap_range].
           pose proof (wf_pos l Hwf). lia.
      * rewrite (wf_exhausted l Hwf Hout) in E1. discriminate.
  - simpl bind in H.
    set (l1 := if (ch l =? LF)%char then set_line l (wrap (line l + 1)) else l) in *.
    assert (Hl1 : wf l1 /\ input l1 = input l /\ position l1 = position l
                  /\ errors l1 = errors l /\ tokenPosition l1 = tokenPosition l).
    { subst l1. destruct (ch l =? LF)%char; [|now auto].
      split; [now apply set_line_wf|now auto]. }
    destruct Hl1 as (Hwf1 & Hi1 & Hp1 & He1 & Ht1).
    destruct (Z_lt_le_dec (position l) (len (input l))) as [Hin|Hout].
    + rewrite readChar_wf in H; [|assumption|rewrite (wf_read l1 Hwf1); lia].
      simpl bind in H. apply IH in H; simpl input; rewrite ?Hi1; try assumption.
      * simpl in H. rewrite ?Hi1, ?Hp1, ?He1 in H. intuition lia.
      * apply moved_wf; [assumption| |apply wrap_range].
        pose proof (wf_pos l Hwf). lia.
    + exfalso.
      rewrite (readBlockComment_for_stuck (S fuel) l) in Hret; [discriminate|].
      now apply wf_stuck.
Qed.

Lemma readString_for_wf p0 :
  forall fuel l s err l',
    wf l -> len (input l) < int_max ->
    readString_for fuel p0 l = Ret (s, err, l') ->
    wf l' /\ input l' = input l /\ errors l' = errors l /\ line l' = line l
    /\ position l <= position l' < len (input l).
Proof.
  induction fuel as [|fuel IH]; intros l s err l' Hwf Hlen H; [discriminate|].
  pose proof (returns_Ret _ _ H) as Hret.
  assert (Hnn : ch l <> NUL -> position l <= position l < len (input l)).
  { intros Hn. pose proof (wf_inside l Hwf Hn). lia. }
  simpl in H.
  destruct (Ascii.eqb_spec (ch l) DQUOTE) as [E1|E1]; simpl negb in H; cbv iota in H.
  - bind_inv H. inversion H; subst.
    split; [assumption|]. split; [reflexivity|]. split; [reflexivity|].
    split; [reflexivity|]. apply Hnn; rewrite E1; discriminate.
  - destruct (Ascii.eqb_spec (ch l) LF) as [E2|E2].
    + bind_inv H. inversion H; subst.
      split; [assumption|]. split; [reflexivity|]. split; [reflexivity|].
      split; [reflexivity|]. apply Hnn; rewrite E2; discriminate.
    + destruct (Z_lt_le_dec (position l) (len (input l))) as [Hin|Hout].
      * rewrite readChar_wf in H; [|assumption|rewrite (wf_read l Hwf); lia].
        simpl bind in H. apply IH in H; simpl input; try assumption.
        -- simpl in H. intuition lia.
        -- apply moved_wf; [assumption| |apply wrap_range].
           pose proof (wf_pos l Hwf). lia.
      * exfalso.
        rewrite (readString_for_stuck p0 (S fuel) l) in Hret; [discriminate|].
        now apply wf_stuck.
Qed.

(** ** The cursor invariant through [NextToken] *)

Lemma set_tokenPosition_wf l : wf l -> wf (set_tokenPosition l 0).
Proof.
  intros []; constructor; simpl; try assumption.
  unfold int_min, int_max. lia.
Qed.

Lemma oneChar_post T l fl l1 :
  wf l -> room l -> oneChar T l = Ret (fl, l1) -> switch_post l fl l1.
Proof.
  intros Hwf [Hr Hl] H. inversion H; subst.
  split; [assumption|]. split; [reflexivity|]. split; [assumption|]. simpl. lia.
Qed.

Lemma twoChar_post T l fl l1 :
  wf l -> room l -> ch l <> NUL -> twoChar T l = Ret (fl, l1) -> switch_post l fl l1.
Proof.
  intros Hwf [Hr Hl] Hch H. unfold twoChar in H.
  pose proof (wf_inside l Hwf Hch) as Hin.
  pose proof (wf_pos l Hwf) as Hp.
  rewrite readChar_wf in H by assumption. simpl bind in H.
  inversion H; subst. split; [|split; [reflexivity|split; simpl; lia]].
  apply moved_wf; [assumption|lia|apply wrap_range].
Qed.

(** A loop entered on a byte that satisfies its condition moves forward. *)
Lemma for_readChar_strict cond fuel l l' :
  wf l -> len (input l) < int_max -> cond (ch l) = true ->
  for_readChar fuel cond l = Ret l' ->
  position l < position l' <= len (input l) /\ wf l' /\ input l' = input l.
Proof.
  intros Hwf Hlen Hc H.
  destruct (for_readChar_inv cond fuel l l' Hwf Hlen H) as (n & -> & Hn & Hstop & _).
  destruct n as [|n].
  - exfalso. simpl Z.of_nat in Hstop. rewrite Z.add_0_r in Hstop.
    rewrite <- (wf_ch l Hwf) in Hstop. congruence.
  - destruct Hn as [Hn|Hn]; [discriminate|]. simpl.
    split; [lia|]. split; [|reflexivity].
    apply moved_wf; [assumption| |apply wrap_range].
    pose proof (wf_pos l Hwf). lia.
Qed.

Lemma NextToken_switch_post fuel l fl l1 :
  wf l -> room l ->
  NextToken_switch fuel l = Ret (fl, l1) ->
  switch_post l fl l1.
Proof.
  intros Hwf Hroom H. pose proof Hroom as [Hr Hl].
  pose proof (wf_inside l Hwf) as Hin.
  pose proof (wf_pos l Hwf) as Hp.
  pose proof (wf_read l Hwf) as Hrd.
  unfold NextToken_switch in H. rewrite (peekChar_wf l Hwf) in H. simpl bind in H.
  repeat match type of H with
  | (if (?a =? ?b)%char then _ else _) = _ =>
      let E := fresh "E" in
      destruct (Ascii.eqb_spec a b) as [E|E];
      [ try (assert (Hne : ch l <> NUL) by (rewrite E; discriminate);
             specialize (Hin Hne)) | ]
  | (if isLetter ?a then _ else _) = _ => destruct (isLetter a) eqn:Elet
  | (if isDigit ?a then _ else _) = _ => destruct (isDigit a) eqn:Edig
  end;
  try (eapply oneChar_post; eassumption);
  try (eapply twoChar_post; try eassumption; congruence).
  - (* line feed *)
    rewrite readChar_wf in H; [|now apply set_line_wf|assumption].
    simpl bind in H. bind_inv H. inversion H as [[Hfl Hl1]]; subst fl l1; clear H.
    apply for_readChar_wf in Ha; simpl input; [|apply moved_wf|lia].
    + destruct Ha as (Hwf' & Hi & _ & _ & Hpos & Hend & _). simpl in *.
      split; [now apply set_tokenPosition_wf|]. split; [assumption|].
      unfold set_tokenPosition; simpl.
      rewrite (wf_read a Hwf'). split; lia.
    + now apply set_line_wf.
    + simpl. lia.
    + apply wrap_range.
  - (* line comment *)
    bind_inv H. destruct a as [literal l']. inversion H as [[Hfl Hl1]]; subst fl l1; clear H.
    unfold readLineComment in Ha. bind_inv Ha. bind_inv Ha. inversion Ha as [[Hlit Hl']]; subst literal l'.
    apply for_readChar_wf in Ha0; [|assumption|lia].
    destruct Ha0 as (Hwf' & Hi & _ & _ & Hpos & Hend & _).
    split; [assumption|]. split; [assumption|].
    rewrite (wf_read _ Hwf'). split; lia.
  - (* block comment *)
    bind_inv H. destruct a as [literal l']. inversion H as [[Hfl Hl1]]; subst fl l1; clear H.
    unfold readBlockComment in Ha. bind_inv Ha.
    apply readBlockComment_for_wf in Ha0; [|assumption|lia].
    destruct Ha0 as (Hwf' & Hi & _ & Hpos & _ & Hnext).
    assert (Hend : 0 <= position a + 1 < len (input l)).
    { apply byte_at_not_NUL. rewrite Hnext. discriminate. }
    pose proof (wf_pos a Hwf') as Hpa.
    assert (Hwf2 : wf (moved a (position a + 1) (wrap (tokenPosition a + 1)))).
    { apply moved_wf; [assumption|lia|apply wrap_range]. }
    rewrite readChar_wf in Ha; [|assumption|rewrite (wf_read a Hwf'); lia].
    simpl bind in Ha. rewrite readChar_wf in Ha; [|assumption|simpl; lia].
    simpl bind in Ha. bind_inv Ha. inversion Ha as [[Hlit Hl']]. subst literal l'.
    split; [|split; [assumption|split; simpl; lia]].
    apply moved_wf; [assumption|simpl; lia|apply wrap_range].
  - (* end of input *)
    inversion H; subst. split; [assumption|]. split; [reflexivity|]. split; lia.
  - (* string *)
    bind_inv H. destruct a as [[literal err] l']. inversion H as [[Hfl Hl1]]; subst fl l1; clear H.
    unfold readString in Ha. rewrite readChar_wf in Ha by assumption.
    simpl bind in Ha.
    apply readString_for_wf in Ha; simpl input; [| |lia].
    + destruct Ha as (Hwf' & Hi & _ & _ & Hpos). simpl in Hpos.
      assert (Hgoal : switch_post l (Break zeroToken) l').
      { split; [assumption|]. split; [assumption|].
        rewrite (wf_read _ Hwf'). split; lia. }
      destruct err as [msg|]; [|exact Hgoal].
      destruct Hgoal as (Hw & Hi' & Hr' & Hp').
      split; [|split; [assumption|split; assumption]].
      destruct Hw; constructor; simpl; assumption.
    + apply moved_wf; [assumption|lia|apply wrap_range].
  - (* identifier *)
    bind_inv H. destruct a as [literal l']. inversion H as [[Hfl Hl1]]; subst fl l1; clear H.
    unfold readIdentifier in Ha. bind_inv Ha. bind_inv Ha. inversion Ha as [[Hlit Hl']]; subst literal l'.
    apply for_readChar_strict in Ha0; try assumption; [|lia].
    destruct Ha0 as (Hpos & Hwf' & Hi).
    split; [assumption|]. split; [assumption|].
    rewrite (wf_read _ Hwf'). split; lia.
  - (* number *)
    bind_inv H. destruct a as [literal l']. inversion H as [[Hfl Hl1]]; subst fl l1; clear H.
    unfold readNumber in Ha. bind_inv Ha. bind_inv Ha. inversion Ha as [[Hlit Hl']]; subst literal l'.
    apply for_readChar_strict in Ha0; try assumption; [|lia].
    destruct Ha0 as (Hpos & Hwf' & Hi).
    split; [assumption|]. split; [assumption|].
    rewrite (wf_read _ Hwf'). split; lia.
Qed.

Lemma NextToken_for_post :
  forall fuel l tok l',
    wf l -> room l ->
    NextToken_for fuel l = Ret (tok, l') ->
    wf l' /\ input l' = input l /\ position l < position l'.
Proof.
  induction fuel as [|fuel IH]; intros l tok l' Hwf Hroom H; [discriminate|].
  simpl in H. bind_inv H. destruct a as [fl l1].
  destruct (NextToken_switch_post _ _ _ _ Hwf Hroom Ha) as (Hwf1 & Hi1 & Hr1 & Hp1).
  destruct fl as [|t|t].
  - apply IH in H; [|assumption|split; [assumption|rewrite Hi1; apply Hroom]].
    destruct H as (Hwf' & Hi' & Hp'). split; [assumption|].
    split; [congruence|lia].
  - rewrite readChar_wf in H by assumption. simpl bind in H.
    inversion H; subst. simpl. split; [|split; [assumption|lia]].
    pose proof (wf_pos l1 Hwf1). pose proof (wf_read l1 Hwf1).
    apply moved_wf; [assumption|lia|apply wrap_range].
  - inversion H; subst. split; [assumption|]. split; [assumption|lia].
Qed.

Lemma NextToken_post fuel l tok l' :
  wf l -> room l ->
  NextToken fuel l = Ret (tok, l') ->
  wf l' /\ input l' = input l /\ position l < position l'.
Proof.
  intros Hwf [Hr Hl] H. unfold NextToken, skipWhitespace in H. bind_inv H.
  apply for_readChar_wf in Ha; [|assumption|lia].
  destruct Ha as (Hwf0 & Hi0 & _ & _ & Hp0 & Hend & _).
  apply NextToken_for_post in H; [|assumption|].
  - destruct H as (Hwf' & Hi' & Hp'). split; [assumption|].
    split; [congruence|lia].
  - pose proof (wf_read l Hwf). split; rewrite ?(wf_read a Hwf0), ?Hi0; lia.
Qed.

(** At the end of the text [NextToken] answers [EOF], with the zero values
    of [Line] and [Position], and advances once more. *)
Lemma NextToken_EOF fuel l :
  wf l -> ch l = NUL -> readPosition l < int_max -> (1 <= fuel)%nat ->
  NextToken fuel l
  = Ret (mkToken EOF "" 0 0,
         moved l (position l + 1) (wrap (tokenPosition l + 1))).
Proof.
  intros Hwf Hch Hr Hfuel. destruct fuel as [|fuel]; [lia|].
  rewrite NextToken_unfold by now rewrite Hch.
  simpl NextToken_for. switch_on Hch. cbn [bind Line Position zeroToken].
  now rewrite readChar_wf.
Qed.

(** [NewLexer] sets up a well-formed cursor on the first byte. *)
Lemma NewLexer_wf s :
  len s < int_max ->
  NewLexer s = Ret (mkLexer s 0 1 (byte_at s 0) 1 1 []) /\
  wf (mkLexer s 0 1 (byte_at s 0) 1 1 []).
Proof.
  intros Hlen. split.
  - unfold NewLexer, readChar. cbn [input readPosition].
    destruct (Z.leb_spec (len s) 0).
    + rewrite byte_at_end by assumption. reflexivity.
    + rewrite index_byte_at by lia. reflexivity.
  - constructor; cbn; try reflexivity; unfold int_min, int_max; lia.
Qed.

(** The advance operation alone: after it [position] is the old
    [readPosition] and [readPosition] is one further, wrap-around included. *)
Lemma readChar_positions l l' :
  readChar l = Ret l' ->
  position l' = readPosition l /\ readPosition l' = wrap (position l' + 1).
Proof.
  unfold readChar. intros H. bind_inv H. inversion H; subst. now split.
Qed.

(** ** Slices and bytes *)

Lemma substring_S s : forall n m c,
  String.get n s = Some c ->
  substring n (S m) s = String c (substring (S n) m s).
Proof.
  induction s as [|a s IH]; intros n m c H; [discriminate|].
  destruct n as [|n]; simpl in *.
  - inversion H; subst. destruct m; reflexivity.
  - apply IH. assumption.
Qed.

Lemma substring_0 s : forall n, substring n 0 s = "".
Proof.
  induction s as [|a s IH]; intros n; [destruct n; reflexivity|].
  destruct n; simpl; [reflexivity|apply IH].
Qed.

Lemma get_byte_at s i : 0 <= i < len s -> String.get (Z.to_nat i) s = Some (byte_at s i).
Proof.
  intros H. unfold byte_at. destruct (Z.ltb_spec i 0); [lia|].
  destruct (get_Some_lt s (Z.to_nat i)) as [c Hc]; [unfold len in H; lia|].
  now rewrite Hc.
Qed.

Lemma sub_S s a n :
  0 <= a < len s -> sub s a (S n) = String (byte_at s a) (sub s (a + 1) n).
Proof.
  intros H. unfold sub. rewrite (substring_S _ _ _ _ (get_byte_at s a H)).
  do 2 f_equal. lia.
Qed.

Lemma sub_0 s a : sub s a 0 = "".
Proof. apply substring_0. Qed.

Lemma slice_sub s a (n : nat) :
  0 <= a -> a + Z.of_nat n <= len s ->
  slice s a (a + Z.of_nat n) = Ret (sub s a n).
Proof.
  intros Ha Hn. rewrite slice_ok by lia. unfold sub. do 2 f_equal. lia.
Qed.

(** ** Operators and punctuation *)

Ltac peek_not Hnot :=
  repeat match goal with
  | |- context [(byte_at ?s ?i =? ?x)%char] =>
      let E := fresh "E" in
      destruct (Ascii.eqb_spec (byte_at s i) x) as [E|E];
      [ exfalso; apply Hnot; rewrite E; simpl; tauto | ]
  end.

(** A two-byte operator: one token, both bytes consumed. *)
Lemma NextToken_twoChar fuel l c1 c2 :
  wf l -> room l -> (1 <= fuel)%nat ->
  ch l = c1 -> byte_at (input l) (position l + 1) = c2 ->
  In (c1, c2) twoCharOps ->
  NextToken fuel l
  = Ret (mkToken (String c1 (String c2 "")) (String c1 (String c2 ""))
                 (line l) (wrap (tokenPosition l + 1)),
         moved l (position l + 2) (wrap (tokenPosition l + 2)))
  /\ sub (input l) (position l) 2 = String c1 (String c2 "").
Proof.
  intros Hwf [Hr Hl] Hfuel Hc1 Hc2 Hin.
  pose proof (wf_pos l Hwf) as Hp. pose proof (wf_read l Hwf) as Hrd.
  assert (Hne : c1 <> NUL /\ c2 <> NUL /\ isSpace c1 = false).
  { simpl in Hin.
    repeat (destruct Hin as [Hin|Hin]; [inversion Hin; repeat split; discriminate|]).
    contradiction. }
  destruct Hne as (Hne1 & Hne2 & Hsp).
  assert (Hin1 : 0 <= position l < len (input l)).
  { apply byte_at_not_NUL. rewrite <- (wf_ch l Hwf). congruence. }
  assert (Hin2 : 0 <= position l + 1 < len (input l)).
  { apply byte_at_not_NUL. congruence. }
  split.
  - destruct fuel as [|fuel]; [lia|].
    rewrite NextToken_unfold by congruence.
    rewrite NextToken_for_S.
    assert (Hsw : NextToken_switch fuel l
                  = Ret (Break (mkToken (String c1 (String c2 "")) (String c1 (String c2 ""))
                                        (line l) (wrap (tokenPosition l + 1))),
                         moved l (position l + 1) (wrap (tokenPosition l + 1)))).
    { simpl in Hin.
      repeat (destruct Hin as [Hin|Hin];
              [inversion Hin as [[E1 E2]]; rewrite <- E1 in Hc1; rewrite <- E2 in Hc2;
               clear Hin E1 E2|]);
        try contradiction;
        switch_on Hc1; rewrite (peekChar_wf l Hwf), Hc2;
        cbn [bind Ascii.eqb Bool.eqb]; unfold twoChar;
        rewrite readChar_wf by assumption; cbn [bind ch moved line tokenPosition];
        rewrite Hc1, Hc2; reflexivity. }
    rewrite Hsw. cbn [bind].
    rewrite readChar_wf.
    + cbn [bind]. rewrite moved_moved.
      cbn [moved position tokenPosition]. rewrite wrap_wrap_add.
      replace (position l + 1 + 1) with (position l + 2) by lia.
      replace (tokenPosition l + 1 + 1) with (tokenPosition l + 2) by lia.
      reflexivity.
    + apply moved_wf; [assumption|lia|apply wrap_range].
    + simpl. lia.
  - rewrite sub_S by lia. rewrite sub_S by lia. rewrite sub_0.
    rewrite <- (wf_ch l Hwf). congruence.
Qed.

(** A one-byte operator or punctuation mark that starts no two-byte
    operator and no comment: one token, one byte consumed; its [Position]
    is the offset of the byte in the text. *)
Lemma NextToken_oneChar fuel l c1 c2 :
  wf l -> room l -> (1 <= fuel)%nat ->
  ch l = c1 -> byte_at (input l) (position l + 1) = c2 ->
  In c1 oneCharOps ->
  ~ In (c1, c2) twoCharOps -> ~ In (c1, c2) commentOpeners ->
  NextToken fuel l
  = Ret (mkToken (String c1 "") (String c1 "") (line l) (position l),
         moved l (position l + 1) (wrap (tokenPosition l + 1)))
  /\ sub (input l) (position l) 1 = String c1 "".
Proof.
  intros Hwf [Hr Hl] Hfuel Hc1 Hc2 Hin Hnot2 Hnot3.
  pose proof (wf_pos l Hwf) as Hp.
  assert (Hne : c1 <> NUL /\ isSpace c1 = false).
  { simpl in Hin.
    repeat (destruct Hin as [Hin|Hin]; [rewrite <- Hin; split; [discriminate|reflexivity]|]).
    contradiction. }
  destruct Hne as (Hne1 & Hsp).
  assert (Hin1 : 0 <= position l < len (input l)).
  { apply byte_at_not_NUL. rewrite <- (wf_ch l Hwf). congruence. }
  split.
  - destruct fuel as [|fuel]; [lia|].
    rewrite NextToken_unfold by congruence.
    rewrite NextToken_for_S.
    assert (Hsw : NextToken_switch fuel l
                  = Ret (Break (mkToken (String c1 "") (String c1 "")
                                        (line l) (position l)), l)).
    { simpl in Hin.
      repeat (destruct Hin as [Hin|Hin]; [symmetry in Hin; rewrite Hin in *|]);
        try contradiction;
        switch_on Hc1; rewrite ?(peekChar_wf l Hwf), ?Hc2; cbn [bind];
        repeat match goal with
        | |- context [(c2 =? ?x)%char] =>
            let E := fresh "E" in
            destruct (Ascii.eqb_spec c2 x) as [E|E];
            [ exfalso; first [ apply Hnot2; rewrite E; simpl; tauto
                             | apply Hnot3; rewrite E; simpl; tauto ] | ]
        end;
        cbn [bind]; unfold oneChar, newToken; rewrite Hc1; reflexivity. }
    rewrite Hsw. cbn [bind]. now rewrite readChar_wf.
  - rewrite sub_S by lia. rewrite sub_0, <- (wf_ch l Hwf). congruence.
Qed.

(** ** The [default] case: identifiers, numbers, illegal bytes *)

(** Resolves the comparisons of the [switch] when the current byte is none
    of the bytes it names. *)
Ltac skip_cases l tac :=
  repeat match goal with
  | |- context [(ch l =? ?x)%char] =>
      let E := fresh "E" in
      destruct (Ascii.eqb_spec (ch l) x) as [E|E]; [ exfalso; tac E | ]
  end.

Lemma isLetter_isSpace c : isLetter c = true -> isSpace c = false.
Proof.
  intros H. unfold isSpace.
  destruct (Ascii.eqb_spec c SP) as [->|]; [discriminate|].
  destruct (Ascii.eqb_spec c TAB) as [->|]; [discriminate|].
  destruct (Ascii.eqb_spec c CR) as [->|]; [discriminate|].
  reflexivity.
Qed.

(** The [default] case is reached by a letter, and [readIdentifier] takes
    the longest run of letters. *)
Lemma NextToken_identifier fuel l (n : nat) :
  wf l -> room l -> (0 < n)%nat -> (n + 1 < fuel)%nat ->
  (forall i, position l <= i < position l + Z.of_nat n ->
             isLetter (byte_at (input l) i) = true) ->
  isLetter (byte_at (input l) (position l + Z.of_nat n)) = false ->
  NextToken fuel l
  = Ret (mkToken (lookupIdent (sub (input l) (position l) n))
                 (sub (input l) (position l) n)
                 (line l) (wrap (tokenPosition l + Z.of_nat n)),
         moved l (position l + Z.of_nat n) (wrap (tokenPosition l + Z.of_nat n))).
Proof.
  intros Hwf [Hr Hl] Hn Hfuel Hrun Hstop.
  pose proof (wf_pos l Hwf) as Hp.
  assert (Hlet : isLetter (ch l) = true).
  { rewrite (wf_ch l Hwf). apply Hrun. lia. }
  assert (Hend : position l + Z.of_nat n <= len (input l)).
  { assert (0 <= position l + Z.of_nat n - 1 < len (input l)); [|lia].
    apply byte_at_not_NUL. intros E.
    pose proof (Hrun (position l + Z.of_nat n - 1) ltac:(lia)) as Hx.
    rewrite E in Hx. discriminate. }
  destruct fuel as [|fuel]; [lia|].
  rewrite NextToken_unfold by now apply isLetter_isSpace.
  destruct fuel as [|fuel]; [lia|].
  rewrite NextToken_for_S. unfold NextToken_switch.
  skip_cases l ltac:(fun E => rewrite E in Hlet; discriminate).
  rewrite Hlet. unfold readIdentifier.
  rewrite (for_readChar_scan isLetter n) by (try assumption; lia).
  cbn [bind moved position input]. rewrite slice_sub by lia.
  reflexivity.
Qed.

(** A byte with no case of its own that is neither a letter nor a digit
    gives an [ILLEGAL] token, and the scan goes on with the next byte. *)
Lemma NextToken_illegal fuel l :
  wf l -> room l -> (1 <= fuel)%nat ->
  ~ In (ch l) recognized -> isLetter (ch l) = false -> isDigit (ch l) = false ->
  NextToken fuel l
  = Ret (mkToken ILLEGAL (string_of_byte (ch l)) (line l) (position l),
         moved l (position l + 1) (wrap (tokenPosition l + 1))).
Proof.
  intros Hwf [Hr Hl] Hfuel Hnot Hlet Hdig.
  assert (Hsp : isSpace (ch l) = false).
  { unfold isSpace.
    skip_cases l ltac:(fun E => apply Hnot; rewrite E; simpl; tauto).
    reflexivity. }
  destruct fuel as [|fuel]; [lia|].
  rewrite NextToken_unfold by assumption.
  rewrite NextToken_for_S. unfold NextToken_switch.
  skip_cases l ltac:(fun E => apply Hnot; rewrite E; simpl; tauto).
  rewrite Hlet, Hdig. unfold oneChar, newToken. cbn [bind].
  now rewrite readChar_wf.
Qed.

(** ** Strings and comments on a well-formed cursor *)

(** The loop of [readString] is [for_readChar] on [inString], followed by
    the test of the byte it stopped on. *)
Lemma readString_for_eq p0 :
  forall fuel l,
    readString_for fuel p0 l
    = (l' <- for_readChar fuel inString l ;;
       s <- slice (input l') (wrap (p0 + 1)) (position l') ;;
       Ret (s, if (ch l' =? DQUOTE)%char then None else Some "non-terminated string", l')).
Proof.
  induction fuel as [|fuel IH]; intros l; [reflexivity|].
  simpl. unfold inString at 1.
  destruct (Ascii.eqb_spec (ch l) DQUOTE) as [E|E]; simpl negb; cbn [andb].
  - cbn [bind]. apply Ascii.eqb_eq in E. now rewrite E.
  - destruct (Ascii.eqb_spec (ch l) LF) as [E2|E2]; simpl negb; cbn [andb bind].
    + apply Ascii.eqb_neq in E. now rewrite E.
    + destruct (readChar l) as [l1| |]; cbn [bind]; [apply IH|reflexivity|reflexivity].
Qed.

Lemma set_line_self l : set_line l (line l) = l.
Proof. now destruct l. Qed.

(** [readBlockComment]'s loop stops on the first [*/], having counted the
    line-feeds before it. *)
Lemma readBlockComment_for_scan :
  forall (n : nat) l fuel,
    wf l ->
    (forall i, position l <= i < position l + Z.of_nat n ->
               ~ (byte_at (input l) i = "*"%char /\ byte_at (input l) (i + 1) = "/"%char)) ->
    byte_at (input l) (position l + Z.of_nat n) = "*"%char ->
    byte_at (input l) (position l + Z.of_nat n + 1) = "/"%char ->
    position l + Z.of_nat n < int_max ->
    (n < fuel)%nat ->
    readBlockComment_for fuel l
    = Ret (set_line (moved l (position l + Z.of_nat n) (wrap (tokenPosition l + Z.of_nat n)))
                    (wrap (line l + count_LF (input l) (position l) n))).
Proof.
  induction n as [|n IH]; intros l fuel Hwf Hrun Hs1 Hs2 Hmax Hfuel;
    (destruct fuel as [|fuel]; [lia|]); cbn [readBlockComment_for];
    rewrite (peekChar_wf l Hwf), (wf_ch l Hwf).
  - simpl Z.of_nat in *. rewrite Z.add_0_r in *. rewrite Hs1, Hs2. cbn. rewrite !Z.add_0_r.
    rewrite !wrap_small by first [apply (wf_tp l Hwf)|apply (wf_line l Hwf)].
    rewrite moved_self by assumption. now rewrite set_line_self.
  - pose proof (wf_pos l Hwf) as Hp.
    assert (Hstop : (if (byte_at (input l) (position l) =? "*")%char
                     then p <- Ret (byte_at (input l) (position l + 1)) ;;
                          Ret (p =? "/")%char
                     else Ret false) = Ret false).
    { destruct (Ascii.eqb_spec (byte_at (input l) (position l)) "*") as [E1|E1];
        [|reflexivity].
      cbn [bind]. f_equal.
      destruct (Ascii.eqb_spec (byte_at (input l) (position l + 1)) "/") as [E2|E2];
        [|reflexivity].
      exfalso. apply (Hrun (position l)); [lia|]. now split. }
    rewrite Hstop. cbn [bind].
    set (b := (byte_at (input l) (position l) =? LF)%char).
    set (l1 := if b then set_line l (wrap (line l + 1)) else l).
    assert (Hl1 : wf l1 /\ l1 = set_line l (if b then wrap (line l + 1) else line l)).
    { subst l1. destruct b; [split; [now apply set_line_wf|reflexivity]|].
      now rewrite set_line_self. }
    destruct Hl1 as (Hwf1 & El1).
    assert (Hproj : input l1 = input l /\ position l1 = position l
                    /\ tokenPosition l1 = tokenPosition l /\ errors l1 = errors l
                    /\ readPosition l1 = readPosition l
                    /\ line l1 = if b then wrap (line l + 1) else line l).
    { rewrite El1. now cbn. }
    destruct Hproj as (Hi1 & Hp1 & Ht1 & He1 & Hr1 & Hln1).
    rewrite readChar_wf; [|assumption|rewrite Hr1, (wf_read l Hwf); lia].
    cbn [bind].
    rewrite (IH _ fuel); cbn [moved position input tokenPosition line errors];
      rewrite ?Hi1, ?Hp1, ?Ht1, ?He1, ?Hln1.
    + unfold set_line, moved. cbn [input position readPosition ch tokenPosition errors line].
      rewrite ?Hi1, ?He1, wrap_wrap_add.
      replace (position l + 1 + Z.of_nat n) with (position l + Z.of_nat (S n)) by lia.
      replace (tokenPosition l + 1 + Z.of_nat n)
        with (tokenPosition l + Z.of_nat (S n)) by lia.
      do 2 f_equal. cbn [count_LF]. fold b.
      destruct b; [rewrite wrap_wrap_add|]; f_equal; lia.
    + apply moved_wf; [assumption|lia|apply wrap_range].
    + intros i Hi. apply Hrun. lia.
    + rewrite <- Hs1. f_equal. lia.
    + rewrite <- Hs2. f_equal. lia.
    + lia.
    + lia.
Qed.

Lemma addError_wf l msg : wf l -> wf (addError l msg).
Proof. intros []; constructor; assumption. Qed.

(** A string cut short by a line-feed: the token holds the bytes between
    the quote and the line-feed, one error is logged, and the [readChar]
    that ends [NextToken] consumes the line-feed; [line] is not changed. *)
Lemma NextToken_unterminated_string fuel l (n : nat) :
  wf l -> room l -> (n + 2 < fuel)%nat ->
  ch l = DQUOTE ->
  (forall i, position l + 1 <= i < position l + 1 + Z.of_nat n ->
             inString (byte_at (input l) i) = true) ->
  byte_at (input l) (position l + 1 + Z.of_nat n) = LF ->
  NextToken fuel l
  = Ret (mkToken STRING (sub (input l) (position l + 1) n)
                 (line l) (wrap (tokenPosition l + 1 + Z.of_nat n)),
         set_errors
           (moved l (position l + Z.of_nat n + 2) (wrap (tokenPosition l + Z.of_nat n + 2)))
           (errors l ++ [(("[" ++ itoa (line l) ++ ":"
                           ++ itoa (wrap (tokenPosition l + 1 + Z.of_nat n)) ++ "] ")
                          ++ "non-terminated string")%string])%list).
Proof.
  intros Hwf [Hr Hl] Hfuel Hch Hrun Hstop.
  pose proof (wf_pos l Hwf) as Hp. pose proof (wf_read l Hwf) as Hrd.
  assert (Hin : 0 <= position l + 1 + Z.of_nat n < len (input l)).
  { apply byte_at_not_NUL. rewrite Hstop. discriminate. }
  destruct fuel as [|fuel]; [lia|].
  rewrite NextToken_unfold by now rewrite Hch.
  destruct fuel as [|fuel]; [lia|].
  rewrite NextToken_for_S. switch_on Hch. unfold readString.
  rewrite readChar_wf by assumption. cbn [bind].
  rewrite readString_for_eq.
  assert (Hwf1 : wf (moved l (position l + 1) (wrap (tokenPosition l + 1)))).
  { apply moved_wf; [assumption|lia|apply wrap_range]. }
  rewrite (for_readChar_scan inString n); cbn [moved position input tokenPosition];
    try assumption; try lia; [|now rewrite Hstop].
  cbn [bind]. rewrite (wrap_small (position l + 1)) by (unfold int_min, int_max in *; lia).
  cbn [moved input position]. rewrite slice_sub by lia.
  cbn [bind ch moved input]. rewrite Hstop. cbn [Ascii.eqb Bool.eqb LF DQUOTE].
  rewrite wrap_wrap_add.
  rewrite readChar_wf.
  - cbn [bind]. unfold addError, moved, set_errors.
    cbn [input position readPosition ch line tokenPosition errors].
    rewrite wrap_wrap_add.
    replace (position l + 1 + Z.of_nat n + 1) with (position l + Z.of_nat n + 2) by lia.
    replace (tokenPosition l + 1 + Z.of_nat n + 1)
      with (tokenPosition l + Z.of_nat n + 2) by lia.
    reflexivity.
  - apply addError_wf. apply moved_wf; [assumption|lia|apply wrap_range].
  - unfold addError, set_errors, moved. cbn [readPosition]. lia.
Qed.

(** A line comment runs to the first carriage return or line-feed, which
    the [readChar] that ends [NextToken] consumes; [line] is not changed. *)
Lemma NextToken_line_comment fuel l (n : nat) :
  wf l -> room l -> (n + 1 < fuel)%nat ->
  ch l = "/"%char -> byte_at (input l) (position l + 1) = "/"%char ->
  (forall i, position l <= i < position l + Z.of_nat n ->
             inLineComment (byte_at (input l) i) = true) ->
  inLineComment (byte_at (input l) (position l + Z.of_nat n)) = false ->
  NextToken fuel l
  = Ret (mkToken COMMENT (sub (input l) (position l) n)
                 (line l) (wrap (tokenPosition l + Z.of_nat n)),
         moved l (position l + Z.of_nat n + 1) (wrap (tokenPosition l + Z.of_nat n + 1))).
Proof.
  intros Hwf [Hr Hl] Hfuel Hch Hnext Hrun Hstop.
  pose proof (wf_pos l Hwf) as Hp.
  assert (Hin : 0 <= position l + Z.of_nat n < len (input l)).
  { apply byte_at_not_NUL. intros E. rewrite E in Hstop. discriminate. }
  destruct fuel as [|fuel]; [lia|].
  rewrite NextToken_unfold by now rewrite Hch.
  destruct fuel as [|fuel]; [lia|].
  rewrite NextToken_for_S. switch_on Hch.
  rewrite (peekChar_wf l Hwf), Hnext. cbn [bind Ascii.eqb Bool.eqb].
  unfold readLineComment.
  rewrite (for_readChar_scan inLineComment n) by (try assumption; lia).
  cbn [bind moved position input]. rewrite slice_sub by lia. cbn [bind].
  rewrite readChar_wf.
  - cbn. rewrite wrap_wrap_add. reflexivity.
  - apply moved_wf; [assumption|lia|apply wrap_range].
  - cbn [moved set_line readPosition position]. lia.
Qed.

(** A block comment runs to the first [*/]; the two [readChar] of
    [readBlockComment] step over the delimiter, and the [readChar] that
    ends [NextToken] consumes the byte after it, whatever it is. *)
Lemma NextToken_block_comment fuel l (n : nat) :
  wf l -> room l -> (n + 1 < fuel)%nat ->
  ch l = "/"%char -> byte_at (input l) (position l + 1) = "*"%char ->
  (forall i, position l <= i < position l + Z.of_nat n ->
             ~ (byte_at (input l) i = "*"%char /\ byte_at (input l) (i + 1) = "/"%char)) ->
  byte_at (input l) (position l + Z.of_nat n) = "*"%char ->
  byte_at (input l) (position l + Z.of_nat n + 1) = "/"%char ->
  NextToken fuel l
  = Ret (mkToken COMMENT (sub (input l) (position l) (n + 2))
                 (wrap (line l + count_LF (input l) (position l) n))
                 (wrap (tokenPosition l + Z.of_nat n + 2)),
         set_line
           (moved l (position l + Z.of_nat n + 3) (wrap (tokenPosition l + Z.of_nat n + 3)))
           (wrap (line l + count_LF (input l) (position l) n))).
Proof.
  intros Hwf [Hr Hl] Hfuel Hch Hnext Hrun Hs1 Hs2.
  pose proof (wf_pos l Hwf) as Hp.
  assert (Hin : 0 <= position l + Z.of_nat n + 1 < len (input l)).
  { apply byte_at_not_NUL. rewrite Hs2. discriminate. }
  destruct fuel as [|fuel]; [lia|].
  rewrite NextToken_unfold by now rewrite Hch.
  destruct fuel as [|fuel]; [lia|].
  rewrite NextToken_for_S. switch_on Hch.
  rewrite (peekChar_wf l Hwf), Hnext. cbn [bind Ascii.eqb Bool.eqb].
  unfold readBlockComment.
  rewrite (readBlockComment_for_scan n) by (try assumption; lia).
  cbn [bind].
  set (ln := wrap (line l + count_LF (input l) (position l) n)).
  assert (Hwfm : forall q tq, 0 <= q < int_max -> wf (set_line (moved l q (wrap tq)) ln)).
  { intros q tq Hq. apply set_line_wf. apply moved_wf; [assumption|lia|apply wrap_range]. }
  rewrite readChar_wf; [|apply Hwfm; lia|cbn [moved set_line readPosition position]; lia].
  cbn [bind]. rewrite readChar_wf.
  - cbn [bind]. cbn [moved set_line position input tokenPosition line errors].
    replace (position l + Z.of_nat n + 1 + 1) with (position l + Z.of_nat (n + 2)) by lia.
    rewrite slice_sub by lia. cbn [bind].
    rewrite !wrap_wrap_add. rewrite readChar_wf.
    + cbn. rewrite wrap_wrap_add. unfold set_line, moved. cbn.
      replace (position l + Z.of_nat (n + 2) + 1) with (position l + Z.of_nat n + 3) by lia.
      replace (tokenPosition l + Z.of_nat n + 1 + 1) with (tokenPosition l + Z.of_nat n + 2) by lia.
      replace (tokenPosition l + Z.of_nat n + 2 + 1) with (tokenPosition l + Z.of_nat n + 3) by lia.
      reflexivity.
    + constructor; cbn [moved set_line position readPosition ch input line tokenPosition];
      try lia; try reflexivity; try apply wrap_range.
    + cbn [moved set_line readPosition position]. lia.
  - cbn [moved set_line position input tokenPosition line errors].
    constructor; cbn [moved set_line position readPosition ch input line tokenPosition];
      try lia; try reflexivity; try apply wrap_range.
  - cbn [moved set_line readPosition position]. lia.
Qed.

(** ** Concrete cursors *)

Lemma cursor_wf s p ln tp es :
  0 <= p < int_max -> int_min <= ln <= int_max -> int_min <= tp <= int_max ->
  wf (cursor s p ln tp es).
Proof.
  intros Hp Hln Htp.
  constructor; cbn [cursor position readPosition ch input line tokenPosition];
    try lia. reflexivity.
Qed.

Lemma cursor_room s p ln tp es :
  p + 1 < int_max -> len s + 2 < int_max -> room (cursor s p ln tp es).
Proof. intros Hp Hl. split; cbn [cursor readPosition input]; assumption. Qed.

Lemma NewLexer_cursor s : len s < int_max -> NewLexer s = Ret (cursor s 0 1 1 []).
Proof. intros H. apply (NewLexer_wf s H). Qed.

Ltac small := unfold int_min, int_max; vm_compute len; lia.

Ltac concrete_cursor :=
  first [ apply cursor_wf; small | apply cursor_room; small ].

(** ** Unterminated strings (C2) *)

(** C2 (refuted on the code). When a line-feed comes before the closing
    quote, [NextToken] returns a [STRING] token holding the bytes between
    the quote and the line-feed and logs one error with the line and the
    column counter reached at the line-feed, as claimed; but the line-feed
    is not left for the next call: the cursor ends one byte past it, and
    [line] is what it was. *)
Theorem unterminated_string_consumes_line_feed fuel l (n : nat) :
  wf l -> room l -> (n + 2 < fuel)%nat ->
  ch l = DQUOTE ->
  (forall i, position l + 1 <= i < position l + 1 + Z.of_nat n ->
             inString (byte_at (input l) i) = true) ->
  byte_at (input l) (position l + 1 + Z.of_nat n) = LF ->
  exists tok l',
    NextToken fuel l = Ret (tok, l')
    /\ tok = mkToken STRING (sub (input l) (position l + 1) n)
                     (line l) (wrap (tokenPosition l + 1 + Z.of_nat n))
    /\ errors l'
       = (errors l ++ [(("[" ++ itoa (line l) ++ ":"
                         ++ itoa (wrap (tokenPosition l + 1 + Z.of_nat n)) ++ "] ")
                        ++ "non-terminated string")%string])%list
    /\ position l' = position l + 1 + Z.of_nat n + 1
    /\ ch l' = byte_at (input l) (position l + 1 + Z.of_nat n + 1)
    /\ line l' = line l.
Proof.
  intros Hwf Hroom Hfuel Hch Hrun Hstop.
  eexists. eexists. split.
  - now apply (NextToken_unterminated_string fuel l n).
  - cbn. repeat split; try reflexivity; try lia. f_equal. lia.
Qed.

(** On [text_unterminated] (an opening quote, [a final test], a line-feed,
    then [test] between quotes): the first call consumes the line-feed at
    offset 13 and stops on the quote at offset 14, still on line 1. *)
Lemma unterminated_string_witness :
  exists tok l',
    NextToken 15 (cursor text_unterminated 0 1 1 []) = Ret (tok, l')
    /\ tok = mkToken STRING "a final test" 1 14
    /\ errors l' = ["[1:14] non-terminated string"]
    /\ position l' = 14
    /\ ch l' = DQUOTE
    /\ line l' = 1.
Proof.
  apply (unterminated_string_consumes_line_feed 15 (cursor text_unterminated 0 1 1 []) 12).
  - concrete_cursor.
  - concrete_cursor.
  - lia.
  - reflexivity.
  - intros i Hi. cbn [position cursor input] in *.
    assert (Hc : i = 1 \/ i = 2 \/ i = 3 \/ i = 4 \/ i = 5 \/ i = 6 \/ i = 7
                 \/ i = 8 \/ i = 9 \/ i = 10 \/ i = 11 \/ i = 12) by lia.
    repeat (destruct Hc as [->|Hc]; [reflexivity|]). subst i. reflexivity.
  - reflexivity.
Defined.

(** The whole scan of that text: the second string, on line 2 of the
    text, is labelled line 1. *)
Example scan_text_unterminated :
  runs_to (fun fuel => scan fuel text_unterminated)
    ([mkToken STRING "a final test" 1 14; mkToken STRING "test" 1 20; mkToken EOF "" 0 0],
     mkLexer text_unterminated 21 22 NUL 1 22 ["[1:14] non-terminated string"]).
Proof. apply scan_runs_to with 30%nat. vm_compute. reflexivity. Qed.

(** ** Columns of tokens (C3) *)

(** C3 (refuted on the code). The [Position] of a one-byte operator or
    punctuation token is [l.position], the offset of the byte from the
    start of the whole text, and not the column counter [tokenPosition]
    that the multi-byte tokens carry. *)
Theorem one_byte_token_Position_is_offset fuel l :
  wf l -> room l -> (1 <= fuel)%nat ->
  In (ch l) oneCharOps ->
  ~ In (ch l, byte_at (input l) (position l + 1)) twoCharOps ->
  ~ In (ch l, byte_at (input l) (position l + 1)) commentOpeners ->
  exists tok l',
    NextToken fuel l = Ret (tok, l')
    /\ Literal tok = String (ch l) ""
    /\ Line tok = line l
    /\ Position tok = position l.
Proof.
  intros Hwf Hroom Hfuel Hin Hn2 Hn3.
  destruct (NextToken_oneChar fuel l _ _ Hwf Hroom Hfuel eq_refl eq_refl Hin Hn2 Hn3)
    as [H _].
  eexists. eexists. split; [exact H|]. cbn. repeat split.
Qed.

(** On [x = 1;], line-feed, [y = 2;]: the [=] of the second line, third
    byte of its line, gets [Position] 9. *)
Lemma one_byte_token_witness :
  exists tok l',
    NextToken 1 (cursor text_assignments 9 2 2 []) = Ret (tok, l')
    /\ Literal tok = "="
    /\ Line tok = 2
    /\ Position tok = 9.
Proof.
  apply (one_byte_token_Position_is_offset 1 (cursor text_assignments 9 2 2 [])).
  - concrete_cursor.
  - concrete_cursor.
  - lia.
  - cbn. tauto.
  - cbn. intros H. repeat (destruct H as [H|H]; [discriminate H|]). exact H.
  - cbn. intros H. repeat (destruct H as [H|H]; [discriminate H|]). exact H.
Defined.

Example scan_text_assignments :
  runs_to (fun fuel => scan fuel text_assignments)
    ([mkToken IDENT "x" 1 2; mkToken ASSIGN "=" 1 2; mkToken INT "1" 1 6;
      mkToken SEMICOLON ";" 1 5;
      mkToken IDENT "y" 2 1; mkToken ASSIGN "=" 2 9; mkToken INT "2" 2 5;
      mkToken SEMICOLON ";" 2 12;
      mkToken EOF "" 0 0],
     mkLexer text_assignments 14 15 NUL 2 7 []).
Proof. apply scan_runs_to with 30%nat. vm_compute. reflexivity. Qed.

(** ** Counting lines (C4) *)

(** C4 (refuted on the code). Not every line-feed consumed increments
    [line]: the line-feed that ends a line comment is consumed by the
    [readChar] that ends [NextToken], and [line] stays what it was. (The
    same happens to the line-feed that cuts a string short, above, and to
    a line-feed right after a block comment, below.) *)
Theorem line_comment_line_feed_not_counted fuel l (n : nat) :
  wf l -> room l -> (n + 1 < fuel)%nat ->
  ch l = "/"%char -> byte_at (input l) (position l + 1) = "/"%char ->
  (forall i, position l <= i < position l + Z.of_nat n ->
             inLineComment (byte_at (input l) i) = true) ->
  byte_at (input l) (position l + Z.of_nat n) = LF ->
  exists tok l',
    NextToken fuel l = Ret (tok, l')
    /\ Type_ tok = COMMENT
    /\ Literal tok = sub (input l) (position l) n
    /\ position l' = position l + Z.of_nat n + 1
    /\ line l' = line l.
Proof.
  intros Hwf Hroom Hfuel Hch Hnext Hrun Hstop.
  eexists. eexists. split.
  - apply (NextToken_line_comment fuel l n); try assumption. now rewrite Hstop.
  - cbn. repeat split.
Qed.

(** On [// c], line-feed, [x]: after the comment the cursor is on [x], at
    offset 5 past the line-feed, and [line] is still 1. *)
Lemma line_comment_witness :
  exists tok l',
    NextToken 6 (cursor text_line_comment 0 1 1 []) = Ret (tok, l')
    /\ Type_ tok = COMMENT
    /\ Literal tok = "// c"
    /\ position l' = 5
    /\ line l' = 1.
Proof.
  apply (line_comment_line_feed_not_counted 6 (cursor text_line_comment 0 1 1 []) 4).
  - concrete_cursor.
  - concrete_cursor.
  - lia.
  - reflexivity.
  - reflexivity.
  - intros i Hi. cbn [position cursor input] in *.
    assert (Hc : i = 0 \/ i = 1 \/ i = 2 \/ i = 3) by lia.
    repeat (destruct Hc as [->|Hc]; [reflexivity|]). subst i. reflexivity.
  - reflexivity.
Defined.

(** The whole scan: [x], on line 2 of the text, is labelled line 1, and
    the scan ends with [line] 1 after consuming one line-feed. *)
Example scan_text_line_comment :
  runs_to (fun fuel => scan fuel text_line_comment)
    ([mkToken COMMENT "// c" 1 5; mkToken IDENT "x" 1 7; mkToken EOF "" 0 0],
     mkLexer text_line_comment 7 8 NUL 1 8 []).
Proof. apply scan_runs_to with 30%nat. vm_compute. reflexivity. Qed.

(** A line-feed met by the [switch] itself, and one inside a block
    comment, are counted. *)
Example scan_counts_other_line_feeds :
  runs_to (fun fuel => scan fuel ("a" ++ newline ++ "/* b" ++ newline ++ "*/ c"))
    ([mkToken IDENT "a" 1 2; mkToken COMMENT ("/* b" ++ newline ++ "*/") 3 7;
      mkToken IDENT "c" 3 9; mkToken EOF "" 0 0],
     mkLexer ("a" ++ newline ++ "/* b" ++ newline ++ "*/ c") 12 13 NUL 3 10 []).
Proof. apply scan_runs_to with 30%nat. vm_compute. reflexivity. Qed.

(** ** End of input (C5) *)

(** C5 (refuted on the code). Once the text is exhausted every call of
    [NextToken] returns an [EOF] token with an empty lexeme, and leaves the
    cursor exhausted for the next call, as claimed; but the [Line] and
    [Position] of that token are the zero values of the fields, whatever
    line and column the scanner has reached. *)
Theorem EOF_token_has_zero_line_and_position fuel l :
  wf l -> len (input l) <= position l -> readPosition l < int_max ->
  (1 <= fuel)%nat ->
  exists l',
    NextToken fuel l = Ret (mkToken EOF "" 0 0, l')
    /\ wf l' /\ input l' = input l /\ len (input l') <= position l'
    /\ line l' = line l.
Proof.
  intros Hwf Hend Hr Hfuel.
  eexists. split.
  - apply NextToken_EOF; try assumption. now apply wf_exhausted.
  - pose proof (wf_pos l Hwf). pose proof (wf_read l Hwf).
    split; [apply moved_wf; [assumption|lia|apply wrap_range]|].
    cbn. repeat split; lia.
Qed.

(** On two line-feeds and [x], with the cursor at the end of the text,
    on line 3: the token says line 0. *)
Lemma EOF_token_witness :
  exists l',
    NextToken 1 (cursor text_blank_lines 3 3 1 []) = Ret (mkToken EOF "" 0 0, l')
    /\ wf l' /\ input l' = text_blank_lines /\ len (input l') <= position l'
    /\ line l' = 3.
Proof.
  apply (EOF_token_has_zero_line_and_position 1 (cursor text_blank_lines 3 3 1 [])).
  - concrete_cursor.
  - cbn [cursor position input]. small.
  - cbn [cursor readPosition]. small.
  - lia.
Defined.

Example scan_text_blank_lines :
  runs_to (fun fuel => scan fuel text_blank_lines)
    ([mkToken IDENT "x" 3 1; mkToken EOF "" 0 0],
     mkLexer text_blank_lines 4 5 NUL 3 2 []).
Proof. apply scan_runs_to with 30%nat. vm_compute. reflexivity. Qed.

(** The empty text gives exactly one token, [EOF]. *)
Example scan_empty :
  runs_to (fun fuel => scan fuel "")
    ([mkToken EOF "" 0 0], mkLexer "" 1 2 NUL 1 2 []).
Proof. apply scan_runs_to with 3%nat. vm_compute. reflexivity. Qed.

(** ** The cursor invariant (C6) *)

(** C6 as stated fails: [position] does not stay equal to the length of the
    text once the text is exhausted. On the empty text the fresh cursor has
    [position] 0, the length, and the sentinel as current byte; the call
    of [NextToken] that returns [EOF] moves [position] to 1. *)
Lemma position_passes_length_after_EOF :
  exists l tok l',
    NewLexer "" = Ret l
    /\ position l = len (input l) /\ ch l = NUL /\ readPosition l = position l + 1
    /\ NextToken 1 l = Ret (tok, l')
    /\ Type_ tok = EOF
    /\ position l' = 1 /\ len (input l') = 0 /\ position l' <> len (input l').
Proof.
  eexists. eexists. eexists.
  split; [reflexivity|]. split; [reflexivity|]. split; [reflexivity|].
  split; [reflexivity|]. split; [reflexivity|]. split; [reflexivity|].
  split; [reflexivity|]. split; [reflexivity|]. cbn. discriminate.
Qed.

(** C6, amended. After every call of [NextToken] from a well-formed cursor
    [readPosition] is [position + 1] and [ch] is the byte under [position]
    (the sentinel past the end of the text); [position] has moved forward;
    and once the text is exhausted ([position] at least its length) the
    call returns [EOF] and moves [position] one further, so that
    [position] stays at least the length, with the sentinel as current
    byte. *)
Theorem cursor_invariant_preserved fuel l tok l' :
  wf l -> room l ->
  NextToken fuel l = Ret (tok, l') ->
  readPosition l' = position l' + 1
  /\ ch l' = byte_at (input l') (position l')
  /\ input l' = input l
  /\ position l < position l'
  /\ (len (input l) <= position l ->
      Type_ tok = EOF /\ position l' = position l + 1
      /\ len (input l') <= position l' /\ ch l' = NUL).
Proof.
  intros Hwf Hroom H.
  destruct (NextToken_post fuel l tok l' Hwf Hroom H) as (Hwf' & Hi & Hp).
  split; [apply (wf_read l' Hwf')|]. split; [apply (wf_ch l' Hwf')|].
  split; [assumption|]. split; [assumption|].
  intros Hend. destruct fuel as [|fuel]; [discriminate|].
  rewrite NextToken_EOF in H;
    [|assumption|now apply wf_exhausted|apply Hroom|lia].
  inversion H; subst. cbn. repeat split; try lia.
  apply byte_at_end. lia.
Qed.

(** On the text [ab] with the cursor at its end. *)
Lemma cursor_invariant_witness :
  readPosition (cursor "ab" 3 1 4 []) = position (cursor "ab" 3 1 4 []) + 1
  /\ ch (cursor "ab" 3 1 4 []) = byte_at "ab" 3
  /\ input (cursor "ab" 3 1 4 []) = "ab"
  /\ 2 < position (cursor "ab" 3 1 4 [])
  /\ (len "ab" <= 2 ->
      Type_ (mkToken EOF "" 0 0) = EOF /\ position (cursor "ab" 3 1 4 []) = 2 + 1
      /\ len "ab" <= position (cursor "ab" 3 1 4 []) /\ ch (cursor "ab" 3 1 4 []) = NUL).
Proof.
  apply (cursor_invariant_preserved 1 (cursor "ab" 2 1 3 []) (mkToken EOF "" 0 0)
           (cursor "ab" 3 1 4 [])).
  - concrete_cursor.
  - concrete_cursor.
  - reflexivity.
Defined.

(** ** Bytes that start identifiers, bytes that are illegal (C7) *)

(** Among ASCII bytes the letters of [isLetter] are the alphabetic bytes
    and the underscore. *)
Lemma isLetter_ascii c :
  (N_of_ascii c < 128)%N ->
  (isLetter c = true <-> isAsciiAlpha c = true \/ c = "_"%char).
Proof.
  intros Hc. unfold isLetter, isAsciiAlpha, unicode_IsLetter.
  destruct (Ascii.eqb_spec c "_") as [E|E].
  - rewrite orb_true_r. split; [now right|reflexivity].
  - rewrite orb_false_r. split.
    + intros H. left.
      repeat match type of H with
      | (_ || _)%bool = true => apply orb_true_iff in H; destruct H as [H|H]
      end;
      repeat match goal with
      | H : (_ && _)%bool = true |- _ => apply andb_true_iff in H; destruct H
      | H : (_ <=? _)%N = true |- _ => apply N.leb_le in H
      | H : (_ =? _)%N = true |- _ => apply N.eqb_eq in H
      end;
      try lia;
      apply orb_true_iff; [left|right]; apply andb_true_iff; split;
        apply N.leb_le; lia.
    + intros [H|H]; [|contradiction].
      apply orb_true_iff in H.
      destruct H as [H|H]; rewrite H; rewrite ?orb_true_r; reflexivity.
Qed.

(** A digit is not a letter: digits do not extend identifiers. *)
Lemma isDigit_not_isLetter c : isDigit c = true -> isLetter c = false.
Proof.
  unfold isDigit. intros H. apply andb_true_iff in H. destruct H as [H1 H2].
  apply N.leb_le in H1, H2. change (N_of_ascii "0") with 48%N in H1.
  change (N_of_ascii "9") with 57%N in H2.
  unfold isLetter, unicode_IsLetter.
  destruct (Ascii.eqb_spec c "_") as [E|E].
  - subst c. vm_compute in H2. exfalso. now apply H2.
  - rewrite orb_false_r.
    repeat (apply orb_false_iff; split);
      first [ apply andb_false_iff; (left; apply N.leb_gt; lia) || (right; apply N.leb_gt; lia)
            | apply N.eqb_neq; lia ].
Qed.

(** ASCII bytes are their own lexeme. *)
Lemma string_of_byte_ascii c : (N_of_ascii c < 128)%N -> string_of_byte c = String c "".
Proof. intros H. unfold string_of_byte. apply N.ltb_lt in H. now rewrite H. Qed.

(** The [switch] returns directly only from its [default] case: from
    [readIdentifier] on a letter, from [readNumber] on a digit that is not
    a letter. *)
Lemma NextToken_switch_Return fuel l tok l1 :
  NextToken_switch fuel l = Ret (Return tok, l1) ->
  (isLetter (ch l) = true /\ Type_ tok = lookupIdent (Literal tok)
   /\ readIdentifier fuel l = Ret (Literal tok, l1))
  \/ (isLetter (ch l) = false /\ isDigit (ch l) = true /\ Type_ tok = INT).
Proof.
  intros H. unfold NextToken_switch, oneChar, twoChar in H.
  repeat match type of H with
  | (if (?a =? ?b)%char then _ else _) = _ => destruct (a =? b)%char
  | (if isLetter ?a then _ else _) = _ => destruct (isLetter a) eqn:Elet
  | (if isDigit ?a then _ else _) = _ => destruct (isDigit a) eqn:Edig
  | bind _ _ = _ => bind_inv H
  | (let (_, _) := ?x in _) = _ => destruct x
  end;
  try discriminate H.
  - left. inversion H; subst. cbn. now split.
  - right. inversion H; subst. now cbn.
Qed.

(** C7 as stated fails on bytes from 0x80 on. The byte 0xC8 (200), which
    is not an ASCII letter, is a letter for [unicode.IsLetter] and starts
    an identifier; the byte 0xD7 (215), in no recognized class, gives an
    [ILLEGAL] token whose lexeme is not that byte but the two bytes 0xC3
    0x97 of [string(ch)]. *)
Lemma non_ascii_bytes_counterexample :
  (isLetter "200" = true /\ isAsciiAlpha "200" = false /\ "200"%char <> "_"%char
   /\ runs_to (fun fuel => scan fuel (String "200" ""))
        ([mkToken IDENT (String "200" "") 1 2; mkToken EOF "" 0 0],
         mkLexer (String "200" "") 2 3 NUL 1 3 []))
  /\ (~ In "215"%char recognized /\ isLetter "215" = false /\ isDigit "215" = false
      /\ runs_to (fun fuel => scan fuel (String "215" ""))
           ([mkToken ILLEGAL (String "195" (String "151" "")) 1 0; mkToken EOF "" 0 0],
            mkLexer (String "215" "") 2 3 NUL 1 3 [])
      /\ String "195" (String "151" "") <> String "215" "").
Proof.
  split.
  - split; [reflexivity|]. split; [reflexivity|]. split; [discriminate|].
    apply scan_runs_to with 5%nat. vm_compute. reflexivity.
  - split.
    { cbn. intros H. repeat (destruct H as [H|H]; [discriminate H|]). exact H. }
    split; [reflexivity|]. split; [reflexivity|]. split; [|discriminate].
    apply scan_runs_to with 5%nat. vm_compute. reflexivity.
Qed.

(** C7, amended. A byte starts an identifier exactly when [isLetter] holds
    of it ([unicode.IsLetter] of the byte as a code point, or underscore):
    among ASCII bytes, the alphabetic bytes and the underscore. The
    identifier is the longest run of such bytes; a digit is not one. An
    ASCII byte that has no case in the [switch] and is neither letter nor
    digit gives an [ILLEGAL] token whose lexeme is that byte, and the scan
    goes on from the next byte. *)
Theorem identifier_and_illegal_bytes fuel l (n : nat) :
  wf l -> room l -> (n + 1 < fuel)%nat ->
  (forall c, (N_of_ascii c < 128)%N ->
             (isLetter c = true <-> isAsciiAlpha c = true \/ c = "_"%char))
  /\ (forall c, isDigit c = true -> isLetter c = false)
  /\ ((0 < n)%nat ->
      (forall i, position l <= i < position l + Z.of_nat n ->
                 isLetter (byte_at (input l) i) = true) ->
      isLetter (byte_at (input l) (position l + Z.of_nat n)) = false ->
      NextToken fuel l
      = Ret (mkToken (lookupIdent (sub (input l) (position l) n))
                     (sub (input l) (position l) n)
                     (line l) (wrap (tokenPosition l + Z.of_nat n)),
             moved l (position l + Z.of_nat n) (wrap (tokenPosition l + Z.of_nat n))))
  /\ (forall f tok l1,
        NextToken_switch f l = Ret (Return tok, l1) ->
        (isLetter (ch l) = true /\ Type_ tok = lookupIdent (Literal tok))
        \/ (isLetter (ch l) = false /\ isDigit (ch l) = true /\ Type_ tok = INT))
  /\ ((N_of_ascii (ch l) < 128)%N ->
      ~ In (ch l) recognized -> isLetter (ch l) = false -> isDigit (ch l) = false ->
      NextToken fuel l
      = Ret (mkToken ILLEGAL (String (ch l) "") (line l) (position l),
             moved l (position l + 1) (wrap (tokenPosition l + 1)))).
Proof.
  intros Hwf Hroom Hfuel.
  split; [exact isLetter_ascii|]. split; [exact isDigit_not_isLetter|].
  split; [|split].
  - intros Hn Hrun Hstop. now apply NextToken_identifier.
  - intros f tok l1 H. destruct (NextToken_switch_Return f l tok l1 H) as [H1|H1].
    + left. split; apply H1.
    + now right.
  - intros Hc Hnot Hlet Hdig.
    rewrite <- (string_of_byte_ascii (ch l) Hc).
    apply NextToken_illegal; try assumption. lia.
Qed.

(** On [ab1]: the identifier is [ab], and stops before the digit; on [@]:
    an [ILLEGAL] token holding [@]. *)
Lemma identifier_and_illegal_witness :
  NextToken 4 (cursor "ab1" 0 1 1 [])
  = Ret (mkToken IDENT "ab" 1 3, cursor "ab1" 2 1 3 [])
  /\ NextToken 4 (cursor "@" 0 1 1 [])
     = Ret (mkToken ILLEGAL "@" 1 0, cursor "@" 1 1 2 []).
Proof.
  split.
  - apply (identifier_and_illegal_bytes 4 (cursor "ab1" 0 1 1 []) 2).
    + concrete_cursor.
    + concrete_cursor.
    + lia.
    + lia.
    + intros i Hi. cbn [position cursor input] in *.
      assert (Hc : i = 0 \/ i = 1) by lia.
      destruct Hc as [->| ->]; reflexivity.
    + reflexivity.
  - apply (identifier_and_illegal_bytes 4 (cursor "@" 0 1 1 []) 0).
    + concrete_cursor.
    + concrete_cursor.
    + lia.
    + cbn. lia.
    + cbn. intros H. repeat (destruct H as [H|H]; [discriminate H|]). exact H.
    + reflexivity.
    + reflexivity.
Defined.

(** ** Operator and punctuation tokens (C8) *)

(** C8. When the current byte and the next form one of the two-byte
    operators, [NextToken] returns one token for both and consumes both;
    a one-byte operator or punctuation mark that starts no two-byte
    operator (and, for [/], no comment) gives its own token and one byte
    is consumed. In both cases the kind and the literal of the token are
    the bytes of the text the token was read from. The text
    [a!=i;+-*/%.] gives the eleven tokens of the scenario. *)
Theorem operator_literal_is_source_text fuel l :
  wf l -> room l -> (1 <= fuel)%nat ->
  let c1 := ch l in
  let c2 := byte_at (input l) (position l + 1) in
  (In (c1, c2) twoCharOps ->
   exists tok l',
     NextToken fuel l = Ret (tok, l')
     /\ Type_ tok = String c1 (String c2 "")
     /\ Literal tok = String c1 (String c2 "")
     /\ Literal tok = sub (input l) (position l) 2
     /\ position l' = position l + 2)
  /\ (In c1 oneCharOps -> ~ In (c1, c2) twoCharOps -> ~ In (c1, c2) commentOpeners ->
      exists tok l',
        NextToken fuel l = Ret (tok, l')
        /\ Type_ tok = String c1 ""
        /\ Literal tok = String c1 ""
        /\ Literal tok = sub (input l) (position l) 1
        /\ position l' = position l + 1)
  /\ runs_to (fun fuel => kinds (scan fuel "a!=i;+-*/%."))
       [(IDENT, "a"); (NEQ, "!="); (IDENT, "i"); (SEMICOLON, ";");
        (PLUS, "+"); (MINUS, "-"); (ASTERISK, "*"); (SLASH, "/");
        (PERCENT, "%"); (PERIOD, "."); (EOF, "")].
Proof.
  intros Hwf Hroom Hfuel c1 c2. split; [|split].
  - intros Hin.
    destruct (NextToken_twoChar fuel l c1 c2 Hwf Hroom Hfuel eq_refl eq_refl Hin)
      as [H Hsub].
    eexists. eexists. split; [exact H|]. cbn. now rewrite Hsub.
  - intros Hin Hn2 Hn3.
    destruct (NextToken_oneChar fuel l c1 c2 Hwf Hroom Hfuel eq_refl eq_refl Hin Hn2 Hn3)
      as [H Hsub].
    eexists. eexists. split; [exact H|]. cbn. now rewrite Hsub.
  - apply kinds_runs_to with 30%nat. vm_compute. reflexivity.
Qed.

(** On [<=x] the two bytes make one token; on [<x] the first byte alone. *)
Lemma operator_literal_witness :
  (exists tok l',
     NextToken 1 (cursor "<=x" 0 1 1 []) = Ret (tok, l')
     /\ Type_ tok = LE /\ Literal tok = "<="
     /\ Literal tok = sub "<=x" 0 2
     /\ position l' = 2)
  /\ (exists tok l',
        NextToken 1 (cursor "<x" 0 1 1 []) = Ret (tok, l')
        /\ Type_ tok = LT /\ Literal tok = "<"
        /\ Literal tok = sub "<x" 0 1
        /\ position l' = 1).
Proof.
  split.
  - apply (operator_literal_is_source_text 1 (cursor "<=x" 0 1 1 [])).
    + concrete_cursor.
    + concrete_cursor.
    + lia.
    + cbn. tauto.
  - apply (operator_literal_is_source_text 1 (cursor "<x" 0 1 1 [])).
    + concrete_cursor.
    + concrete_cursor.
    + lia.
    + cbn. tauto.
    + cbn. intros H. repeat (destruct H as [H|H]; [discriminate H|]). exact H.
    + cbn. intros H. repeat (destruct H as [H|H]; [discriminate H|]). exact H.
Defined.

(** ** Keywords and identifiers (C9) *)

Lemma lookupIdent_keyword s : In s keywords -> lookupIdent s = s.
Proof.
  intros H. cbn in H.
  repeat (destruct H as [H|H]; [subst s; reflexivity|]). contradiction.
Qed.

Lemma lookupIdent_other s : ~ In s keywords -> lookupIdent s = IDENT.
Proof.
  intros H. unfold lookupIdent.
  repeat match goal with
  | |- context [(s =? ?k)%string] =>
      destruct (String.eqb_spec s k) as [E|E];
      [ exfalso; apply H; rewrite E; cbn; tauto | clear E ]
  end.
  reflexivity.
Qed.

(** C9. [NextToken] on a letter reads the longest run of letters, then
    looks the whole run up: a keyword of the table gives the kind spelled
    like the keyword, any other text gives [IDENT], and the lexeme is the
    run. So [ifx] is one [IDENT] token. *)
Theorem identifier_lookup_after_whole_run fuel l (n : nat) :
  wf l -> room l -> (0 < n)%nat -> (n + 1 < fuel)%nat ->
  (forall i, position l <= i < position l + Z.of_nat n ->
             isLetter (byte_at (input l) i) = true) ->
  isLetter (byte_at (input l) (position l + Z.of_nat n)) = false ->
  let text := sub (input l) (position l) n in
  (exists tok l',
     NextToken fuel l = Ret (tok, l')
     /\ Literal tok = text
     /\ Type_ tok = lookupIdent text
     /\ position l' = position l + Z.of_nat n)
  /\ (In text keywords -> lookupIdent text = text)
  /\ (~ In text keywords -> lookupIdent text = IDENT)
  /\ keywords = [IF; ELSE; WHILE; RETURN; INT_TYPE; VOID_TYPE; FOR; PRINTF]
  /\ runs_to (fun fuel => scan fuel "ifx")
       ([mkToken IDENT "ifx" 1 4; mkToken EOF "" 0 0], mkLexer "ifx" 4 5 NUL 1 5 []).
Proof.
  intros Hwf Hroom Hn Hfuel Hrun Hstop text.
  split; [|split; [|split; [|split]]].
  - eexists. eexists. split.
    + now apply (NextToken_identifier fuel l n).
    + cbn. repeat split.
  - apply lookupIdent_keyword.
  - apply lookupIdent_other.
  - reflexivity.
  - apply scan_runs_to with 10%nat. vm_compute. reflexivity.
Qed.

(** On [if x] the run is [if], a keyword; on [ifx] the run is [ifx]. *)
Lemma identifier_lookup_witness :
  (exists tok l',
     NextToken 4 (cursor "if x" 0 1 1 []) = Ret (tok, l')
     /\ Literal tok = "if" /\ Type_ tok = IF /\ position l' = 2)
  /\ (exists tok l',
        NextToken 5 (cursor "ifx" 0 1 1 []) = Ret (tok, l')
        /\ Literal tok = "ifx" /\ Type_ tok = IDENT /\ position l' = 3).
Proof.
  split.
  - apply (identifier_lookup_after_whole_run 4 (cursor "if x" 0 1 1 []) 2).
    + concrete_cursor.
    + concrete_cursor.
    + lia.
    + lia.
    + intros i Hi. cbn [position cursor input] in *.
      assert (Hc : i = 0 \/ i = 1) by lia.
      destruct Hc as [->| ->]; reflexivity.
    + reflexivity.
  - apply (identifier_lookup_after_whole_run 5 (cursor "ifx" 0 1 1 []) 3).
    + concrete_cursor.
    + concrete_cursor.
    + lia.
    + lia.
    + intros i Hi. cbn [position cursor input] in *.
      assert (Hc : i = 0 \/ i = 1 \/ i = 2) by lia.
      destruct Hc as [->|[->| ->]]; reflexivity.
    + reflexivity.
Defined.

(** ** The byte after a block comment (C10) *)

Lemma sub_ext s1 s2 :
  forall (n : nat) a,
    0 <= a -> a + Z.of_nat n <= len s1 -> a + Z.of_nat n <= len s2 ->
    (forall i, a <= i < a + Z.of_nat n -> byte_at s1 i = byte_at s2 i) ->
    sub s1 a n = sub s2 a n.
Proof.
  induction n as [|n IH]; intros a Ha H1 H2 Hext; [now rewrite !sub_0|].
  rewrite !sub_S by lia. rewrite Hext by lia. f_equal.
  apply IH; try lia. intros i Hi. apply Hext. lia.
Qed.

Lemma count_LF_ext s1 s2 :
  forall (n : nat) a,
    (forall i, a <= i < a + Z.of_nat n -> byte_at s1 i = byte_at s2 i) ->
    count_LF s1 a n = count_LF s2 a n.
Proof.
  induction n as [|n IH]; intros a Hext; [reflexivity|].
  cbn [count_LF]. rewrite Hext by lia. f_equal.
  apply IH. intros i Hi. apply Hext. lia.
Qed.

(** C10. When a block comment is closed and a byte follows the closing
    delimiter, [NextToken] returns the comment, delimiters included, and
    leaves the cursor one byte past the byte that follows the delimiter:
    that byte is in no token, and it is not examined, since a text that
    differs in that byte only gives the same token and the same cursor. *)
Theorem byte_after_block_comment_is_skipped fuel l (n : nat) :
  wf l -> room l -> (n + 1 < fuel)%nat ->
  ch l = "/"%char -> byte_at (input l) (position l + 1) = "*"%char ->
  (forall i, position l <= i < position l + Z.of_nat n ->
             ~ (byte_at (input l) i = "*"%char /\ byte_at (input l) (i + 1) = "/"%char)) ->
  byte_at (input l) (position l + Z.of_nat n) = "*"%char ->
  byte_at (input l) (position l + Z.of_nat n + 1) = "/"%char ->
  position l + Z.of_nat n + 2 < len (input l) ->
  exists tok l',
    NextToken fuel l = Ret (tok, l')
    /\ Type_ tok = COMMENT
    /\ Literal tok = sub (input l) (position l) (n + 2)
    /\ position l' = position l + Z.of_nat n + 3
    /\ ch l' = byte_at (input l) (position l + Z.of_nat n + 3)
    /\ forall l2,
         wf l2 -> room l2 ->
         position l2 = position l -> line l2 = line l ->
         tokenPosition l2 = tokenPosition l -> errors l2 = errors l ->
         len (input l2) = len (input l) ->
         (forall i, i <> position l + Z.of_nat n + 2 ->
                    byte_at (input l2) i = byte_at (input l) i) ->
         exists l2',
           NextToken fuel l2 = Ret (tok, l2')
           /\ position l2' = position l' /\ ch l2' = ch l'
           /\ line l2' = line l' /\ tokenPosition l2' = tokenPosition l'
           /\ errors l2' = errors l'.
Proof.
  intros Hwf Hroom Hfuel Hch Hnext Hrun Hs1 Hs2 Hlen.
  pose proof (wf_pos l Hwf) as Hp.
  eexists. eexists. split.
  { now apply (NextToken_block_comment fuel l n). }
  cbn [Type_ Literal set_line moved position ch line tokenPosition errors].
  split; [reflexivity|]. split; [reflexivity|]. split; [reflexivity|].
  split; [reflexivity|].
  intros l2 Hwf2 Hroom2 Ep Eln Etp Ees Elen Hext.
  eexists. split.
  - rewrite (NextToken_block_comment fuel l2 n); try assumption.
    + rewrite Ep, Eln, Etp.
      rewrite (sub_ext (input l2) (input l) (n + 2) (position l)); try lia.
      * rewrite (count_LF_ext (input l2) (input l) n (position l)).
        -- reflexivity.
        -- intros i Hi. apply Hext. lia.
      * intros i Hi. apply Hext. lia.
    + rewrite (wf_ch l2 Hwf2), Ep, Hext by lia. now rewrite <- (wf_ch l Hwf).
    + rewrite Ep, Hext by lia. assumption.
    + rewrite Ep. intros i Hi. rewrite !Hext by lia. now apply Hrun.
    + rewrite Ep, Hext by lia. assumption.
    + rewrite Ep, Hext by lia. assumption.
  - cbn [set_line moved position ch line tokenPosition errors input].
    rewrite Hext by lia. repeat split. exact Ees.
Qed.

(** On [/* c */xy], and on the same text with a line-feed in place of
    [x]: the same comment token, and the cursor on [y] with the same line
    number. *)
Lemma byte_after_block_comment_witness :
  exists tok l' l2',
    NextToken 7 (cursor "/* c */xy" 0 1 1 []) = Ret (tok, l')
    /\ Literal tok = "/* c */"
    /\ position l' = 8 /\ ch l' = "y"%char
    /\ NextToken 7 (cursor ("/* c */" ++ newline ++ "y") 0 1 1 []) = Ret (tok, l2')
    /\ position l2' = 8 /\ ch l2' = "y"%char /\ line l2' = line l'.
Proof.
  destruct (byte_after_block_comment_is_skipped 7 (cursor "/* c */xy" 0 1 1 []) 5)
    as (tok & l' & H & _ & Hlit & Hpos & Hch & Hind).
  - concrete_cursor.
  - concrete_cursor.
  - lia.
  - reflexivity.
  - reflexivity.
  - intros i Hi. cbn [position cursor input] in *.
    assert (Hc : i = 0 \/ i = 1 \/ i = 2 \/ i = 3 \/ i = 4) by lia.
    intros [H1 H2].
    repeat (destruct Hc as [->|Hc]; [vm_compute in H1, H2; congruence|]).
    subst i. vm_compute in H1. congruence.
  - reflexivity.
  - reflexivity.
  - cbn [position cursor input]. small.
  - destruct (Hind (cursor ("/* c */" ++ newline ++ "y") 0 1 1 []))
      as (l2' & H2 & Hpos2 & Hch2 & Hln2 & _).
    + concrete_cursor.
    + concrete_cursor.
    + reflexivity.
    + reflexivity.
    + reflexivity.
    + reflexivity.
    + reflexivity.
    + intros i Hi. cbn [position cursor input] in *.
      destruct (Z_lt_le_dec i 0) as [Hneg|Hnn].
      { unfold byte_at. destruct (Z.ltb_spec i 0); [reflexivity|lia]. }
      destruct (Z_lt_le_dec i 9) as [Hin|Hout].
      * assert (Hc : i = 0 \/ i = 1 \/ i = 2 \/ i = 3 \/ i = 4 \/ i = 5 \/ i = 6 \/ i = 8)
          by lia.
        repeat (destruct Hc as [->|Hc]; [reflexivity|]). subst i. reflexivity.
      * rewrite !byte_at_end by (vm_compute len; lia). reflexivity.
    + exists tok, l', l2'.
      split; [exact H|]. split; [exact Hlit|]. split; [exact Hpos|].
      split; [exact Hch|]. split; [exact H2|].
      split; [now rewrite Hpos2|]. split; [now rewrite Hch2|exact Hln2].
Defined.

(** The whole scan of [/* c */xy]: [x] is in no token. *)
Example scan_block_comment :
  runs_to (fun fuel => scan fuel "/* c */xy")
    ([mkToken COMMENT "/* c */" 1 8; mkToken IDENT "y" 1 10; mkToken EOF "" 0 0],
     mkLexer "/* c */xy" 10 11 NUL 1 11 []).
Proof. apply scan_runs_to with 30%nat. vm_compute. reflexivity. Qed.

(** * Further properties of the scanner *)

(** ** Integer literals *)

(** X1. [NextToken] on a digit returns an [INT] token whose lexeme is the
    longest run of ASCII digits from the cursor, and stops on the byte after
    the run without consuming it: no sign, point, exponent or letter is part
    of the number. The [Position] of the token is the column counter after
    the run. *)
Theorem number_is_longest_digit_run fuel l (n : nat) :
  wf l -> room l -> (0 < n)%nat -> (n + 1 < fuel)%nat ->
  (forall i, position l <= i < position l + Z.of_nat n ->
             isDigit (byte_at (input l) i) = true) ->
  isDigit (byte_at (input l) (position l + Z.of_nat n)) = false ->
  NextToken fuel l
  = Ret (mkToken INT (sub (input l) (position l) n)
                 (line l) (wrap (tokenPosition l + Z.of_nat n)),
         moved l (position l + Z.of_nat n) (wrap (tokenPosition l + Z.of_nat n))).
Proof.
  intros Hwf [Hr Hl] Hn Hfuel Hrun Hstop.
  pose proof (wf_pos l Hwf) as Hp.
  assert (Hdig : isDigit (ch l) = true).
  { rewrite (wf_ch l Hwf). apply Hrun. lia. }
  pose proof (isDigit_not_isLetter _ Hdig) as Hlet.
  assert (Hend : position l + Z.of_nat n <= len (input l)).
  { assert (0 <= position l + Z.of_nat n - 1 < len (input l)); [|lia].
    apply byte_at_not_NUL. intros E.
    pose proof (Hrun (position l + Z.of_nat n - 1) ltac:(lia)) as Hx.
    rewrite E in Hx. discriminate. }
  assert (Hsp : isSpace (ch l) = false).
  { unfold isSpace.
    skip_cases l ltac:(fun E => rewrite E in Hdig; discriminate).
    reflexivity. }
  destruct fuel as [|fuel]; [lia|].
  rewrite NextToken_unfold by assumption.
  destruct fuel as [|fuel]; [lia|].
  rewrite NextToken_for_S. unfold NextToken_switch.
  skip_cases l ltac:(fun E => rewrite E in Hdig; discriminate).
  rewrite Hlet, Hdig. unfold readNumber.
  rewrite (for_readChar_scan isDigit n) by (try assumption; lia).
  cbn [bind moved position input]. rewrite slice_sub by lia.
  reflexivity.
Qed.

(** On [42x+1]: the number is [42]; the letter that follows is left for the
    next call. *)
Lemma number_witness :
  NextToken 4 (cursor "42x+1" 0 1 1 [])
  = Ret (mkToken INT "42" 1 3, cursor "42x+1" 2 1 3 []).
Proof.
  apply (number_is_longest_digit_run 4 (cursor "42x+1" 0 1 1 []) 2).
  - concrete_cursor.
  - concrete_cursor.
  - lia.
  - lia.
  - intros i Hi. cbn [position cursor input] in *.
    assert (Hc : i = 0 \/ i = 1) by lia.
    destruct Hc as [->| ->]; reflexivity.
  - reflexivity.
Defined.

(** ** String literals *)

(** X2. [NextToken] on a quote followed by [n] bytes that are neither quote
    nor line-feed and then a quote returns a [STRING] token whose lexeme is
    exactly those [n] bytes, backslashes included (no escape is decoded);
    it logs no error, keeps [line], and leaves the cursor on the byte after
    the closing quote. With [n = 0] this is the empty string literal. *)
Theorem closed_string_is_raw_content fuel l (n : nat) :
  wf l -> room l -> (n + 2 < fuel)%nat ->
  ch l = DQUOTE ->
  (forall i, position l + 1 <= i < position l + 1 + Z.of_nat n ->
             inString (byte_at (input l) i) = true) ->
  byte_at (input l) (position l + 1 + Z.of_nat n) = DQUOTE ->
  NextToken fuel l
  = Ret (mkToken STRING (sub (input l) (position l + 1) n)
                 (line l) (wrap (tokenPosition l + 1 + Z.of_nat n)),
         moved l (position l + Z.of_nat n + 2) (wrap (tokenPosition l + Z.of_nat n + 2))).
Proof.
  intros Hwf [Hr Hl] Hfuel Hch Hrun Hstop.
  pose proof (wf_pos l Hwf) as Hp. pose proof (wf_read l Hwf) as Hrd.
  assert (Hin : 0 <= position l + 1 + Z.of_nat n < len (input l)).
  { apply byte_at_not_NUL. rewrite Hstop. discriminate. }
  destruct fuel as [|fuel]; [lia|].
  rewrite NextToken_unfold by now rewrite Hch.
  destruct fuel as [|fuel]; [lia|].
  rewrite NextToken_for_S. switch_on Hch. unfold readString.
  rewrite readChar_wf by assumption. cbn [bind].
  rewrite readString_for_eq.
  assert (Hwf1 : wf (moved l (position l + 1) (wrap (tokenPosition l + 1)))).
  { apply moved_wf; [assumption|lia|apply wrap_range]. }
  rewrite (for_readChar_scan inString n); cbn [moved position input tokenPosition];
    try assumption; try lia; [|now rewrite Hstop].
  cbn [bind]. rewrite (wrap_small (position l + 1)) by (unfold int_min, int_max in *; lia).
  cbn [moved input position]. rewrite slice_sub by lia.
  cbn [bind ch moved input]. rewrite Hstop. cbn [Ascii.eqb Bool.eqb LF DQUOTE].
  rewrite wrap_wrap_add.
  rewrite readChar_wf.
  - cbn [bind]. unfold moved.
    cbn [input position readPosition ch line tokenPosition errors].
    rewrite wrap_wrap_add.
    replace (position l + 1 + Z.of_nat n + 1) with (position l + Z.of_nat n + 2) by lia.
    replace (tokenPosition l + 1 + Z.of_nat n + 1)
      with (tokenPosition l + Z.of_nat n + 2) by lia.
    reflexivity.
  - apply moved_wf; [assumption|lia|apply wrap_range].
  - unfold moved. cbn [readPosition]. lia.
Qed.

(** On a quoted [a\n] (a backslash and an [n], not a line-feed) followed by
    [;]: the lexeme is the three bytes between the quotes. *)
Lemma closed_string_witness :
  NextToken 6 (cursor (quote ++ "a\n" ++ quote ++ ";") 0 1 1 [])
  = Ret (mkToken STRING "a\n" 1 5, cursor (quote ++ "a\n" ++ quote ++ ";") 5 1 6 []).
Proof.
  apply (closed_string_is_raw_content 6 (cursor (quote ++ "a\n" ++ quote ++ ";") 0 1 1 []) 3).
  - concrete_cursor.
  - concrete_cursor.
  - lia.
  - reflexivity.
  - intros i Hi. cbn [position cursor input] in *.
    assert (Hc : i = 1 \/ i = 2 \/ i = 3) by lia.
    destruct Hc as [->|[->| ->]]; reflexivity.
  - reflexivity.
Defined.

(** ** Blanks and line-feeds before a token *)

Lemma isSpace_not_NUL c : isSpace c = true -> c <> NUL.
Proof. intros H E. rewrite E in H. discriminate. Qed.

(** The end of a run of bytes that are not the sentinel is inside the text. *)
Lemma run_inside s p (k : nat) (P : ascii -> bool) :
  P NUL = false -> 0 <= p ->
  (forall i, p <= i < p + Z.of_nat k -> P (byte_at s i) = true) ->
  (0 < k)%nat -> p + Z.of_nat k <= len s.
Proof.
  intros HP Hp Hrun Hk.
  assert (0 <= p + Z.of_nat k - 1 < len s); [|lia].
  apply byte_at_not_NUL. intros E.
  pose proof (Hrun (p + Z.of_nat k - 1) ltac:(lia)) as Hx.
  rewrite E, HP in Hx. discriminate.
Qed.

(** X3. Spaces, tabs and carriage returns before a token are skipped:
    [NextToken] from a cursor on [k] such bytes is [NextToken] from the
    cursor on the byte after them, with the column counter advanced by
    [k] and nothing else changed. *)
Theorem leading_blanks_are_skipped fuel l (k : nat) :
  wf l -> room l -> (k < fuel)%nat ->
  (forall i, position l <= i < position l + Z.of_nat k ->
             isSpace (byte_at (input l) i) = true) ->
  isSpace (byte_at (input l) (position l + Z.of_nat k)) = false ->
  NextToken fuel l
  = NextToken fuel (moved l (position l + Z.of_nat k) (wrap (tokenPosition l + Z.of_nat k))).
Proof.
  intros Hwf [Hr Hl] Hfuel Hrun Hstop.
  pose proof (wf_pos l Hwf) as Hp. pose proof (wf_read l Hwf) as Hrd.
  assert (Hend : position l + Z.of_nat k < int_max).
  { destruct k as [|k]; [simpl; lia|].
    pose proof (run_inside (input l) (position l) (S k) isSpace eq_refl Hp Hrun ltac:(lia)).
    lia. }
  set (l' := moved l (position l + Z.of_nat k) (wrap (tokenPosition l + Z.of_nat k))).
  assert (Hwf' : wf l').
  { apply moved_wf; [assumption|lia|apply wrap_range]. }
  unfold NextToken, skipWhitespace.
  rewrite (for_readChar_scan isSpace k) by (try assumption; lia).
  fold l'.
  destruct fuel as [|fuel]; [lia|].
  cbn [for_readChar]. rewrite (wf_ch l' Hwf'). subst l'. cbn [moved input position].
  now rewrite Hstop.
Qed.

(** On two spaces and [x]. *)
Lemma leading_blanks_witness :
  NextToken 3 (cursor "  x" 0 1 1 []) = NextToken 3 (cursor "  x" 2 1 3 []).
Proof.
  apply (leading_blanks_are_skipped 3 (cursor "  x" 0 1 1 []) 2).
  - concrete_cursor.
  - concrete_cursor.
  - lia.
  - intros i Hi. cbn [position cursor input] in *.
    assert (Hc : i = 0 \/ i = 1) by lia.
    destruct Hc as [->| ->]; reflexivity.
  - reflexivity.
Defined.

(** X4. A line-feed met by [NextToken] is consumed without a token: [line]
    is incremented, the blanks that follow are skipped, and the column
    counter restarts from 0 on the first byte after them. So [NextToken] on
    a line-feed followed by [k] blanks is [NextToken] from the cursor after
    those blanks, on the next line, with column counter 0: the indentation
    of a line is not counted in its columns. *)
Theorem line_feed_starts_a_line fuel l (k : nat) :
  wf l -> room l -> (k < fuel)%nat ->
  ch l = LF ->
  (forall i, position l + 1 <= i < position l + 1 + Z.of_nat k ->
             isSpace (byte_at (input l) i) = true) ->
  isSpace (byte_at (input l) (position l + 1 + Z.of_nat k)) = false ->
  NextToken (S fuel) l
  = NextToken fuel (cursor (input l) (position l + 1 + Z.of_nat k)
                           (wrap (line l + 1)) 0 (errors l)).
Proof.
  intros Hwf [Hr Hl] Hfuel Hch Hrun Hstop.
  pose proof (wf_pos l Hwf) as Hp. pose proof (wf_read l Hwf) as Hrd.
  assert (Hin : position l < len (input l)).
  { apply wf_inside; [assumption|]. rewrite Hch. discriminate. }
  assert (Hend : position l + 1 + Z.of_nat k < int_max).
  { destruct k as [|k]; [simpl; lia|].
    pose proof (run_inside (input l) (position l + 1) (S k) isSpace eq_refl
                  ltac:(lia) Hrun ltac:(lia)).
    lia. }
  rewrite NextToken_unfold by now rewrite Hch.
  rewrite NextToken_for_S. switch_on Hch.
  rewrite readChar_wf; [|now apply set_line_wf|assumption].
  cbn [bind]. unfold skipWhitespace.
  rewrite (for_readChar_scan isSpace k);
    cbn [moved set_line position input tokenPosition line errors];
    try assumption; try lia.
  - cbn [bind].
    unfold NextToken, skipWhitespace.
    destruct fuel as [|fuel]; [lia|].
    cbn [for_readChar cursor ch]. rewrite Hstop. cbn [bind].
    reflexivity.
  - apply moved_wf; [now apply set_line_wf|cbn [set_line position]; lia|apply wrap_range].
Qed.

(** On [a], a line-feed, a tab and [b], with the cursor on the line-feed. *)
Lemma line_feed_witness :
  NextToken 3 (cursor ("a" ++ newline ++ String TAB "b") 1 1 2 [])
  = NextToken 2 (cursor ("a" ++ newline ++ String TAB "b") 3 2 0 []).
Proof.
  apply (line_feed_starts_a_line 2 (cursor ("a" ++ newline ++ String TAB "b") 1 1 2 []) 1).
  - concrete_cursor.
  - concrete_cursor.
  - lia.
  - reflexivity.
  - intros i Hi. cbn [position cursor input] in *.
    assert (Hc : i = 2) by lia. subst i. reflexivity.
  - reflexivity.
Defined.

(** ** Lines inside block comments *)

Lemma count_LF_bounds s : forall (n : nat) a, 0 <= count_LF s a n <= Z.of_nat n.
Proof.
  induction n as [|n IH]; intros a; [simpl; lia|].
  cbn [count_LF]. specialize (IH (a + 1)).
  destruct (byte_at s a =? LF)%char; lia.
Qed.

(** X5. A block comment is returned as one [COMMENT] token made of the
    bytes from [/*] to the first [*/], both included; every line-feed
    between them increments [line], and the token carries the line on which
    the comment ends. *)
Theorem block_comment_counts_its_line_feeds fuel l (n : nat) :
  wf l -> room l -> (n + 1 < fuel)%nat ->
  ch l = "/"%char -> byte_at (input l) (position l + 1) = "*"%char ->
  (forall i, position l <= i < position l + Z.of_nat n ->
             ~ (byte_at (input l) i = "*"%char /\ byte_at (input l) (i + 1) = "/"%char)) ->
  byte_at (input l) (position l + Z.of_nat n) = "*"%char ->
  byte_at (input l) (position l + Z.of_nat n + 1) = "/"%char ->
  line l + Z.of_nat n <= int_max ->
  exists tok l',
    NextToken fuel l = Ret (tok, l')
    /\ Type_ tok = COMMENT
    /\ Literal tok = sub (input l) (position l) (n + 2)
    /\ Line tok = line l + count_LF (input l) (position l) n
    /\ line l' = line l + count_LF (input l) (position l) n
    /\ errors l' = errors l.
Proof.
  intros Hwf Hroom Hfuel Hch Hnext Hrun Hs1 Hs2 Hln.
  eexists. eexists. split.
  { now apply (NextToken_block_comment fuel l n). }
  pose proof (count_LF_bounds (input l) n (position l)) as Hc.
  pose proof (wf_line l Hwf) as Hl.
  cbn [Type_ Literal Line set_line moved line errors].
  rewrite wrap_small by lia.
  repeat split.
Qed.

(** On a comment of three lines starting on line 1: the token says line 3. *)
Lemma block_comment_lines_witness :
  exists tok l',
    NextToken 12 (cursor ("/*a" ++ newline ++ "b" ++ newline ++ "c*/;") 0 1 1 [])
    = Ret (tok, l')
    /\ Type_ tok = COMMENT
    /\ Literal tok = "/*a" ++ newline ++ "b" ++ newline ++ "c*/"
    /\ Line tok = 3
    /\ line l' = 3
    /\ errors l' = [].
Proof.
  apply (block_comment_counts_its_line_feeds 12
           (cursor ("/*a" ++ newline ++ "b" ++ newline ++ "c*/;") 0 1 1 []) 7).
  - concrete_cursor.
  - concrete_cursor.
  - lia.
  - reflexivity.
  - reflexivity.
  - intros i Hi. cbn [position cursor input] in *.
    assert (Hc : i = 0 \/ i = 1 \/ i = 2 \/ i = 3 \/ i = 4 \/ i = 5 \/ i = 6) by lia.
    intros [H1 H2].
    repeat (destruct Hc as [->|Hc]; [vm_compute in H1, H2; congruence|]).
    subst i. vm_compute in H1. congruence.
  - reflexivity.
  - reflexivity.
  - cbn [cursor line]. small.
Defined.

(** ** A zero byte inside the text *)

(** X6. The sentinel of [readChar] is the byte 0, and [NextToken] does not
    tell a zero byte of the text from the end of the text: on a zero byte
    it returns [EOF], so [Tokens] from there returns that single token and
    the rest of the text is never scanned. *)
Theorem zero_byte_ends_the_scan fuel l :
  wf l -> ch l = NUL -> readPosition l < int_max -> (2 <= fuel)%nat ->
  Tokens fuel l
  = Ret ([mkToken EOF "" 0 0], moved l (position l + 1) (wrap (tokenPosition l + 1))).
Proof.
  intros Hwf Hch Hr Hfuel.
  destruct fuel as [|fuel]; [lia|].
  unfold Tokens. cbn [Tokens_for].
  rewrite NextToken_EOF by (try assumption; lia).
  reflexivity.
Qed.

(** On a zero byte followed by [abc]. *)
Lemma zero_byte_witness :
  NewLexer (String NUL "abc") = Ret (cursor (String NUL "abc") 0 1 1 [])
  /\ Tokens 2 (cursor (String NUL "abc") 0 1 1 [])
     = Ret ([mkToken EOF "" 0 0], cursor (String NUL "abc") 1 1 2 []).
Proof.
  split; [reflexivity|].
  apply (zero_byte_ends_the_scan 2 (cursor (String NUL "abc") 0 1 1 [])).
  - concrete_cursor.
  - reflexivity.
  - cbn [cursor readPosition]. small.
  - lia.
Defined.

(** ** The error log *)

Lemma readChar_frame l l' :
  readChar l = Ret l' ->
  input l' = input l /\ errors l' = errors l /\ line l' = line l.
Proof. unfold readChar. intros H. bind_inv H. inversion H; subst. now cbn. Qed.

Lemma for_readChar_frame cond :
  forall fuel l l', for_readChar fuel cond l = Ret l' ->
  input l' = input l /\ errors l' = errors l /\ line l' = line l.
Proof.
  induction fuel as [|fuel IH]; intros l l' H; [discriminate|].
  simpl in H. destruct (cond (ch l)).
  - bind_inv H. apply readChar_frame in Ha. apply IH in H.
    destruct Ha as (? & ? & ?), H as (? & ? & ?). repeat split; congruence.
  - inversion H; subst. now repeat split.
Qed.

Lemma readBlockComment_for_frame :
  forall fuel l l', readBlockComment_for fuel l = Ret l' ->
  input l' = input l /\ errors l' = errors l.
Proof.
  induction fuel as [|fuel IH]; intros l l' H; [discriminate|].
  simpl in H. bind_inv H. destruct a.
  - inversion H; subst. now split.
  - bind_inv H. apply readChar_frame in Ha0. apply IH in H.
    destruct Ha0 as (Hi & He & _), H as (Hi' & He').
    destruct (ch l =? LF)%char; cbn in Hi, He; split; congruence.
Qed.

Lemma readString_for_frame p0 :
  forall fuel l s err l', readString_for fuel p0 l = Ret (s, err, l') ->
  input l' = input l /\ errors l' = errors l /\ line l' = line l
  /\ (err = None \/ err = Some "non-terminated string").
Proof.
  induction fuel as [|fuel IH]; intros l s err l' H; [discriminate|].
  simpl in H. destruct (negb (ch l =? DQUOTE)%char).
  - destruct (ch l =? LF)%char.
    + bind_inv H. inversion H; subst. repeat split. now right.
    + bind_inv H. apply readChar_frame in Ha. apply IH in H.
      destruct Ha as (? & ? & ?), H as (? & ? & ? & ?).
      repeat split; try congruence; assumption.
  - bind_inv H. inversion H; subst. repeat split. now left.
Qed.

(** The message that [NextToken] logs for a token. *)
Lemma NextToken_switch_errors fuel l fl l1 :
  NextToken_switch fuel l = Ret (fl, l1) ->
  errors l1 = errors l
  \/ exists tok,
       fl = Break tok /\ Type_ tok = STRING
       /\ errors l1
          = (errors l ++ [(("[" ++ itoa (Line tok) ++ ":" ++ itoa (Position tok) ++ "] ")
                           ++ "non-terminated string")%string])%list.
Proof.
  intros H.
  unfold NextToken_switch, oneChar, twoChar, readLineComment, readBlockComment,
    readString, readIdentifier, readNumber, skipWhitespace in H.
  repeat match type of H with
  | (if ?c then _ else _) = _ => destruct c
  | bind _ _ = _ => bind_inv H
  | (let (_, _) := ?x in _) = _ => destruct x
  end;
  repeat match goal with
  | Hx : bind _ _ = Ret _ |- _ => bind_inv Hx
  | Hx : readChar _ = Ret _ |- _ =>
      apply readChar_frame in Hx; destruct Hx as (? & ? & ?)
  | Hx : for_readChar _ _ _ = Ret _ |- _ =>
      apply for_readChar_frame in Hx; destruct Hx as (? & ? & ?)
  | Hx : readBlockComment_for _ _ = Ret _ |- _ =>
      apply readBlockComment_for_frame in Hx; destruct Hx as (? & ?)
  | Hx : readString_for _ _ _ = Ret _ |- _ =>
      apply readString_for_frame in Hx; destruct Hx as (? & ? & ? & ?)
  | Hx : Ret _ = Ret _ |- _ => inversion Hx; subst; clear Hx
  end;
  cbn [set_line set_tokenPosition errors input line] in *;
  try (left; congruence).
  match goal with Hx : _ = None \/ _ = Some _ |- _ => destruct Hx as [Hx|Hx]; subst end.
  - left. congruence.
  - right. eexists. split; [reflexivity|]. split; [reflexivity|].
    unfold addError. cbn. congruence.
Qed.

Lemma NextToken_errors_cases fuel l tok l' :
  NextToken fuel l = Ret (tok, l') ->
  errors l' = errors l
  \/ (Type_ tok = STRING
      /\ errors l'
         = (errors l ++ [(("[" ++ itoa (Line tok) ++ ":" ++ itoa (Position tok) ++ "] ")
                          ++ "non-terminated string")%string])%list).
Proof.
  unfold NextToken, skipWhitespace. intros H. bind_inv H.
  apply for_readChar_frame in Ha. destruct Ha as (_ & He0 & _).
  rewrite <- He0. clear He0 l. revert a tok l' H.
  induction fuel as [|fuel IH]; intros l tok l' H; [discriminate|].
  rewrite NextToken_for_S in H. bind_inv H. destruct a as [fl l1].
  apply NextToken_switch_errors in Ha.
  destruct fl as [|t|t].
  - apply IH in H. destruct Ha as [Ha|(t & Ht & _)]; [|discriminate].
    now rewrite <- Ha.
  - bind_inv H. apply readChar_frame in Ha0. destruct Ha0 as (_ & He & _).
    inversion H; subst. rewrite He.
    destruct Ha as [Ha|(t' & Ht & Hty & Herr)]; [now left|].
    inversion Ht; subst. now right.
  - inversion H; subst.
    destruct Ha as [Ha|(t' & Ht & _)]; [now left|discriminate].
Qed.

(** X7. The error log only grows, by at most one entry per call of
    [NextToken], and only for a [STRING] token: the entry is
    [[line:column] non-terminated string] with the [Line] and [Position] of
    that token. *)
Theorem error_log_grows_with_string_tokens fuel l tok l' :
  NextToken fuel l = Ret (tok, l') ->
  errors l' = errors l
  \/ (Type_ tok = STRING
      /\ errors l'
         = (errors l ++ [(("[" ++ itoa (Line tok) ++ ":" ++ itoa (Position tok) ++ "] ")
                          ++ "non-terminated string")%string])%list).
Proof. apply NextToken_errors_cases. Qed.

(** On the unterminated string of [text_unterminated]. *)
Lemma error_log_witness :
  errors (cursor text_unterminated 14 1 15 ["[1:14] non-terminated string"])
  = errors (cursor text_unterminated 0 1 1 [])
  \/ (Type_ (mkToken STRING "a final test" 1 14) = STRING
      /\ errors (cursor text_unterminated 14 1 15 ["[1:14] non-terminated string"])
         = (errors (cursor text_unterminated 0 1 1 [])
            ++ [(("[" ++ itoa (Line (mkToken STRING "a final test" 1 14)) ++ ":"
                  ++ itoa (Position (mkToken STRING "a final test" 1 14)) ++ "] ")
                 ++ "non-terminated string")%string])%list).
Proof.
  apply (error_log_grows_with_string_tokens 15 (cursor text_unterminated 0 1 1 [])).
  vm_compute. reflexivity.
Defined.


(** ** How far one call moves the cursor *)

Ltac switch_branches H l Hwf Hin :=
  unfold NextToken_switch in H; rewrite (peekChar_wf l Hwf) in H; simpl bind in H;
  repeat match type of H with
  | (if (?a =? ?b)%char then _ else _) = _ =>
      let E := fresh "E" in
      destruct (Ascii.eqb_spec a b) as [E|E];
      [ try (assert (Hne : ch l <> NUL) by (rewrite E; discriminate);
             specialize (Hin Hne)) | ]
  | (if isLetter ?a then _ else _) = _ => destruct (isLetter a) eqn:Elet
  | (if isDigit ?a then _ else _) = _ => destruct (isDigit a) eqn:Edig
  end.

Lemma NextToken_switch_upper fuel l fl l1 :
  wf l -> room l ->
  NextToken_switch fuel l = Ret (fl, l1) ->
  position l1 <= Z.max (position l) (len (input l)).
Proof.
  intros Hwf Hroom H. pose proof Hroom as [Hr Hl].
  pose proof (wf_inside l Hwf) as Hin.
  pose proof (wf_pos l Hwf) as Hp.
  pose proof (wf_read l Hwf) as Hrd.
  switch_branches H l Hwf Hin;
  try (unfold oneChar in H; inversion H; subst; lia);
  try (unfold twoChar in H; rewrite readChar_wf in H by assumption;
       simpl bind in H; inversion H; subst; simpl; lia).
  - (* line feed *)
    rewrite readChar_wf in H; [|now apply set_line_wf|assumption].
    simpl bind in H. bind_inv H. inversion H as [[Hfl Hl1]]; subst fl l1; clear H.
    apply for_readChar_wf in Ha; simpl input; [|apply moved_wf|lia].
    + destruct Ha as (_ & _ & _ & _ & _ & Hend & _). simpl in *.
      unfold set_tokenPosition; simpl. lia.
    + now apply set_line_wf.
    + simpl. lia.
    + apply wrap_range.
  - (* line comment *)
    bind_inv H. destruct a as [literal l']. inversion H as [[Hfl Hl1]]; subst fl l1; clear H.
    unfold readLineComment in Ha. bind_inv Ha. bind_inv Ha.
    inversion Ha as [[Hlit Hl']]; subst literal l'.
    apply for_readChar_wf in Ha0; [|assumption|lia].
    destruct Ha0 as (_ & _ & _ & _ & _ & Hend & _). lia.
  - (* block comment *)
    bind_inv H. destruct a as [literal l']. inversion H as [[Hfl Hl1]]; subst fl l1; clear H.
    unfold readBlockComment in Ha. bind_inv Ha.
    apply readBlockComment_for_wf in Ha0; [|assumption|lia].
    destruct Ha0 as (Hwf' & Hi & _ & Hpos & _ & Hnext).
    assert (Hend : 0 <= position a + 1 < len (input l)).
    { apply byte_at_not_NUL. rewrite Hnext. discriminate. }
    pose proof (wf_pos a Hwf') as Hpa.
    assert (Hwf2 : wf (moved a (position a + 1) (wrap (tokenPosition a + 1)))).
    { apply moved_wf; [assumption|lia|apply wrap_range]. }
    rewrite readChar_wf in Ha; [|assumption|rewrite (wf_read a Hwf'); lia].
    simpl bind in Ha. rewrite readChar_wf in Ha; [|assumption|simpl; lia].
    simpl bind in Ha. bind_inv Ha. inversion Ha as [[Hlit Hl']]. subst literal l'.
    simpl. lia.
  - (* string *)
    bind_inv H. destruct a as [[literal err] l']. inversion H as [[Hfl Hl1]]; subst fl l1; clear H.
    unfold readString in Ha. rewrite readChar_wf in Ha by assumption.
    simpl bind in Ha.
    apply readString_for_wf in Ha; simpl input; [| |lia].
    + destruct Ha as (_ & _ & _ & _ & Hpos). simpl in Hpos.
      destruct err; unfold addError, set_errors; simpl; lia.
    + apply moved_wf; [assumption|lia|apply wrap_range].
  - (* identifier *)
    bind_inv H. destruct a as [literal l']. inversion H as [[Hfl Hl1]]; subst fl l1; clear H.
    unfold readIdentifier in Ha. bind_inv Ha. bind_inv Ha.
    inversion Ha as [[Hlit Hl']]; subst literal l'.
    apply for_readChar_strict in Ha0; try assumption; lia.
  - (* number *)
    bind_inv H. destruct a as [literal l']. inversion H as [[Hfl Hl1]]; subst fl l1; clear H.
    unfold readNumber in Ha. bind_inv Ha. bind_inv Ha.
    inversion Ha as [[Hlit Hl']]; subst literal l'.
    apply for_readChar_strict in Ha0; try assumption; lia.
Qed.

Lemma NextToken_for_upper :
  forall fuel l tok l',
    wf l -> room l ->
    NextToken_for fuel l = Ret (tok, l') ->
    position l' <= Z.max (position l) (len (input l)) + 1.
Proof.
  induction fuel as [|fuel IH]; intros l tok l' Hwf Hroom H; [discriminate|].
  rewrite NextToken_for_S in H. bind_inv H. destruct a as [fl l1].
  pose proof (NextToken_switch_upper _ _ _ _ Hwf Hroom Ha) as Hup.
  destruct (NextToken_switch_post _ _ _ _ Hwf Hroom Ha) as (Hwf1 & Hi1 & Hr1 & Hp1).
  destruct fl as [|t|t].
  - apply IH in H; [|assumption|split; [assumption|rewrite Hi1; apply Hroom]].
    rewrite Hi1 in H. lia.
  - rewrite readChar_wf in H by assumption. simpl bind in H.
    inversion H; subst. simpl. lia.
  - inversion H; subst. lia.
Qed.

Lemma NextToken_upper fuel l tok l' :
  wf l -> room l ->
  NextToken fuel l = Ret (tok, l') ->
  position l' <= Z.max (position l) (len (input l)) + 1.
Proof.
  intros Hwf [Hr Hl] H. unfold NextToken, skipWhitespace in H. bind_inv H.
  apply for_readChar_wf in Ha; [|assumption|lia].
  destruct Ha as (Hwf0 & Hi0 & _ & _ & Hp0 & Hend & _).
  apply NextToken_for_upper in H; [|assumption|].
  - rewrite Hi0 in H. lia.
  - pose proof (wf_read l Hwf). split; rewrite ?(wf_read a Hwf0), ?Hi0; lia.
Qed.

(** ** The shape of the token list *)

Lemma lookupIdent_not_EOF s : lookupIdent s <> EOF.
Proof.
  unfold lookupIdent.
  repeat match goal with
  | |- (if ?c then _ else _) <> _ => destruct c
  end; discriminate.
Qed.

(** Only the case of the zero byte makes an [EOF] token. *)
Lemma NextToken_switch_EOF fuel l fl l1 tok :
  NextToken_switch fuel l = Ret (fl, l1) ->
  fl = Break tok \/ fl = Return tok ->
  Type_ tok = EOF ->
  tok = mkToken EOF "" 0 0 /\ ch l = NUL.
Proof.
  intros H Hfl Hty.
  unfold NextToken_switch, oneChar, twoChar, newToken in H.
  repeat match type of H with
  | (if (?a =? ?b)%char then _ else _) = _ => destruct (Ascii.eqb_spec a b)
  | (if ?c then _ else _) = _ => destruct c
  | bind _ _ = _ => bind_inv H
  | (let (_, _) := ?x in _) = _ => destruct x
  end;
  inversion H; subst; clear H;
  destruct Hfl as [Hfl|Hfl]; inversion Hfl; subst; clear Hfl;
  cbn [Type_] in Hty;
  try (exfalso; now apply (lookupIdent_not_EOF _ Hty));
  try discriminate Hty.
  now split.
Qed.

Lemma NextToken_EOF_token fuel l tok l' :
  NextToken fuel l = Ret (tok, l') -> Type_ tok = EOF -> tok = mkToken EOF "" 0 0.
Proof.
  unfold NextToken. intros H Hty. bind_inv H. clear Ha l. revert a H.
  induction fuel as [|fuel IH]; intros l H; [discriminate|].
  rewrite NextToken_for_S in H. bind_inv H. destruct a as [fl l1].
  destruct fl as [|t|t].
  - now apply IH with l1.
  - bind_inv H. inversion H; subst.
    apply (NextToken_switch_EOF _ _ _ _ tok Ha); [now left|assumption].
  - inversion H; subst.
    apply (NextToken_switch_EOF _ _ _ _ tok Ha); [now right|assumption].
Qed.

Lemma Tokens_for_shape :
  forall fuel acc l ts l',
    Tokens_for fuel acc l = Ret (ts, l') ->
    exists init,
      ts = (acc ++ init ++ [mkToken EOF "" 0 0])%list
      /\ Forall (fun t => Type_ t <> EOF) init.
Proof.
  induction fuel as [|fuel IH]; intros acc l ts l' H; [discriminate|].
  cbn [Tokens_for] in H. bind_inv H. destruct a as [tok l1].
  destruct (String.eqb_spec (Type_ tok) EOF) as [E|E].
  - inversion H; subst. exists []. split; [|constructor].
    now rewrite (NextToken_EOF_token _ _ _ _ Ha E).
  - apply IH in H. destruct H as (init & -> & Hall).
    exists (tok :: init). split; [|now constructor].
    now rewrite <- app_assoc.
Qed.

(** X8. When [Tokens] returns, the list holds exactly one token of kind
    [EOF], its last element, and that token is the zero-valued
    [{EOF, "", 0, 0}]. *)
Theorem Tokens_ends_with_the_only_EOF fuel l ts l' :
  Tokens fuel l = Ret (ts, l') ->
  exists init,
    ts = (init ++ [mkToken EOF "" 0 0])%list
    /\ Forall (fun t => Type_ t <> EOF) init.
Proof. intros H. now apply (Tokens_for_shape fuel [] l ts l'). Qed.

(** On [x = 1;], line-feed, [y = 2;]. *)
Lemma Tokens_shape_witness :
  exists init,
    [mkToken IDENT "x" 1 2; mkToken ASSIGN "=" 1 2; mkToken INT "1" 1 6;
     mkToken SEMICOLON ";" 1 5;
     mkToken IDENT "y" 2 1; mkToken ASSIGN "=" 2 9; mkToken INT "2" 2 5;
     mkToken SEMICOLON ";" 2 12;
     mkToken EOF "" 0 0]
    = (init ++ [mkToken EOF "" 0 0])%list
    /\ Forall (fun t => Type_ t <> EOF) init.
Proof.
  apply (Tokens_ends_with_the_only_EOF 30 (cursor text_assignments 0 1 1 []) _
           (mkLexer text_assignments 14 15 NUL 2 7 [])).
  vm_compute. reflexivity.
Defined.

(** ** Termination on texts without quotes and comments *)

Lemma returns_true {A : Type} (m : outcome A) : returns m = true -> exists r, m = Ret r.
Proof. destruct m; simpl; intros H; try discriminate. eauto. Qed.

(** A loop that stops on the sentinel returns within the bytes that remain. *)
Lemma for_readChar_returns cond :
  cond NUL = false ->
  forall fuel l,
    wf l -> len (input l) < int_max -> (remaining l < fuel)%nat ->
    exists l', for_readChar fuel cond l = Ret l'.
Proof.
  intros Hc. induction fuel as [|fuel IH]; intros l Hwf Hlen Hfuel; [lia|].
  simpl. destruct (cond (ch l)) eqn:E; [|eauto].
  assert (Hin : position l < len (input l)).
  { apply wf_inside; [assumption|]. intros E'. rewrite E' in E. congruence. }
  rewrite readChar_wf; [|assumption|rewrite (wf_read l Hwf); lia].
  simpl bind. apply IH; simpl; try assumption.
  - apply moved_wf; [assumption| |apply wrap_range].
    pose proof (wf_pos l Hwf). lia.
  - unfold remaining in *. simpl. lia.
Qed.

Lemma NextToken_switch_returns fuel l :
  wf l -> room l ->
  ch l <> DQUOTE ->
  ~ In (ch l, byte_at (input l) (position l + 1)) commentOpeners ->
  (remaining l < fuel)%nat ->
  returns (NextToken_switch fuel l) = true.
Proof.
  intros Hwf [Hr Hl] Hq Hc Hfuel.
  pose proof (wf_pos l Hwf) as Hp. pose proof (wf_read l Hwf) as Hrd.
  pose proof (wf_inside l Hwf) as Hin.
  unfold NextToken_switch. rewrite (peekChar_wf l Hwf). cbn [bind].
  repeat match goal with
  | |- returns (if (?a =? ?b)%char then _ else _) = true =>
      let E := fresh "E" in destruct (Ascii.eqb_spec a b) as [E|E]
  | |- returns (if isLetter ?a then _ else _) = true => destruct (isLetter a) eqn:Elet
  | |- returns (if isDigit ?a then _ else _) = true => destruct (isDigit a) eqn:Edig
  end;
  try reflexivity;
  try (unfold twoChar; rewrite readChar_wf by assumption; reflexivity);
  try (exfalso; apply Hc; match goal with
                          | E1 : ch l = _, E2 : byte_at _ _ = _ |- _ =>
                              rewrite E1, E2; cbn; tauto
                          end);
  try contradiction.
  - (* line feed *)
    assert (Hne : ch l <> NUL) by (rewrite E; discriminate). specialize (Hin Hne).
    rewrite readChar_wf; [|now apply set_line_wf|assumption].
    cbn [bind]. unfold skipWhitespace.
    destruct (for_readChar_returns isSpace eq_refl fuel
                (moved (set_line l (wrap (line l + 1))) (position (set_line l (wrap (line l + 1))) + 1)
                       (wrap (tokenPosition (set_line l (wrap (line l + 1))) + 1))))
      as [l' Hl'].
    + apply moved_wf; [now apply set_line_wf|cbn [set_line position]; lia|apply wrap_range].
    + cbn [moved set_line input]. lia.
    + unfold remaining in *. cbn [moved set_line input position]. lia.
    + rewrite Hl'. reflexivity.
  - (* identifier *)
    assert (Hne : ch l <> NUL) by (intros E'; rewrite E' in Elet; discriminate).
    specialize (Hin Hne).
    unfold readIdentifier.
    destruct (for_readChar_returns isLetter eq_refl fuel l Hwf ltac:(lia) Hfuel) as [l' Hl'].
    rewrite Hl'. cbn [bind].
    apply for_readChar_wf in Hl'; [|assumption|lia].
    destruct Hl' as (_ & Hi & _ & _ & Hpos & Hend & _).
    rewrite Hi, slice_ok by lia. reflexivity.
  - (* number *)
    assert (Hne : ch l <> NUL) by (intros E'; rewrite E' in Edig; discriminate).
    specialize (Hin Hne).
    unfold readNumber.
    destruct (for_readChar_returns isDigit eq_refl fuel l Hwf ltac:(lia) Hfuel) as [l' Hl'].
    rewrite Hl'. cbn [bind].
    apply for_readChar_wf in Hl'; [|assumption|lia].
    destruct Hl' as (_ & Hi & _ & _ & Hpos & Hend & _).
    rewrite Hi, slice_ok by lia. reflexivity.
Qed.

(** Only the case of the line-feed repeats the loop of [NextToken]. *)
Lemma NextToken_switch_Repeat fuel l l1 :
  NextToken_switch fuel l = Ret (Repeat, l1) -> ch l = LF.
Proof.
  intros H. unfold NextToken_switch, oneChar, twoChar in H.
  destruct (Ascii.eqb_spec (ch l) LF) as [E|E]; [assumption|].
  exfalso.
  repeat match type of H with
  | (if ?c then _ else _) = _ => destruct c
  | bind _ _ = _ => bind_inv H
  | (let (_, _) := ?x in _) = _ => destruct x
  end; discriminate H.
Qed.

Lemma plain_later l l' :
  plain l -> input l' = input l -> position l <= position l' -> plain l'.
Proof. intros H Hi Hp i Hle. rewrite Hi. apply H. lia. Qed.

Lemma NextToken_for_returns :
  forall fuel l,
    wf l -> room l -> plain l -> (remaining l + 2 <= fuel)%nat ->
    exists tok l', NextToken_for fuel l = Ret (tok, l').
Proof.
  induction fuel as [|fuel IH]; intros l Hwf Hroom Hplain Hfuel; [lia|].
  pose proof (wf_pos l Hwf) as Hp.
  rewrite NextToken_for_S.
  destruct (returns_true (NextToken_switch fuel l)) as [[fl l1] Hsw].
  { apply NextToken_switch_returns; try assumption; try lia;
      destruct (Hplain (position l) ltac:(lia)) as [H1 H2];
      rewrite (wf_ch l Hwf); assumption. }
  rewrite Hsw. cbn [bind].
  destruct (NextToken_switch_post _ _ _ _ Hwf Hroom Hsw) as (Hwf1 & Hi1 & Hr1 & Hp1).
  destruct fl as [|t|t].
  - apply IH; try assumption.
    + split; [assumption|rewrite Hi1; apply Hroom].
    + apply (plain_later l); [assumption|assumption|lia].
    + pose proof (NextToken_switch_Repeat _ _ _ Hsw) as E.
      assert (Hin : position l < len (input l)).
      { apply wf_inside; [assumption|]. rewrite E. discriminate. }
      unfold remaining in *. rewrite Hi1. lia.
  - rewrite readChar_wf by assumption. cbn [bind]. eauto.
  - eauto.
Qed.

Lemma NextToken_returns fuel l :
  wf l -> room l -> plain l -> (remaining l + 2 <= fuel)%nat ->
  exists tok l', NextToken fuel l = Ret (tok, l').
Proof.
  intros Hwf Hroom Hplain Hfuel. pose proof Hroom as [Hr Hl].
  unfold NextToken, skipWhitespace.
  destruct (for_readChar_returns isSpace eq_refl fuel l Hwf ltac:(lia) ltac:(lia))
    as [l0 Hl0].
  rewrite Hl0. cbn [bind].
  apply for_readChar_wf in Hl0; [|assumption|lia].
  destruct Hl0 as (Hwf0 & Hi0 & _ & _ & Hp0 & Hend & _).
  pose proof (wf_read l Hwf) as Hrd.
  apply NextToken_for_returns; try assumption.
  - split; rewrite ?(wf_read l0 Hwf0), ?Hi0; lia.
  - now apply (plain_later l).
  - unfold remaining in *. rewrite Hi0. lia.
Qed.

Lemma Tokens_for_returns :
  forall (m : nat) fuel acc l,
    wf l -> room l -> plain l ->
    (remaining l <= m)%nat -> (m + 3 <= fuel)%nat ->
    exists ts l', Tokens_for fuel acc l = Ret (ts, l').
Proof.
  induction m as [|m IH]; intros fuel acc l Hwf Hroom Hplain Hm Hfuel;
    (destruct fuel as [|fuel]; [lia|]); cbn [Tokens_for];
    pose proof Hroom as [Hr Hl]; pose proof (wf_pos l Hwf) as Hp.
  - rewrite NextToken_EOF; try assumption; try lia.
    + cbn. eauto.
    + apply wf_exhausted; [assumption|]. unfold remaining in Hm. lia.
  - destruct (NextToken_returns fuel l Hwf Hroom Hplain ltac:(lia)) as (tok & l1 & H1).
    rewrite H1. cbn [bind].
    destruct (Type_ tok =? EOF)%string eqn:E; [eauto|].
    destruct (NextToken_post _ _ _ _ Hwf Hroom H1) as (Hwf1 & Hi1 & Hp1).
    pose proof (NextToken_upper _ _ _ _ Hwf Hroom H1) as Hup.
    assert (Hin : position l < len (input l)).
    { destruct (Z_lt_le_dec (position l) (len (input l))) as [Hlt|Hge]; [assumption|].
      exfalso. rewrite NextToken_EOF in H1; try assumption; try lia.
      - inversion H1; subst. discriminate E.
      - now apply wf_exhausted. }
    apply IH; try assumption; try lia.
    + split; [rewrite (wf_read l1 Hwf1); lia|rewrite Hi1; assumption].
    + apply (plain_later l); [assumption|assumption|lia].
    + unfold remaining in *. rewrite Hi1. lia.
Qed.

(** X9. On a text that holds, from the cursor on, no quote and no comment
    opener, [Tokens] terminates within a step budget linear in the number
    of bytes that remain, and its result ends with the [EOF] token. *)
Theorem Tokens_terminates_on_plain_text fuel l :
  wf l -> room l -> plain l -> (remaining l + 3 <= fuel)%nat ->
  exists init l',
    Tokens fuel l = Ret ((init ++ [mkToken EOF "" 0 0])%list, l')
    /\ Forall (fun t => Type_ t <> EOF) init.
Proof.
  intros Hwf Hroom Hplain Hfuel.
  destruct (Tokens_for_returns (remaining l) fuel [] l Hwf Hroom Hplain (le_n _) Hfuel)
    as (ts & l' & H).
  destruct (Tokens_for_shape _ _ _ _ _ H) as (init & -> & Hall).
  exists init, l'. split; assumption.
Qed.

(** On [a/b+1]: a division sign is no comment opener. *)
Lemma Tokens_terminates_witness :
  exists init l',
    Tokens 9 (cursor "a/b+1" 0 1 1 []) = Ret ((init ++ [mkToken EOF "" 0 0])%list, l')
    /\ Forall (fun t => Type_ t <> EOF) init.
Proof.
  apply (Tokens_terminates_on_plain_text 9 (cursor "a/b+1" 0 1 1 [])).
  - concrete_cursor.
  - concrete_cursor.
  - intros i Hi. cbn [cursor position input] in *.
    destruct (Z_lt_le_dec i 5) as [Hin|Hout].
    + assert (Hc : i = 0 \/ i = 1 \/ i = 2 \/ i = 3 \/ i = 4) by lia.
      repeat (destruct Hc as [->|Hc];
              [split; [discriminate|];
               cbn; intros H; repeat (destruct H as [H|H]; [discriminate H|]); exact H|]).
      subst i. split; [discriminate|].
      cbn. intros H. repeat (destruct H as [H|H]; [discriminate H|]). exact H.
    + rewrite (byte_at_end "a/b+1" i) by (vm_compute len; lia).
      split; [discriminate|].
      cbn. intros H. repeat (destruct H as [H|H]; [discriminate H|]). exact H.
  - vm_compute. lia.
Defined.

(** ** The number of tokens *)

Lemma Tokens_for_length :
  forall fuel acc l ts l',
    wf l -> room l ->
    Tokens_for fuel acc l = Ret (ts, l') ->
    (List.length ts <= List.length acc + remaining l + 1)%nat.
Proof.
  induction fuel as [|fuel IH]; intros acc l ts l' Hwf Hroom H; [discriminate|].
  pose proof Hroom as [Hr Hl]. pose proof (wf_pos l Hwf) as Hp.
  cbn [Tokens_for] in H. bind_inv H. destruct a as [tok l1].
  destruct (Type_ tok =? EOF)%string eqn:E.
  - inversion H; subst. rewrite length_app. simpl. lia.
  - destruct (NextToken_post _ _ _ _ Hwf Hroom Ha) as (Hwf1 & Hi1 & Hp1).
    pose proof (NextToken_upper _ _ _ _ Hwf Hroom Ha) as Hup.
    assert (Hin : position l < len (input l)).
    { destruct (Z_lt_le_dec (position l) (len (input l))) as [Hlt|Hge]; [assumption|].
      exfalso. destruct fuel as [|fuel]; [discriminate|].
      rewrite NextToken_EOF in Ha; try assumption; try lia.
      - inversion Ha; subst. discriminate E.
      - now apply wf_exhausted. }
    apply IH in H; [|assumption|].
    + rewrite length_app in H. simpl in H. unfold remaining in *. rewrite Hi1 in H. lia.
    + split; [rewrite (wf_read l1 Hwf1); lia|rewrite Hi1; assumption].
Qed.

(** X10. [Tokens] returns at most one token per byte that remains in the
    text, and the [EOF] token: every call of [NextToken] that returns
    another token consumes at least one byte of the text. *)
Theorem Tokens_at_most_one_token_per_byte fuel l ts l' :
  wf l -> room l ->
  Tokens fuel l = Ret (ts, l') ->
  (List.length ts <= remaining l + 1)%nat.
Proof.
  intros Hwf Hroom H.
  apply (Tokens_for_length fuel [] l ts l' Hwf Hroom H).
Qed.

(** On [1+2;]: four bytes, four tokens and [EOF]. *)
Lemma Tokens_length_witness :
  (List.length [mkToken INT "1" 1 2; mkToken PLUS "+" 1 1; mkToken INT "2" 1 4;
                mkToken SEMICOLON ";" 1 3; mkToken EOF "" 0 0]
   <= remaining (cursor "1+2;" 0 1 1 []) + 1)%nat.
Proof.
  apply (Tokens_at_most_one_token_per_byte 9 (cursor "1+2;" 0 1 1 []) _
           (mkLexer "1+2;" 5 6 NUL 1 6 [])).
  - concrete_cursor.
  - concrete_cursor.
  - vm_compute. reflexivity.
Defined.

(** ** Lexemes are slices of the text *)

Lemma slice_inv s a b r :
  slice s a b = Ret r ->
  0 <= a /\ a <= b /\ b <= len s /\ r = sub s a (Z.to_nat (b - a)).
Proof.
  unfold slice, sub. intros H.
  destruct (Z.leb_spec 0 a); [|discriminate].
  destruct (Z.leb_spec a b); [|discriminate].
  destruct (Z.leb_spec b (len s)); [|discriminate].
  inversion H. repeat split; assumption.
Qed.

Lemma lexeme_in_slice l tok a b e :
  position l <= a -> b <= e ->
  slice (input l) a b = Ret (Literal tok) ->
  lexeme_in l tok e.
Proof.
  intros Ha He H. apply slice_inv in H. destruct H as (H0 & Hab & Hb & Hlit).
  right. exists a, (Z.to_nat (b - a)). repeat split; try lia. assumption.
Qed.

Lemma NextToken_switch_lexeme fuel l fl l1 :
  wf l -> room l ->
  NextToken_switch fuel l = Ret (fl, l1) ->
  match fl with
  | Repeat => True
  | Break tok => lexeme_in l tok (position l1 + 1)
  | Return tok => lexeme_in l tok (position l1)
  end.
Proof.
  intros Hwf Hroom H. pose proof Hroom as [Hr Hl].
  pose proof (wf_inside l Hwf) as Hin.
  pose proof (wf_pos l Hwf) as Hp.
  pose proof (wf_read l Hwf) as Hrd.
  switch_branches H l Hwf Hin;
  try (unfold oneChar, newToken in H; inversion H; subst; clear H;
       first [ left; reflexivity
             | right; exists (position l1), 1%nat;
               split; [lia|]; split; [lia|]; split; [lia|];
               cbn [Literal]; rewrite sub_S, sub_0 by lia;
               rewrite <- (wf_ch l1 Hwf);
               match goal with E : ch l1 = _ |- _ => rewrite E end; reflexivity ]);
  try (unfold twoChar in H; rewrite readChar_wf in H by assumption;
       simpl bind in H; inversion H; subst; clear H;
       match goal with
       | E2 : byte_at (input l) (position l + 1) = _ |- _ =>
           assert (Hin2 : 0 <= position l + 1 < len (input l))
             by (apply byte_at_not_NUL; rewrite E2; discriminate);
           right; exists (position l), 2%nat;
           split; [lia|]; split; [cbn; lia|]; split; [lia|];
           cbn [Literal moved ch]; rewrite sub_S by lia; rewrite sub_S by lia;
           rewrite sub_0, <- (wf_ch l Hwf), E2;
           match goal with E : ch l = _ |- _ => rewrite E end; reflexivity
       end).
  - (* line feed *)
    rewrite readChar_wf in H; [|now apply set_line_wf|assumption].
    simpl bind in H. bind_inv H. inversion H; subst. exact I.
  - (* line comment *)
    bind_inv H. destruct a as [literal l']. inversion H as [[Hfl Hl1]]; subst fl l1; clear H.
    unfold readLineComment in Ha. bind_inv Ha. bind_inv Ha.
    inversion Ha as [[Hlit Hl']]; subst literal l'.
    apply for_readChar_wf in Ha0; [|assumption|lia].
    destruct Ha0 as (_ & Hi & _ & _ & Hpos & _ & _). rewrite Hi in Ha1.
    apply (lexeme_in_slice l _ (position l) (position a)); [lia|lia|exact Ha1].
  - (* block comment *)
    bind_inv H. destruct a as [literal l']. inversion H as [[Hfl Hl1]]; subst fl l1; clear H.
    unfold readBlockComment in Ha. bind_inv Ha.
    apply readBlockComment_for_wf in Ha0; [|assumption|lia].
    destruct Ha0 as (Hwf' & Hi & _ & Hpos & _ & Hnext).
    assert (Hend : 0 <= position a + 1 < len (input l)).
    { apply byte_at_not_NUL. rewrite Hnext. discriminate. }
    pose proof (wf_pos a Hwf') as Hpa.
    assert (Hwf2 : wf (moved a (position a + 1) (wrap (tokenPosition a + 1)))).
    { apply moved_wf; [assumption|lia|apply wrap_range]. }
    rewrite readChar_wf in Ha; [|assumption|rewrite (wf_read a Hwf'); lia].
    simpl bind in Ha. rewrite readChar_wf in Ha; [|assumption|simpl; lia].
    simpl bind in Ha. bind_inv Ha. inversion Ha as [[Hlit Hl']]. subst literal l'.
    cbn [moved input position] in Ha0. rewrite Hi in Ha0.
    apply (lexeme_in_slice l _ (position l) (position a + 1 + 1));
      [lia|cbn; lia|exact Ha0].
  - (* end of input *)
    inversion H; subst. right. exists (position l1), 0%nat.
    split; [lia|]. split; [simpl; lia|]. split; [lia|]. now rewrite sub_0.
  - (* string *)
    bind_inv H. destruct a as [[literal err] l']. inversion H as [[Hfl Hl1]]; subst fl l1; clear H.
    unfold readString in Ha. rewrite readChar_wf in Ha by assumption.
    simpl bind in Ha. rewrite readString_for_eq in Ha. bind_inv Ha. bind_inv Ha.
    inversion Ha as [[Hlit Herr Hl']]. subst literal l'.
    apply for_readChar_wf in Ha0; simpl input; [| |lia].
    + destruct Ha0 as (_ & Hi & _ & _ & Hpos & _ & _). simpl in Hi, Hpos.
      rewrite Hi in Ha1.
      rewrite (wrap_small (position l + 1)) in Ha1 by (unfold int_min, int_max in *; lia).
      apply (lexeme_in_slice l _ (position l + 1) (position a)); [lia| |exact Ha1].
      destruct (ch a =? DQUOTE)%char; unfold addError, set_errors; simpl; lia.
    + apply moved_wf; [assumption|lia|apply wrap_range].
  - (* identifier *)
    bind_inv H. destruct a as [literal l']. inversion H as [[Hfl Hl1]]; subst fl l1; clear H.
    unfold readIdentifier in Ha. bind_inv Ha. bind_inv Ha.
    inversion Ha as [[Hlit Hl']]; subst literal l'.
    apply for_readChar_wf in Ha0; [|assumption|lia].
    destruct Ha0 as (_ & Hi & _ & _ & Hpos & _ & _). rewrite Hi in Ha1.
    apply (lexeme_in_slice l _ (position l) (position a)); [lia|lia|exact Ha1].
  - (* number *)
    bind_inv H. destruct a as [literal l']. inversion H as [[Hfl Hl1]]; subst fl l1; clear H.
    unfold readNumber in Ha. bind_inv Ha. bind_inv Ha.
    inversion Ha as [[Hlit Hl']]; subst literal l'.
    apply for_readChar_wf in Ha0; [|assumption|lia].
    destruct Ha0 as (_ & Hi & _ & _ & Hpos & _ & _). rewrite Hi in Ha1.
    apply (lexeme_in_slice l _ (position l) (position a)); [lia|lia|exact Ha1].
Qed.

Lemma lexeme_in_weaken l0 l tok e e' :
  lexeme_in l0 tok e -> input l0 = input l -> position l <= position l0 -> e <= e' ->
  lexeme_in l tok e'.
Proof.
  intros [H|(a & n & Ha & He & Hn & Hlit)] Hi Hp Hle; [now left|].
  right. exists a, n. rewrite <- Hi. repeat split; try lia; assumption.
Qed.

Lemma NextToken_for_lexeme :
  forall fuel l tok l',
    wf l -> room l ->
    NextToken_for fuel l = Ret (tok, l') ->
    lexeme_in l tok (position l').
Proof.
  induction fuel as [|fuel IH]; intros l tok l' Hwf Hroom H; [discriminate|].
  rewrite NextToken_for_S in H. bind_inv H. destruct a as [fl l1].
  pose proof (NextToken_switch_lexeme _ _ _ _ Hwf Hroom Ha) as Hlex.
  destruct (NextToken_switch_post _ _ _ _ Hwf Hroom Ha) as (Hwf1 & Hi1 & Hr1 & Hp1).
  destruct fl as [|t|t].
  - apply IH in H; [|assumption|split; [assumption|rewrite Hi1; apply Hroom]].
    apply (lexeme_in_weaken l1 l tok _ _ H); [assumption|lia|lia].
  - rewrite readChar_wf in H by assumption. simpl bind in H.
    inversion H; subst. exact Hlex.
  - inversion H; subst. exact Hlex.
Qed.

(** X11. The lexeme of every token that [NextToken] returns, [ILLEGAL]
    tokens apart, is a slice of the source text, taken from the bytes that
    this call has consumed: it starts at or after the cursor before the
    call and ends at or before the cursor after it. With the progress of
    the cursor, the lexemes of successive tokens are disjoint slices in
    the order of the text. *)
Theorem lexeme_is_a_slice_of_the_consumed_text fuel l tok l' :
  wf l -> room l ->
  NextToken fuel l = Ret (tok, l') ->
  Type_ tok = ILLEGAL
  \/ exists a (n : nat),
       position l <= a /\ a + Z.of_nat n <= position l'
       /\ ((0 < n)%nat -> a + Z.of_nat n <= len (input l))
       /\ Literal tok = sub (input l) a n.
Proof.
  intros Hwf [Hr Hl] H. unfold NextToken, skipWhitespace in H. bind_inv H.
  apply for_readChar_wf in Ha; [|assumption|lia].
  destruct Ha as (Hwf0 & Hi0 & _ & _ & Hp0 & Hend & _).
  pose proof (wf_read l Hwf) as Hrd.
  apply NextToken_for_lexeme in H; [|assumption|].
  - apply (lexeme_in_weaken a l tok _ (position l') H); [assumption|lia|lia].
  - split; rewrite ?(wf_read a Hwf0), ?Hi0; lia.
Qed.

(** On two spaces and [while(]: the lexeme is the five bytes from offset 2. *)
Lemma lexeme_slice_witness :
  Type_ (mkToken WHILE "while" 1 8) = ILLEGAL
  \/ exists a (n : nat),
       position (cursor "  while(" 0 1 1 []) <= a
       /\ a + Z.of_nat n <= position (cursor "  while(" 7 1 8 [])
       /\ ((0 < n)%nat -> a + Z.of_nat n <= len (input (cursor "  while(" 0 1 1 [])))
       /\ Literal (mkToken WHILE "while" 1 8) = sub (input (cursor "  while(" 0 1 1 [])) a n.
Proof.
  apply (lexeme_is_a_slice_of_the_consumed_text 9 (cursor "  while(" 0 1 1 [])).
  - concrete_cursor.
  - concrete_cursor.
  - vm_compute. reflexivity.
Defined.

(** ** Kinds and lines of tokens *)

Lemma readChar_peek l l' p :
  peekChar l = Ret p -> readChar l = Ret l' -> ch l' = p.
Proof.
  unfold readChar. fold (peekChar l). intros Hp H. rewrite Hp in H.
  simpl in H. now inversion H.
Qed.

Lemma lookupIdent_cases s :
  lookupIdent s = IDENT \/ (In s keywords /\ lookupIdent s = s).
Proof.
  destruct (in_dec string_dec s keywords) as [Hin|Hout].
  - right. split; [assumption|now apply lookupIdent_keyword].
  - left. now apply lookupIdent_other.
Qed.

Lemma keywords_spelled s : In s keywords -> In s spelledKinds.
Proof.
  intros H. cbn in H.
  repeat (destruct H as [H|H]; [subst s; cbn; tauto|]). contradiction.
Qed.

Lemma NextToken_switch_kind_line fuel l fl l1 tok :
  NextToken_switch fuel l = Ret (fl, l1) ->
  fl = Break tok \/ fl = Return tok ->
  kind_line_post tok l1.
Proof.
  intros H Hfl.
  unfold NextToken_switch, oneChar, twoChar, newToken, readLineComment, readBlockComment,
    readString, readIdentifier, readNumber in H.
  repeat match type of H with
  | (if (?a =? ?b)%char then _ else _) = _ =>
      let E := fresh "E" in destruct (Ascii.eqb_spec a b) as [E|E]
  | (if ?c then _ else _) = _ => destruct c
  | bind _ _ = _ => bind_inv H
  | (let (_, _) := ?x in _) = _ => destruct x
  end;
  repeat match goal with
  | Hx : bind _ _ = Ret _ |- _ => bind_inv Hx
  | Hp : peekChar ?x = Ret ?p, Hx : readChar ?x = Ret ?y |- _ =>
      pose proof (readChar_peek _ _ _ Hp Hx); clear Hp
  | Hx : readChar _ = Ret _ |- _ =>
      apply readChar_frame in Hx; destruct Hx as (? & ? & ?)
  | Hx : for_readChar _ _ _ = Ret _ |- _ =>
      apply for_readChar_frame in Hx; destruct Hx as (? & ? & ?)
  | Hx : readString_for _ _ _ = Ret _ |- _ =>
      apply readString_for_frame in Hx; destruct Hx as (? & ? & ? & ?)
  | Hx : Ret _ = Ret _ |- _ => inversion Hx; subst; clear Hx
  end;
  destruct Hfl as [Hfl|Hfl]; inversion Hfl; subst; clear Hfl;
  unfold kind_line_post; cbn [Type_ Literal Line];
  try (split; [left; cbn; tauto|]);
  try (split; [right; split; [cbn; tauto|];
               repeat match goal with E : ch _ = _ |- _ => rewrite E; clear E end;
               reflexivity|]);
  try (left; reflexivity);
  try (right; reflexivity).
  split; [|now left].
  destruct (lookupIdent_cases s) as [->|[Hin ->]].
  - left. cbn. tauto.
  - right. split; [now apply keywords_spelled|reflexivity].
Qed.

Lemma NextToken_kind_line fuel l tok l' :
  NextToken fuel l = Ret (tok, l') -> kind_line_post tok l'.
Proof.
  unfold NextToken. intros H. bind_inv H. clear Ha l. revert a H.
  induction fuel as [|fuel IH]; intros l H; [discriminate|].
  rewrite NextToken_for_S in H. bind_inv H. destruct a as [fl l1].
  destruct fl as [|t|t].
  - now apply IH with l1.
  - bind_inv H. inversion H; subst.
    destruct (NextToken_switch_kind_line _ _ _ _ tok Ha (or_introl eq_refl)) as [Hk Hl].
    split; [assumption|].
    apply readChar_frame in Ha0. destruct Ha0 as (_ & _ & Hline).
    now rewrite Hline.
  - inversion H; subst.
    apply (NextToken_switch_kind_line _ _ _ _ tok Ha). now right.
Qed.

(** X12. The set of token kinds is closed, and the kind of an operator,
    punctuation or keyword token is its own lexeme: every token that
    [NextToken] returns has one of the six class kinds ([EOF], [ILLEGAL],
    [IDENT], [INT], [STRING], [COMMENT]) or one of the thirty-four kinds
    that spell an operator, a punctuation mark or a keyword, and in that
    case its lexeme is that spelling. *)
Theorem token_kind_is_class_or_spelling fuel l tok l' :
  NextToken fuel l = Ret (tok, l') ->
  In (Type_ tok) classKinds
  \/ (In (Type_ tok) spelledKinds /\ Literal tok = Type_ tok).
Proof. intros H. apply (NextToken_kind_line fuel l tok l' H). Qed.

(** On [<=x] and on [return;]. *)
Lemma token_kind_witness :
  (In (Type_ (mkToken LE "<=" 1 2)) classKinds
   \/ (In (Type_ (mkToken LE "<=" 1 2)) spelledKinds
       /\ Literal (mkToken LE "<=" 1 2) = Type_ (mkToken LE "<=" 1 2)))
  /\ (In (Type_ (mkToken RETURN "return" 1 7)) classKinds
      \/ (In (Type_ (mkToken RETURN "return" 1 7)) spelledKinds
          /\ Literal (mkToken RETURN "return" 1 7) = Type_ (mkToken RETURN "return" 1 7))).
Proof.
  split.
  - apply (token_kind_is_class_or_spelling 3 (cursor "<=x" 0 1 1 []) _
             (cursor "<=x" 2 1 3 [])).
    vm_compute. reflexivity.
  - apply (token_kind_is_class_or_spelling 9 (cursor "return;" 0 1 1 []) _
             (cursor "return;" 6 1 7 [])).
    vm_compute. reflexivity.
Defined.

(** X13. Every token but [EOF] carries in [Line] the value of the line
    counter when [NextToken] returns it: the line on which the token ends
    (for a block comment over several lines, its last line). The [EOF]
    token is the zero-valued one. *)
Theorem token_line_is_line_counter fuel l tok l' :
  NextToken fuel l = Ret (tok, l') ->
  Line tok = line l' \/ tok = mkToken EOF "" 0 0.
Proof. intros H. apply (NextToken_kind_line fuel l tok l' H). Qed.

(** On a block comment of two lines starting on line 1. *)
Lemma token_line_witness :
  Line (mkToken COMMENT ("/*" ++ newline ++ "*/") 2 6)
  = line (mkLexer ("/*" ++ newline ++ "*/x") 6 7 NUL 2 7 [])
  \/ mkToken COMMENT ("/*" ++ newline ++ "*/") 2 6 = mkToken EOF "" 0 0.
Proof.
  apply (token_line_is_line_counter 9 (cursor ("/*" ++ newline ++ "*/x") 0 1 1 [])).
  vm_compute. reflexivity.
Defined.

(** ** The line counter never runs ahead *)

Lemma count_LF_app s :
  forall (n m : nat) a,
    count_LF s a (n + m) = count_LF s a n + count_LF s (a + Z.of_nat n) m.
Proof.
  induction n as [|n IH]; intros m a.
  - simpl. now rewrite Z.add_0_r.
  - cbn [count_LF Nat.add]. rewrite IH.
    replace (a + 1 + Z.of_nat n) with (a + Z.of_nat (S n)) by lia. lia.
Qed.

Lemma count_LF_le s a (n m : nat) :
  (n <= m)%nat -> count_LF s a n <= count_LF s a m.
Proof.
  intros H. replace m with (n + (m - n))%nat by lia. rewrite count_LF_app.
  pose proof (count_LF_bounds s (m - n) (a + Z.of_nat n)). lia.
Qed.

Lemma count_LF_split s a b c :
  a <= b <= c ->
  count_LF s a (Z.to_nat (c - a))
  = count_LF s a (Z.to_nat (b - a)) + count_LF s b (Z.to_nat (c - b)).
Proof.
  intros H. replace (Z.to_nat (c - a)) with (Z.to_nat (b - a) + Z.to_nat (c - b))%nat by lia.
  rewrite count_LF_app. do 2 f_equal. lia.
Qed.

Lemma line_post_same l l1 :
  wf l -> input l1 = input l -> line l1 = line l -> line_post l l1.
Proof.
  intros Hwf Hi Hln. exists 0. rewrite Z.add_0_r, Hln.
  rewrite wrap_small by apply (wf_line l Hwf).
  pose proof (count_LF_bounds (input l) (Z.to_nat (position l1 - position l)) (position l)).
  split; [lia|reflexivity].
Qed.

Lemma line_post_trans l l1 l2 :
  line_post l l1 -> line_post l1 l2 ->
  input l1 = input l -> position l <= position l1 <= position l2 ->
  line_post l l2.
Proof.
  intros (c1 & Hc1 & H1) (c2 & Hc2 & H2) Hi Hp.
  exists (c1 + c2). rewrite Hi in Hc2.
  rewrite (count_LF_split (input l) (position l) (position l1) (position l2)) by lia.
  split; [lia|]. rewrite H2, H1, wrap_wrap_add. f_equal. lia.
Qed.

Lemma line_post_further l l1 l2 :
  line_post l l1 -> line l2 = line l1 -> position l1 <= position l2 ->
  line_post l l2.
Proof.
  intros (c & Hc & H) Hln Hp. exists c. split; [|congruence].
  pose proof (count_LF_le (input l) (position l)
                (Z.to_nat (position l1 - position l))
                (Z.to_nat (position l2 - position l)) ltac:(lia)).
  lia.
Qed.

Lemma readBlockComment_for_line :
  forall fuel l l',
    wf l -> len (input l) < int_max ->
    readBlockComment_for fuel l = Ret l' ->
    line_post l l'.
Proof.
  induction fuel as [|fuel IH]; intros l l' Hwf Hlen H; [discriminate|].
  pose proof (returns_Ret _ _ H) as Hret.
  pose proof (wf_pos l Hwf) as Hp.
  simpl in H. bind_inv H. destruct a.
  { inversion H; subst. now apply line_post_same. }
  clear Ha.
  set (b := (ch l =? LF)%char) in *.
  set (l1 := if b then set_line l (wrap (line l + 1)) else l) in *.
  assert (Hl1 : wf l1 /\ input l1 = input l /\ position l1 = position l
                /\ readPosition l1 = readPosition l
                /\ line l1 = wrap (line l + if b then 1 else 0)).
  { subst l1. destruct b.
    - split; [now apply set_line_wf|now cbn].
    - rewrite Z.add_0_r, wrap_small by apply (wf_line l Hwf). now auto. }
  destruct Hl1 as (Hwf1 & Hi1 & Hp1 & Hr1 & Hln1).
  destruct (Z_lt_le_dec (position l) (len (input l))) as [Hin|Hout].
  - rewrite readChar_wf in H; [|assumption|rewrite Hr1, (wf_read l Hwf); lia].
    simpl bind in H.
    assert (Hwf2 : wf (moved l1 (position l1 + 1) (wrap (tokenPosition l1 + 1)))).
    { apply moved_wf; [assumption|lia|apply wrap_range]. }
    assert (Hlen2 : len (input (moved l1 (position l1 + 1) (wrap (tokenPosition l1 + 1))))
                    < int_max).
    { cbn [moved input]. rewrite Hi1. assumption. }
    pose proof (readBlockComment_for_wf _ _ _ Hwf2 Hlen2 H) as (_ & _ & _ & Hpos & _).
    apply IH in H; [|assumption|assumption].
    destruct H as (c & Hc & Hline). simpl in Hc, Hline, Hpos.
    rewrite Hi1, Hp1 in *.
    exists ((if b then 1 else 0) + c).
    replace (Z.to_nat (position l' - position l))
      with (S (Z.to_nat (position l' - (position l + 1)))) by lia.
    cbn [count_LF]. rewrite <- (wf_ch l Hwf). fold b.
    split; [destruct b; lia|].
    rewrite Hline, Hln1, wrap_wrap_add. f_equal. lia.
  - exfalso.
    rewrite (readBlockComment_for_stuck (S fuel) l) in Hret; [discriminate|].
    now apply wf_stuck.
Qed.

Lemma NextToken_switch_line fuel l fl l1 :
  wf l -> room l ->
  NextToken_switch fuel l = Ret (fl, l1) ->
  line_post l l1.
Proof.
  intros Hwf Hroom H. pose proof Hroom as [Hr Hl].
  pose proof (wf_inside l Hwf) as Hin.
  pose proof (wf_pos l Hwf) as Hp.
  pose proof (wf_read l Hwf) as Hrd.
  switch_branches H l Hwf Hin;
  try (unfold oneChar in H; inversion H; subst; now apply line_post_same);
  try (unfold twoChar in H; rewrite readChar_wf in H by assumption;
       simpl bind in H; inversion H; subst; now apply line_post_same).
  - (* line feed *)
    rewrite readChar_wf in H; [|now apply set_line_wf|assumption].
    simpl bind in H. bind_inv H. inversion H as [[Hfl Hl1]]; subst fl l1; clear H.
    apply for_readChar_wf in Ha; simpl input; [|apply moved_wf|lia].
    + destruct Ha as (_ & Hi & Hln & _ & Hpos & _ & _). simpl in Hi, Hln, Hpos.
      exists 1. unfold set_tokenPosition; cbn [position line].
      split; [|exact Hln].
      replace (Z.to_nat (position a - position l))
        with (S (Z.to_nat (position a - (position l + 1)))) by lia.
      cbn [count_LF]. rewrite <- (wf_ch l Hwf), E. cbn [Ascii.eqb Bool.eqb LF].
      pose proof (count_LF_bounds (input l) (Z.to_nat (position a - (position l + 1)))
                    (position l + 1)).
      lia.
    + now apply set_line_wf.
    + simpl. lia.
    + apply wrap_range.
  - (* line comment *)
    bind_inv H. destruct a as [literal l']. inversion H as [[Hfl Hl1]]; subst fl l1; clear H.
    unfold readLineComment in Ha. bind_inv Ha. bind_inv Ha.
    inversion Ha as [[Hlit Hl']]; subst literal l'.
    apply for_readChar_wf in Ha0; [|assumption|lia].
    destruct Ha0 as (_ & Hi & Hln & _). now apply line_post_same.
  - (* block comment *)
    bind_inv H. destruct a as [literal l']. inversion H as [[Hfl Hl1]]; subst fl l1; clear H.
    unfold readBlockComment in Ha. bind_inv Ha.
    pose proof (readBlockComment_for_line _ _ _ Hwf ltac:(lia) Ha0) as Hline.
    apply readBlockComment_for_wf in Ha0; [|assumption|lia].
    destruct Ha0 as (Hwf' & Hi & _ & Hpos & _ & Hnext).
    assert (Hend : 0 <= position a + 1 < len (input l)).
    { apply byte_at_not_NUL. rewrite Hnext. discriminate. }
    pose proof (wf_pos a Hwf') as Hpa.
    assert (Hwf2 : wf (moved a (position a + 1) (wrap (tokenPosition a + 1)))).
    { apply moved_wf; [assumption|lia|apply wrap_range]. }
    rewrite readChar_wf in Ha; [|assumption|rewrite (wf_read a Hwf'); lia].
    simpl bind in Ha. rewrite readChar_wf in Ha; [|assumption|simpl; lia].
    simpl bind in Ha. bind_inv Ha. inversion Ha as [[Hlit Hl']]. subst literal l'.
    apply (line_post_further l a); [assumption|reflexivity|simpl; lia].
  - (* string *)
    bind_inv H. destruct a as [[literal err] l']. inversion H as [[Hfl Hl1]]; subst fl l1; clear H.
    unfold readString in Ha. rewrite readChar_wf in Ha by assumption.
    simpl bind in Ha.
    apply readString_for_wf in Ha; simpl input; [| |lia].
    + destruct Ha as (_ & Hi & _ & Hln & _). simpl in Hi, Hln.
      destruct err; now apply line_post_same.
    + apply moved_wf; [assumption|lia|apply wrap_range].
  - (* identifier *)
    bind_inv H. destruct a as [literal l']. inversion H as [[Hfl Hl1]]; subst fl l1; clear H.
    unfold readIdentifier in Ha. bind_inv Ha. bind_inv Ha.
    inversion Ha as [[Hlit Hl']]; subst literal l'.
    apply for_readChar_wf in Ha0; [|assumption|lia].
    destruct Ha0 as (_ & Hi & Hln & _). now apply line_post_same.
  - (* number *)
    bind_inv H. destruct a as [literal l']. inversion H as [[Hfl Hl1]]; subst fl l1; clear H.
    unfold readNumber in Ha. bind_inv Ha. bind_inv Ha.
    inversion Ha as [[Hlit Hl']]; subst literal l'.
    apply for_readChar_wf in Ha0; [|assumption|lia].
    destruct Ha0 as (_ & Hi & Hln & _). now apply line_post_same.
Qed.

Lemma NextToken_for_line :
  forall fuel l tok l',
    wf l -> room l ->
    NextToken_for fuel l = Ret (tok, l') ->
    line_post l l'.
Proof.
  induction fuel as [|fuel IH]; intros l tok l' Hwf Hroom H; [discriminate|].
  rewrite NextToken_for_S in H. bind_inv H. destruct a as [fl l1].
  pose proof (NextToken_switch_line _ _ _ _ Hwf Hroom Ha) as Hline.
  destruct (NextToken_switch_post _ _ _ _ Hwf Hroom Ha) as (Hwf1 & Hi1 & Hr1 & Hp1).
  assert (Hroom1 : room l1) by (split; [assumption|rewrite Hi1; apply Hroom]).
  destruct fl as [|t|t].
  - pose proof (NextToken_for_post _ _ _ _ Hwf1 Hroom1 H) as (_ & _ & Hp').
    apply IH in H; [|assumption|assumption].
    apply (line_post_trans l l1 l'); [assumption|assumption|assumption|lia].
  - rewrite readChar_wf in H by assumption. simpl bind in H.
    inversion H; subst.
    apply (line_post_further l l1); [assumption|reflexivity|simpl; lia].
  - inversion H; subst. assumption.
Qed.

(** X14. The line counter never runs ahead of the text: over one call of
    [NextToken] it grows by some [c] that is at most the number of
    line-feeds among the bytes the call consumed. (It can be less: the
    line-feed that ends a line comment or cuts a string short is consumed
    without being counted.) *)
Theorem line_counter_counts_only_line_feeds fuel l tok l' :
  wf l -> room l ->
  NextToken fuel l = Ret (tok, l') ->
  exists c,
    0 <= c <= count_LF (input l) (position l) (Z.to_nat (position l' - position l))
    /\ line l' = wrap (line l + c).
Proof.
  intros Hwf Hroom H. pose proof Hroom as [Hr Hl].
  unfold NextToken, skipWhitespace in H. bind_inv H.
  pose proof (wf_read l Hwf) as Hrd.
  apply for_readChar_wf in Ha; [|assumption|lia].
  destruct Ha as (Hwf0 & Hi0 & Hln0 & _ & Hp0 & Hend & _).
  assert (Hroom0 : room a).
  { split; rewrite ?(wf_read a Hwf0), ?Hi0; lia. }
  pose proof (NextToken_for_post _ _ _ _ Hwf0 Hroom0 H) as (_ & _ & Hp').
  apply NextToken_for_line in H; [|assumption|assumption].
  apply (line_post_trans l a l'); [|assumption|assumption|lia].
  now apply line_post_same.
Qed.

(** On [a], a line-feed and [b], with the cursor on the line-feed: one
    line-feed consumed, the counter one more. *)
Lemma line_counter_witness :
  exists c,
    0 <= c <= count_LF (input (cursor ("a" ++ newline ++ "b") 1 1 2 []))
                       (position (cursor ("a" ++ newline ++ "b") 1 1 2 []))
                       (Z.to_nat (position (cursor ("a" ++ newline ++ "b") 3 2 1 [])
                                  - position (cursor ("a" ++ newline ++ "b") 1 1 2 [])))
    /\ line (cursor ("a" ++ newline ++ "b") 3 2 1 [])
       = wrap (line (cursor ("a" ++ newline ++ "b") 1 1 2 []) + c).
Proof.
  apply (line_counter_counts_only_line_feeds 5 (cursor ("a" ++ newline ++ "b") 1 1 2 [])
           (mkToken IDENT "b" 2 1)).
  - concrete_cursor.
  - concrete_cursor.
  - vm_compute. reflexivity.
Defined.

(** ** The error log of a whole scan *)

Lemma lookupIdent_not_STRING s : lookupIdent s <> STRING.
Proof.
  unfold lookupIdent.
  repeat match goal with
  | |- (if ?c then _ else _) <> _ => destruct c
  end; discriminate.
Qed.

(** Only the case of the quote makes a [STRING] token. *)
Lemma NextToken_switch_STRING fuel l fl l1 tok :
  NextToken_switch fuel l = Ret (fl, l1) ->
  fl = Break tok \/ fl = Return tok ->
  Type_ tok = STRING ->
  ch l = DQUOTE.
Proof.
  intros H Hfl Hty.
  unfold NextToken_switch, oneChar, twoChar, newToken in H.
  repeat match type of H with
  | (if (?a =? ?b)%char then _ else _) = _ => destruct (Ascii.eqb_spec a b)
  | (if ?c then _ else _) = _ => destruct c
  | bind _ _ = _ => bind_inv H
  | (let (_, _) := ?x in _) = _ => destruct x
  end;
  try assumption;
  inversion H; subst; clear H;
  destruct Hfl as [Hfl|Hfl]; inversion Hfl; subst; clear Hfl;
  cbn [Type_] in Hty;
  try (exfalso; now apply (lookupIdent_not_STRING _ Hty));
  discriminate Hty.
Qed.

Lemma HasErrors_app l l' es :
  errors l' = (errors l ++ es)%list ->
  HasErrors l' = HasErrors l || negb (Nat.eqb (List.length es) 0).
Proof.
  unfold HasErrors. intros ->. rewrite length_app.
  destruct (errors l), es; reflexivity.
Qed.

Lemma Tokens_for_errors :
  forall fuel acc l ts l',
    Tokens_for fuel acc l = Ret (ts, l') ->
    exists new bad,
      ts = (acc ++ new)%list
      /\ errors l' = (errors l ++ map string_error bad)%list
      /\ Forall (fun t => In t new /\ Type_ t = STRING) bad
      /\ (List.length bad <= List.length (filter isString new))%nat.
Proof.
  induction fuel as [|fuel IH]; intros acc l ts l' H; [discriminate|].
  cbn [Tokens_for] in H. bind_inv H. destruct a as [tok l1].
  apply NextToken_errors_cases in Ha.
  assert (Hstep : exists b,
             errors l1 = (errors l ++ map string_error b)%list
             /\ Forall (fun t => t = tok /\ Type_ t = STRING) b
             /\ (List.length b <= List.length (filter isString [tok]))%nat).
  { destruct Ha as [Ha|[Hty Ha]].
    - exists []. rewrite app_nil_r. repeat split; [assumption|constructor|simpl; lia].
    - exists [tok]. repeat split; [assumption|now repeat constructor|].
      cbn [filter]. unfold isString. rewrite Hty. simpl. lia. }
  destruct Hstep as (b & Hb & Hall & Hlen).
  destruct (Type_ tok =? EOF)%string.
  - inversion H; subst. exists [tok], b. repeat split; try assumption.
    eapply Forall_impl; [|exact Hall]. intros t [-> Ht]. split; [now left|assumption].
  - apply IH in H. destruct H as (new & bad & -> & He & Hall' & Hlen').
    exists (tok :: new), (b ++ bad)%list. repeat split.
    + now rewrite <- app_assoc.
    + rewrite He, Hb, map_app, app_assoc. reflexivity.
    + apply Forall_app. split.
      * eapply Forall_impl; [|exact Hall]. intros t [-> Ht]. split; [now left|assumption].
      * eapply Forall_impl; [|exact Hall']. intros t [Hin Ht]. split; [now right|assumption].
    + rewrite length_app. change (tok :: new) with ([tok] ++ new)%list.
      rewrite filter_app, length_app. lia.
Qed.

(** X15. Over a whole run of [Tokens] the error log is extended, never
    rewritten: the entries added are the messages of string tokens of the
    result, in order of logging, at most one per string token; and
    [HasErrors] holds afterwards exactly when it held before or an entry
    was added. *)
Theorem Tokens_errors_come_from_string_tokens fuel l ts l' :
  Tokens fuel l = Ret (ts, l') ->
  exists bad,
    Errors l' = (Errors l ++ map string_error bad)%list
    /\ Forall (fun t => In t ts /\ Type_ t = STRING) bad
    /\ (List.length bad <= List.length (filter isString ts))%nat
    /\ HasErrors l' = HasErrors l || negb (Nat.eqb (List.length bad) 0).
Proof.
  intros H. apply Tokens_for_errors in H.
  destruct H as (new & bad & Hts & He & Hall & Hlen). simpl in Hts. subst new.
  exists bad. unfold Errors. repeat split; try assumption.
  rewrite (HasErrors_app l l' _ He), length_map. reflexivity.
Qed.

(** On [text_unterminated]: two string tokens, one of them cut short. *)
Lemma Tokens_errors_witness :
  exists bad,
    Errors (mkLexer text_unterminated 21 22 NUL 1 22 ["[1:14] non-terminated string"])
    = (Errors (cursor text_unterminated 0 1 1 []) ++ map string_error bad)%list
    /\ Forall (fun t => In t [mkToken STRING "a final test" 1 14;
                              mkToken STRING "test" 1 20;
                              mkToken EOF "" 0 0]
                        /\ Type_ t = STRING) bad
    /\ (List.length bad
        <= List.length (filter isString [mkToken STRING "a final test" 1 14;
                                         mkToken STRING "test" 1 20;
                                         mkToken EOF "" 0 0]))%nat
    /\ HasErrors (mkLexer text_unterminated 21 22 NUL 1 22 ["[1:14] non-terminated string"])
       = HasErrors (cursor text_unterminated 0 1 1 [])
         || negb (Nat.eqb (List.length bad) 0).
Proof.
  apply (Tokens_errors_come_from_string_tokens 40 (cursor text_unterminated 0 1 1 [])).
  vm_compute. reflexivity.
Defined.

(** ** A whole scan of a text without quotes and comments *)

Lemma NextToken_for_plain_errors :
  forall fuel l tok l',
    wf l -> room l -> plain l ->
    NextToken_for fuel l = Ret (tok, l') ->
    errors l' = errors l.
Proof.
  induction fuel as [|fuel IH]; intros l tok l' Hwf Hroom Hplain H; [discriminate|].
  rewrite NextToken_for_S in H. bind_inv H. destruct a as [fl l1].
  assert (Hq : ch l <> DQUOTE).
  { rewrite (wf_ch l Hwf). apply Hplain. lia. }
  destruct (NextToken_switch_post _ _ _ _ Hwf Hroom Ha) as (Hwf1 & Hi1 & Hr1 & Hp1).
  assert (He : errors l1 = errors l).
  { destruct (NextToken_switch_errors _ _ _ _ Ha) as [He|(t & Hfl & Hty & _)];
      [assumption|].
    exfalso. apply Hq.
    apply (NextToken_switch_STRING _ _ _ _ t Ha); [now left|assumption]. }
  destruct fl as [|t|t].
  - apply IH in H; [congruence|assumption| |].
    + split; [assumption|rewrite Hi1; apply Hroom].
    + apply (plain_later l); [assumption|assumption|lia].
  - bind_inv H. apply readChar_frame in Ha0. destruct Ha0 as (_ & He' & _).
    inversion H; subst. congruence.
  - inversion H; subst. assumption.
Qed.

Lemma Tokens_for_plain_errors :
  forall fuel acc l ts l',
    wf l -> room l -> plain l ->
    Tokens_for fuel acc l = Ret (ts, l') ->
    errors l' = errors l /\ input l' = input l.
Proof.
  induction fuel as [|fuel IH]; intros acc l ts l' Hwf Hroom Hplain H; [discriminate|].
  pose proof Hroom as [Hr Hl].
  cbn [Tokens_for] in H. bind_inv H. destruct a as [tok l1].
  destruct (NextToken_post _ _ _ _ Hwf Hroom Ha) as (Hwf1 & Hi1 & Hp1).
  pose proof (NextToken_upper _ _ _ _ Hwf Hroom Ha) as Hup.
  assert (He : errors l1 = errors l).
  { unfold NextToken, skipWhitespace in Ha. bind_inv Ha.
    apply for_readChar_wf in Ha0; [|assumption|lia].
    destruct Ha0 as (Hwf0 & Hi0 & _ & He0 & Hp0 & Hend & _).
    rewrite <- He0.
    apply (NextToken_for_plain_errors _ _ _ _ Hwf0) in Ha; [assumption| |].
    - pose proof (wf_read l Hwf). split; rewrite ?(wf_read a Hwf0), ?Hi0; lia.
    - now apply (plain_later l). }
  destruct (Type_ tok =? EOF)%string eqn:E.
  - inversion H; subst. now split.
  - assert (Hin : position l < len (input l)).
    { destruct (Z_lt_le_dec (position l) (len (input l))) as [Hlt|Hge]; [assumption|].
      exfalso. destruct fuel as [|fuel]; [discriminate|].
      pose proof (wf_pos l Hwf).
      rewrite NextToken_EOF in Ha; try assumption; try lia.
      - inversion Ha; subst. discriminate E.
      - now apply wf_exhausted. }
    apply IH in H; [destruct H; split; congruence|assumption| |].
    + split; [rewrite (wf_read l1 Hwf1); lia|rewrite Hi1; assumption].
    + apply (plain_later l); [assumption|assumption|lia].
Qed.

(** X16. Scanning from a fresh scanner a text that holds no quote and no
    comment opener terminates within a step budget linear in its length:
    [NewLexer] does not fail, [Tokens] returns at most one token per byte
    and then the only [EOF] token, and no error is logged. *)
Theorem scan_of_plain_text fuel s :
  len s + 2 < int_max ->
  plain (cursor s 0 1 1 []) ->
  (Z.to_nat (len s) + 3 <= fuel)%nat ->
  exists init l',
    scan fuel s = Ret ((init ++ [mkToken EOF "" 0 0])%list, l')
    /\ Forall (fun t => Type_ t <> EOF) init
    /\ (List.length init <= Z.to_nat (len s))%nat
    /\ input l' = s
    /\ HasErrors l' = false.
Proof.
  intros Hlen Hplain Hfuel.
  assert (Hwf : wf (cursor s 0 1 1 [])) by (apply cursor_wf; unfold int_min, int_max; lia).
  assert (Hroom : room (cursor s 0 1 1 [])).
  { apply cursor_room; [unfold int_max; lia|assumption]. }
  unfold scan. rewrite NewLexer_cursor by lia. cbn [bind]. unfold Tokens.
  destruct (Tokens_for_returns (remaining (cursor s 0 1 1 [])) fuel [] _
              Hwf Hroom Hplain (le_n _)) as (ts & l' & H).
  { unfold remaining. cbn [cursor input position]. lia. }
  pose proof (Tokens_for_length _ _ _ _ _ Hwf Hroom H) as Hn.
  destruct (Tokens_for_plain_errors _ _ _ _ _ Hwf Hroom Hplain H) as [He Hi].
  destruct (Tokens_for_shape _ _ _ _ _ H) as (init & -> & Hall).
  exists init, l'. rewrite H. repeat split; try assumption.
  - cbn [app] in Hn. rewrite length_app in Hn. unfold remaining in Hn.
    cbn [cursor input position List.length] in Hn. lia.
  - unfold HasErrors. rewrite He. reflexivity.
Qed.

(** On [a/b+1]: five bytes, five tokens and [EOF], no error. *)
Lemma scan_of_plain_text_witness :
  exists init l',
    scan 9 "a/b+1" = Ret ((init ++ [mkToken EOF "" 0 0])%list, l')
    /\ Forall (fun t => Type_ t <> EOF) init
    /\ (List.length init <= Z.to_nat (len "a/b+1"))%nat
    /\ input l' = "a/b+1"%string
    /\ HasErrors l' = false.
Proof.
  apply (scan_of_plain_text 9 "a/b+1").
  - vm_compute. reflexivity.
  - intros i Hi. cbn [cursor position input] in *.
    destruct (Z_lt_le_dec i 5) as [Hin|Hout].
    + assert (Hc : i = 0 \/ i = 1 \/ i = 2 \/ i = 3 \/ i = 4) by lia.
      repeat (destruct Hc as [->|Hc];
              [split; [discriminate|];
               cbn; intros H; repeat (destruct H as [H|H]; [discriminate H|]); exact H|]).
      subst i. split; [discriminate|].
      cbn. intros H. repeat (destruct H as [H|H]; [discriminate H|]). exact H.
    + rewrite (byte_at_end "a/b+1" i) by (vm_compute len; lia).
      split; [discriminate|].
      cbn. intros H. repeat (destruct H as [H|H]; [discriminate H|]). exact H.
  - vm_compute. lia.
Defined.
